(** * SQuAD data processor

    A shallow embedding of [transformers/data/processors/squad.py]: the
    raw example model ([SquadExample]), the dataset reader
    ([_create_examples]) and the feature conversion pipeline
    ([squad_convert_examples_to_features]) with its helpers, followed by
    the properties of the specification proved (or refuted) on them.

    Conventions of the embedding:
    - a Python [str] is the list of its Unicode code points ([list N]);
    - a Python [int] is a [Z], a Python [float] is a binary64 [float];
    - code that may raise returns a [result]; loops that Python cannot
      bound ([while]) take a fuel argument and answer [OutOfFuel] when it
      is exhausted;
    - a [dict] keyed by integers is a [gmap Z _]. *)

From Stdlib Require Import ZArith List String Ascii Floats Lia.
From stdpp Require Import base option list gmap numbers.

Open Scope Z_scope.

(** ** Python values and primitives *)

Abbreviation pystr := (list N).

Fixpoint str (s : string) : list N :=
  match s with
  | EmptyString => []
  | String a s' => N_of_ascii a :: str s'
  end.

Inductive exn : Type :=
  | IndexError
  | ValueError (msg : string)
  | TypeError
  | AttributeError
  | OverflowError
  | UnboundLocalError
  | TokenizerError (msg : string).

Inductive result (A : Type) : Type :=
  | Ok (a : A)
  | Raise (e : exn)
  | OutOfFuel.
Arguments Ok {A} a.
Arguments Raise {A} e.
Arguments OutOfFuel {A}.

#[global] Instance result_ret : MRet result := λ A a, Ok a.
#[global] Instance result_bind : MBind result := λ A B f m,
  match m with
  | Ok a => f a
  | Raise e => Raise e
  | OutOfFuel => OutOfFuel
  end.

(** [for x in l: s = body(s, x)], stopping at the first exception. *)
Fixpoint for_loop {A S : Type} (body : S → A → result S) (l : list A) (s : S)
  : result S :=
  match l with
  | [] => Ok s
  | x :: l' => s' ← body s x; for_loop body l' s'
  end.

(** Loop bodies that may [return] from the enclosing function. *)
Inductive ctl (S R : Type) : Type :=
  | Next (s : S)
  | Return (r : R).
Arguments Next {S R} s.
Arguments Return {S R} r.

Fixpoint for_ctl {A S R : Type} (body : S → A → result (ctl S R))
  (l : list A) (s : S) : result (ctl S R) :=
  match l with
  | [] => Ok (Next s)
  | x :: l' =>
      c ← body s x;
      match c with
      | Next s' => for_ctl body l' s'
      | Return r => Ok (Return r)
      end
  end.

Definition len {A : Type} (l : list A) : Z := Z.of_nat (length l).

(** [l[i]], negative indices counting from the end. *)
Definition py_index {A : Type} (l : list A) (i : Z) : result A :=
  let j := if i <? 0 then i + len l else i in
  if (0 <=? j) && (j <? len l) then
    match l !! Z.to_nat j with
    | Some x => Ok x
    | None => Raise IndexError
    end
  else Raise IndexError.

(** [l[i] = x]. *)
Definition py_setitem {A : Type} (l : list A) (i : Z) (x : A) : result (list A) :=
  let j := if i <? 0 then i + len l else i in
  if (0 <=? j) && (j <? len l) then Ok (<[Z.to_nat j := x]> l)
  else Raise IndexError.

Definition slice_bound (n i : Z) : Z :=
  if i <? 0 then Z.max (i + n) 0 else Z.min i n.

(** [l[lo:hi]]. *)
Definition py_slice {A : Type} (l : list A) (lo hi : Z) : list A :=
  let a := slice_bound (len l) lo in
  let b := slice_bound (len l) hi in
  take (Z.to_nat (b - a)) (drop (Z.to_nat a) l).

(** [sep.join(l)]. *)
Fixpoint join (sep : pystr) (l : list pystr) : pystr :=
  match l with
  | [] => []
  | x :: l' =>
      match l' with
      | [] => x
      | _ :: _ => x ++ sep ++ join sep l'
      end
  end.

(** [range(a, b)] and [range(a, b, -1)]. *)
Definition range (a b : Z) : list Z := seqZ a (b - a).
Definition range_down (a b : Z) : list Z := (λ k, a - k) <$> seqZ 0 (a - b).

Definition enumerate {A : Type} (l : list A) : list (Z * A) :=
  imap (λ i x, (Z.of_nat i, x)) l.

Fixpoint is_prefix (p s : pystr) : bool :=
  match p, s with
  | [], _ => true
  | _ :: _, [] => false
  | a :: p', b :: s' => (a =? b)%N && is_prefix p' s'
  end.

Fixpoint find_from (s sub : pystr) (i : Z) : Z :=
  if is_prefix sub s then i
  else match s with
       | [] => -1
       | _ :: s' => find_from s' sub (i + 1)
       end.

(** [s.find(sub)]: the lowest index where [sub] occurs in [s], or -1. *)
Definition str_find (s sub : pystr) : Z := find_from s sub 0.

(** [l.index(x)] on a list of integers. *)
Fixpoint index_from (l : list Z) (x : Z) (i : Z) : result Z :=
  match l with
  | [] => Raise (ValueError "x is not in list")
  | y :: l' => if y =? x then Ok i else index_from l' x (i + 1)
  end.
Definition list_index (l : list Z) (x : Z) : result Z := index_from l x 0.

(** ** The raw example model *)

Definition _is_whitespace (c : N) : bool :=
  ((c =? 32) || (c =? 9) || (c =? 13) || (c =? 10) || (c =? 0x202F))%N.

Record SquadExample : Type := mkSquadExample {
  qas_id : pystr;
  question_text : pystr;
  context_text : pystr;
  answer_text : option pystr;
  title : pystr;
  is_impossible : bool;
  start_position : Z;
  end_position : Z;
  doc_tokens : list pystr;
  char_to_word_offset : list Z
}.

(** State of the splitting loop of [SquadExample.__init__]:
    [(doc_tokens, char_to_word_offset, prev_is_whitespace)]. *)
Definition split_state : Type := list pystr * list Z * bool.

Definition split_step (st : split_state) (c : N) : result split_state :=
  let '(doc_tokens, char_to_word_offset, prev_is_whitespace) := st in
  '(doc_tokens, prev_is_whitespace) ←
    (if _is_whitespace c then Ok (doc_tokens, true)
     else
       doc_tokens ←
         (if prev_is_whitespace then Ok (doc_tokens ++ [[c]])
          else
            last_token ← py_index doc_tokens (-1);
            py_setitem doc_tokens (-1) (last_token ++ [c]));
       Ok (doc_tokens, false));
  Ok (doc_tokens, char_to_word_offset ++ [len doc_tokens - 1], prev_is_whitespace).

Definition SquadExample_init (qas_id question_text context_text : pystr)
  (answer_text : option pystr) (start_position_character : option Z)
  (title : pystr) (is_impossible : bool) : result SquadExample :=
  '(doc_tokens, char_to_word_offset, _) ←
    for_loop split_step context_text ([], [], true);
  '(start_position, end_position) ←
    match start_position_character with
    | Some spc =>
        if negb is_impossible then
          start_position ← py_index char_to_word_offset spc;
          answer_len ← match answer_text with
                       | Some a => Ok (len a)
                       | None => Raise TypeError
                       end;
          end_position ← py_index char_to_word_offset (spc + answer_len - 1);
          Ok (start_position, end_position)
        else Ok (0, 0)
    | None => Ok (0, 0)
    end;
  Ok {| qas_id := qas_id; question_text := question_text;
        context_text := context_text; answer_text := answer_text;
        title := title; is_impossible := is_impossible;
        start_position := start_position; end_position := end_position;
        doc_tokens := doc_tokens; char_to_word_offset := char_to_word_offset |}.


(** ** Answer span refinement *)

(** The external tokenizer. [encode] is called with
    [add_special_tokens=False] and takes the text and [max_length];
    [encode_plus] takes the two sequences, [max_length], [stride] and the
    truncation strategy (overflow reporting on, right padding). A sequence
    handed to [encode_plus] is a list of token strings or a list of ids. *)
Inductive token_seq : Type :=
  | Tokens (toks : list pystr)
  | Ids (ids : list Z).

Inductive truncation_strategy : Type := OnlyFirst | OnlySecond.

Module Encoded.
Record t : Type := mk {
  input_ids : list Z;
  token_type_ids : list Z;
  attention_mask : list Z;
  overflowing_tokens : option token_seq
}.
End Encoded.

Record Tokenizer : Type := mkTokenizer {
  tokenize : pystr → result (list pystr);
  encode : pystr → Z → result (list Z);
  encode_plus : token_seq → token_seq → Z → Z → truncation_strategy →
                result Encoded.t;
  convert_ids_to_tokens : list Z → result (list pystr);
  pad_token_id : Z;
  sep_token_id : Z;
  cls_token_id : Z;
  max_len : Z;
  max_len_single_sentence : Z;
  max_len_sentences_pair : Z
}.

Definition space : pystr := [32%N].

Definition _improve_answer_span (doc_tokens : list pystr)
  (input_start input_end : Z) (tokenizer : Tokenizer)
  (orig_answer_text : pystr) : result (Z * Z) :=
  answer_tokens ← tokenize tokenizer orig_answer_text;
  let tok_answer_text := join space answer_tokens in
  found ←
    for_ctl (λ _ new_start,
      for_ctl (λ _ new_end,
        let text_span := join space (py_slice doc_tokens new_start (new_end + 1)) in
        if bool_decide (text_span = tok_answer_text)
        then Ok (Return (new_start, new_end))
        else Ok (Next tt))
        (range_down input_end (new_start - 1)) tt)
      (range input_start (input_end + 1)) tt;
  match found with
  | Return span => Ok span
  | Next _ => Ok (input_start, input_end)
  end.

(** ** Max-context resolution *)

(** Python's [int] to [float] conversion: correctly rounded, and an
    [OverflowError] beyond the binary64 range. *)
Definition float_of_int (z : Z) : result float :=
  let f := SF2Prim (binary_normalize prec emax z 0 false) in
  if is_infinity f then Raise OverflowError else Ok f.

(** [min(num_left_context, num_right_context) + 0.01 * length]. *)
Definition context_score (num_left_context num_right_context length : Z)
  : result float :=
  flength ← float_of_int length;
  fmin ← float_of_int (Z.min num_left_context num_right_context);
  Ok (fmin + 0x1.47ae147ae147bp-7 * flength)%float.

(** [best_score is None or score > best_score]. *)
Definition improves (best_score : option float) (score : float) : bool :=
  match best_score with
  | None => true
  | Some b => PrimFloat.ltb b score
  end.

Module DocSpan.
Record t : Type := mk { start : Z; length : Z }.
End DocSpan.

Definition _check_is_max_context (doc_spans : list DocSpan.t)
  (cur_span_index position : Z) : result bool :=
  '(best_score, best_span_index) ←
    for_loop (λ '(best_score, best_span_index) '(span_index, doc_span),
      let end_ := DocSpan.start doc_span + DocSpan.length doc_span - 1 in
      if position <? DocSpan.start doc_span then Ok (best_score, best_span_index)
      else if position >? end_ then Ok (best_score, best_span_index)
      else
        let num_left_context := position - DocSpan.start doc_span in
        let num_right_context := end_ - position in
        score ← context_score num_left_context num_right_context
                  (DocSpan.length doc_span);
        if improves best_score score then Ok (Some score, Some span_index)
        else Ok (best_score, best_span_index))
      (enumerate doc_spans) (None, None);
  Ok (bool_decide (Some cur_span_index = best_span_index)).

(** A window of the pipeline: the dictionary returned by [encode_plus]
    with the keys the pipeline adds to it. *)
Module Span.
Record t : Type := mk {
  input_ids : list Z;
  token_type_ids : list Z;
  attention_mask : list Z;
  overflowing_tokens : option token_seq;
  paragraph_len : Z;
  tokens : list pystr;
  token_to_orig_map : gmap Z Z;
  truncated_query_with_special_tokens_length : Z;
  token_is_max_context : gmap Z bool;
  start : Z;
  length : Z
}.
Definition set_token_is_max_context (s : t) (m : gmap Z bool) : t :=
  mk (input_ids s) (token_type_ids s) (attention_mask s) (overflowing_tokens s)
     (paragraph_len s) (tokens s) (token_to_orig_map s)
     (truncated_query_with_special_tokens_length s) m (start s) (length s).
End Span.

Definition _new_check_is_max_context (doc_spans : list Span.t)
  (cur_span_index position : Z) : result bool :=
  '(best_score, best_span_index) ←
    for_loop (λ '(best_score, best_span_index) '(span_index, doc_span),
      let end_ := Span.start doc_span + Span.length doc_span - 1 in
      if position <? Span.start doc_span then Ok (best_score, best_span_index)
      else if position >? end_ then Ok (best_score, best_span_index)
      else
        let num_left_context := position - Span.start doc_span in
        let num_right_context := end_ - position in
        score ← context_score num_left_context num_right_context
                  (Span.length doc_span);
        if improves best_score score then Ok (Some score, Some span_index)
        else Ok (best_score, best_span_index))
      (enumerate doc_spans) (None, None);
  Ok (bool_decide (Some cur_span_index = best_span_index)).

(** ** The feature record *)

Module SquadFeatures.
Record t : Type := mk {
  input_ids : list Z;
  attention_mask : list Z;
  token_type_ids : list Z;
  cls_index : Z;
  p_mask : list Z;
  example_index : Z;
  unique_id : Z;
  paragraph_len : Z;
  token_is_max_context : gmap Z bool;
  tokens : list pystr;
  token_to_orig_map : gmap Z Z;
  start_position : Z;
  end_position : Z
}.
End SquadFeatures.

(** ** Array operations of the probability mask

    [np.array] of a list of integers has dtype int64 when every entry
    fits, and arithmetic on it wraps around; otherwise the entries stay
    exact Python integers. *)
Definition fits_int64 (z : Z) : bool := (- 2 ^ 63 <=? z) && (z <? 2 ^ 63).
Definition int64_wrap (z : Z) : Z := (z + 2 ^ 63) `mod` 2 ^ 64 - 2 ^ 63.

(** [np.minimum(a, 1)]. *)
Definition np_minimum_1 (a : list Z) : list Z := (λ x, Z.min x 1) <$> a.

(** [1 - a]. *)
Definition np_one_minus (int64 : bool) (a : list Z) : list Z :=
  (λ x, if int64 then int64_wrap (1 - x) else 1 - x) <$> a.

(** [np.where(np.array(a) == v)[0]]. *)
Definition np_where_eq (a : list Z) (v : Z) : list Z :=
  omap (λ '(i, x), if x =? v then Some i else None) (enumerate a).

(** [a[idx] = v] for an array of indices [idx]. *)
Definition np_put (a : list Z) (idx : list Z) (v : Z) : result (list Z) :=
  for_loop (λ a i, py_setitem a i v) idx a.

(** ** The feature conversion pipeline *)

Section Pipeline.

(** [whitespace_tokenize] comes from the BERT tokenization module. *)
Variable whitespace_tokenize : pystr → list pystr.
Variable tokenizer : Tokenizer.
Variables max_seq_length doc_stride max_query_length : Z.
Variables is_training sequence_a_is_doc : bool.

Definition sequence_added_tokens : Z :=
  max_len tokenizer - max_len_single_sentence tokenizer.
Definition sequence_pair_added_tokens : Z :=
  max_len tokenizer - max_len_sentences_pair tokenizer.

(** The training filter: whether the recorded answer is missing from the
    reconstructed whitespace-token span. *)
Definition answer_not_found (example : SquadExample) : result bool :=
  let actual_text :=
    join space (py_slice (doc_tokens example) (start_position example)
                  (end_position example + 1)) in
  answer ← match answer_text example with
           | Some a => Ok a
           | None => Raise AttributeError
           end;
  let cleaned_answer_text := join space (whitespace_tokenize answer) in
  Ok (str_find actual_text cleaned_answer_text =? -1).

(** Sub-tokenization with the two alignment tables:
    [(tok_to_orig_index, orig_to_tok_index, all_doc_tokens)]. *)
Definition sub_tokenize (doc_tokens : list pystr)
  : result (list Z * list Z * list pystr) :=
  for_loop (λ '(tok_to_orig_index, orig_to_tok_index, all_doc_tokens) '(i, token),
    let orig_to_tok_index := orig_to_tok_index ++ [len all_doc_tokens] in
    sub_tokens ← tokenize tokenizer token;
    let '(tok_to_orig_index, all_doc_tokens) :=
      foldl (λ '(tok_to_orig_index, all_doc_tokens) sub_token,
               (tok_to_orig_index ++ [i], all_doc_tokens ++ [sub_token]))
        (tok_to_orig_index, all_doc_tokens) sub_tokens in
    Ok (tok_to_orig_index, orig_to_tok_index, all_doc_tokens))
    (enumerate doc_tokens) ([], [], []).

(** The answer span in sub-token positions, refined. *)
Definition answer_tok_span (example : SquadExample)
  (orig_to_tok_index : list Z) (all_doc_tokens : list pystr) : result (Z * Z) :=
  tok_start_position ← py_index orig_to_tok_index (start_position example);
  tok_end_position ←
    (if end_position example <? len (doc_tokens example) - 1 then
       next ← py_index orig_to_tok_index (end_position example + 1);
       Ok (next - 1)
     else Ok (len all_doc_tokens - 1));
  answer ← match answer_text example with
           | Some a => Ok a
           | None => Raise TypeError
           end;
  _improve_answer_span all_doc_tokens tok_start_position tok_end_position
    tokenizer answer.

(** [ids[:ids.index(pad)]] when the padding id occurs, else [ids]. *)
Definition non_padded (ids : list Z) : result (list Z) :=
  if bool_decide (pad_token_id tokenizer ∈ ids) then
    i ← list_index ids (pad_token_id tokenizer);
    Ok (py_slice ids 0 i)
  else Ok ids.

(** The sliding-window loop. *)
Fixpoint build_spans (fuel : nat) (all_doc_tokens : list pystr)
  (tok_to_orig_index : list Z) (truncated_query : list Z)
  (spans : list Span.t) (span_doc_tokens : token_seq) : result (list Span.t) :=
  if len spans * doc_stride <? len all_doc_tokens then
    match fuel with
    | O => OutOfFuel
    | S fuel' =>
        encoded_dict ←
          encode_plus tokenizer
            (if negb sequence_a_is_doc then Ids truncated_query else span_doc_tokens)
            (if negb sequence_a_is_doc then span_doc_tokens else Ids truncated_query)
            max_seq_length
            (max_seq_length - doc_stride - len truncated_query
             - sequence_pair_added_tokens)
            (if negb sequence_a_is_doc then OnlySecond else OnlyFirst);
        let paragraph_len :=
          Z.min (len all_doc_tokens - len spans * doc_stride)
                (max_seq_length - len truncated_query - sequence_pair_added_tokens) in
        non_padded_ids ← non_padded (Encoded.input_ids encoded_dict);
        tokens ← convert_ids_to_tokens tokenizer non_padded_ids;
        token_to_orig_map ←
          for_loop (λ (token_to_orig_map : gmap Z Z) i,
            let index := if negb sequence_a_is_doc
                         then len truncated_query + sequence_added_tokens + i
                         else i in
            orig ← py_index tok_to_orig_index (len spans * doc_stride + i);
            Ok (<[index := orig]> token_to_orig_map))
            (range 0 paragraph_len) ∅;
        let span :=
          {| Span.input_ids := Encoded.input_ids encoded_dict;
             Span.token_type_ids := Encoded.token_type_ids encoded_dict;
             Span.attention_mask := Encoded.attention_mask encoded_dict;
             Span.overflowing_tokens := Encoded.overflowing_tokens encoded_dict;
             Span.paragraph_len := paragraph_len;
             Span.tokens := tokens;
             Span.token_to_orig_map := token_to_orig_map;
             Span.truncated_query_with_special_tokens_length :=
               len truncated_query + sequence_added_tokens;
             Span.token_is_max_context := ∅;
             Span.start := len spans * doc_stride;
             Span.length := paragraph_len |} in
        let spans := spans ++ [span] in
        match Encoded.overflowing_tokens encoded_dict with
        | None => Ok spans
        | Some overflow => build_spans fuel' all_doc_tokens tok_to_orig_index
                             truncated_query spans overflow
        end
    end
  else Ok spans.

(** Max-context marking of every passage position of every window. *)
Definition mark_max_context (spans : list Span.t) : result (list Span.t) :=
  for_loop (λ spans doc_span_index,
    span ← py_index spans doc_span_index;
    for_loop (λ spans j,
      is_max_context ← _new_check_is_max_context spans doc_span_index
                         (doc_span_index * doc_stride + j);
      span ← py_index spans doc_span_index;
      let index :=
        if sequence_a_is_doc then j
        else Span.truncated_query_with_special_tokens_length span + j in
      py_setitem spans doc_span_index
        (Span.set_token_is_max_context span
           (<[index := is_max_context]> (Span.token_is_max_context span))))
      (range 0 (Span.paragraph_len span)) spans)
    (range 0 (len spans)) spans.

(** The probability mask of a window. *)
Definition make_p_mask (span : Span.t) (cls_index : Z) : result (list Z) :=
  let int64 := forallb fits_int64 (Span.token_type_ids span) in
  let p_mask := Span.token_type_ids span in
  let p_mask := np_minimum_1 p_mask in
  let p_mask := if negb sequence_a_is_doc then np_one_minus int64 p_mask
                else p_mask in
  p_mask ← np_put p_mask
             (np_where_eq (Span.input_ids span) (sep_token_id tokenizer)) 1;
  py_setitem p_mask cls_index 0.

(** The answer positions of a window:
    [(start_position, end_position, span_is_impossible)]. *)
Definition answer_positions (example : SquadExample) (tok_span : option (Z * Z))
  (truncated_query : list Z) (span : Span.t) (cls_index : Z)
  : result (Z * Z * bool) :=
  let span_is_impossible := is_impossible example in
  if is_training && negb span_is_impossible then
    '(tok_start_position, tok_end_position) ←
      match tok_span with
      | Some p => Ok p
      | None => Raise UnboundLocalError
      end;
    let doc_start := Span.start span in
    let doc_end := Span.start span + Span.length span - 1 in
    let out_of_span :=
      negb ((tok_start_position >=? doc_start) && (tok_end_position <=? doc_end)) in
    if out_of_span then Ok (cls_index, cls_index, true)
    else
      let doc_offset := if sequence_a_is_doc then 0
                        else len truncated_query + sequence_added_tokens in
      Ok (tok_start_position - doc_start + doc_offset,
          tok_end_position - doc_start + doc_offset,
          span_is_impossible)
  else Ok (0, 0, span_is_impossible).

Definition span_features (example_index : Z) (example : SquadExample)
  (tok_span : option (Z * Z)) (truncated_query : list Z)
  (unique_id : Z) (span : Span.t) : result SquadFeatures.t :=
  cls_index ← list_index (Span.input_ids span) (cls_token_id tokenizer);
  p_mask ← make_p_mask span cls_index;
  '(start_position, end_position, _) ←
    answer_positions example tok_span truncated_query span cls_index;
  Ok {| SquadFeatures.input_ids := Span.input_ids span;
        SquadFeatures.attention_mask := Span.attention_mask span;
        SquadFeatures.token_type_ids := Span.token_type_ids span;
        SquadFeatures.cls_index := cls_index;
        SquadFeatures.p_mask := p_mask;
        SquadFeatures.example_index := example_index;
        SquadFeatures.unique_id := unique_id;
        SquadFeatures.paragraph_len := Span.paragraph_len span;
        SquadFeatures.token_is_max_context := Span.token_is_max_context span;
        SquadFeatures.tokens := Span.tokens span;
        SquadFeatures.token_to_orig_map := Span.token_to_orig_map span;
        SquadFeatures.start_position := start_position;
        SquadFeatures.end_position := end_position |}.

(** The loop over the windows of one example, on the state
    [(unique_id, features)]. *)
Definition emit_features (example_index : Z) (example : SquadExample)
  (tok_span : option (Z * Z)) (truncated_query : list Z)
  (spans : list Span.t) (st : Z * list SquadFeatures.t)
  : result (Z * list SquadFeatures.t) :=
  for_loop (λ '(unique_id, features) span,
    feature ← span_features example_index example tok_span truncated_query
                unique_id span;
    Ok (unique_id + 1, features ++ [feature]))
    spans st.

(** The windows of an example, max-context marks included, with the
    refined answer span and the truncated query. *)
Definition example_spans (fuel : nat) (example : SquadExample)
  : result (option (Z * Z) * list Z * list Span.t) :=
  '(tok_to_orig_index, orig_to_tok_index, all_doc_tokens) ←
    sub_tokenize (doc_tokens example);
  tok_span ←
    (if is_training && negb (is_impossible example) then
       p ← answer_tok_span example orig_to_tok_index all_doc_tokens;
       Ok (Some p)
     else Ok None);
  truncated_query ← encode tokenizer (question_text example) max_query_length;
  spans ← build_spans fuel all_doc_tokens tok_to_orig_index truncated_query
            [] (Tokens all_doc_tokens);
  spans ← mark_max_context spans;
  Ok (tok_span, truncated_query, spans).

(** One iteration of the loop over the examples. *)
Definition convert_example (fuel : nat) (st : Z * list SquadFeatures.t)
  (item : Z * SquadExample) : result (Z * list SquadFeatures.t) :=
  let '(example_index, example) := item in
  skip ← (if is_training && negb (is_impossible example)
          then answer_not_found example
          else Ok false);
  match skip with
  | true => Ok st
  | false =>
      '(tok_span, truncated_query, spans) ← example_spans fuel example;
      emit_features example_index example tok_span truncated_query spans st
  end.

Definition squad_convert_examples_to_features (fuel : nat)
  (examples : list SquadExample) : result (list SquadFeatures.t) :=
  '(_, features) ←
    for_loop (convert_example fuel) (enumerate examples) (1000000000, []);
  Ok features.

End Pipeline.

(** ** The dataset reader *)

(** The corpus JSON, as the reader traverses it:
    [{"title", "paragraphs": [{"context", "qas": [{"id", "question",
    "is_impossible"?, "answers": [{"text", "answer_start"}]}]}]}]. *)
Module Json.
Record answer : Type := mk_answer { text : pystr; answer_start : Z }.
Record qa : Type := mk_qa {
  id : pystr;
  question : pystr;
  is_impossible : option bool;
  answers : list answer
}.
Record paragraph : Type := mk_paragraph { context : pystr; qas : list qa }.
Record entry : Type := mk_entry { title : pystr; paragraphs : list paragraph }.
End Json.

Definition one_answer_msg : string :=
  "For training, each question should have exactly 1 answer.".

(** The body of the innermost loop up to the construction of the
    example. *)
Definition qa_example (is_training : bool) (title context_text : pystr)
  (qa : Json.qa) : result SquadExample :=
  let qas_id := Json.id qa in
  let question_text := Json.question qa in
  let is_impossible :=
    match Json.is_impossible qa with
    | Some b => b
    | None => false
    end in
  '(answer_text, start_position_character) ←
    (if negb is_impossible && is_training then
       if negb (len (Json.answers qa) =? 1) then Raise (ValueError one_answer_msg)
       else
         answer ← py_index (Json.answers qa) 0;
         Ok (Some (Json.text answer), Some (Json.answer_start answer))
     else Ok (None, None));
  SquadExample_init qas_id question_text context_text answer_text
    start_position_character title is_impossible.

(** [only_first is not None and len(examples) > only_first]. *)
Definition over_limit (only_first : option Z) (examples : list SquadExample)
  : bool :=
  match only_first with
  | Some n => len examples >? n
  | None => false
  end.

Definition _create_examples (input_data : list Json.entry) (set_type : string)
  (only_first : option Z) : result (list SquadExample) :=
  let is_training := String.eqb set_type "train" in
  done ←
    for_ctl (λ examples entry,
      let title := Json.title entry in
      for_ctl (λ examples paragraph,
        let context_text := Json.context paragraph in
        for_ctl (λ examples qa,
          example ← qa_example is_training title context_text qa;
          let examples := examples ++ [example] in
          if over_limit only_first examples then Ok (Return examples)
          else Ok (Next examples))
          (Json.qas paragraph) examples)
        (Json.paragraphs entry) examples)
      input_data [];
  match done with
  | Return examples => Ok examples
  | Next examples => Ok examples
  end.

(** ** A small tokenizer

    A concrete instance of the tokenizer capability, used to run the
    pipeline on examples: tokens are the whitespace-separated words, the
    id of a word is 1000 plus the code point of its first character, and a
    pair is laid out as [bos A sep B sep], truncated on the chosen side
    and padded on the right. *)

Fixpoint split_words (s : pystr) (cur : pystr) : list pystr :=
  match s with
  | [] => match cur with [] => [] | _ :: _ => [cur] end
  | c :: s' =>
      if _is_whitespace c then
        match cur with
        | [] => split_words s' []
        | _ :: _ => cur :: split_words s' []
        end
      else split_words s' (cur ++ [c])
  end.

Definition split_whitespace (s : pystr) : list pystr := split_words s [].

Definition word_id (t : pystr) : Z :=
  match t with
  | [] => 1000
  | c :: _ => 1000 + Z.of_N c
  end.

Definition seq_ids (s : token_seq) : list Z :=
  match s with
  | Tokens toks => word_id <$> toks
  | Ids ids => ids
  end.

Definition zrep {A : Type} (n : Z) (x : A) : list A := replicate (Z.to_nat n) x.

Definition toy_encode_plus (bos sep pad : Z) (a b : token_seq)
  (max_length stride : Z) (strategy : truncation_strategy) : result Encoded.t :=
  let ia := seq_ids a in
  let ib := seq_ids b in
  let excess := len ia + len ib + 3 - max_length in
  let '(ia, ib, overflow) :=
    if excess <=? 0 then (ia, ib, None)
    else match strategy with
         | OnlySecond =>
             let keep := len ib - excess in
             (ia, take (Z.to_nat keep) ib,
              Some (Ids (drop (Z.to_nat (keep - stride)) ib)))
         | OnlyFirst =>
             let keep := len ia - excess in
             (take (Z.to_nat keep) ia, ib,
              Some (Ids (drop (Z.to_nat (keep - stride)) ia)))
         end in
  let ids := [bos] ++ ia ++ [sep] ++ ib ++ [sep] in
  let npad := max_length - len ids in
  Ok {| Encoded.input_ids := ids ++ zrep npad pad;
        Encoded.token_type_ids :=
          zrep (len ia + 2) 0 ++ zrep (len ib + 1) 1 ++ zrep npad 0;
        Encoded.attention_mask := zrep (len ids) 1 ++ zrep npad 0;
        Encoded.overflowing_tokens := overflow |}.

Definition toy_tokenizer (bos sep cls pad : Z) : Tokenizer :=
  {| tokenize := λ s, Ok (split_whitespace s);
     encode := λ s max_length,
       Ok (take (Z.to_nat max_length) (word_id <$> split_whitespace s));
     encode_plus := toy_encode_plus bos sep pad;
     convert_ids_to_tokens := λ ids, Ok ((λ i, [Z.to_N i]) <$> ids);
     pad_token_id := pad;
     sep_token_id := sep;
     cls_token_id := cls;
     max_len := 512;
     max_len_single_sentence := 510;
     max_len_sentences_pair := 509 |}.

(** A BERT-like layout ([CLS] A [SEP] B [SEP]) and an XLM-like one
    (<s> A </s> B </s>, where </s> is both the separator and the
    classification token). *)
Definition bert_like : Tokenizer := toy_tokenizer 101 102 101 0.
Definition xlm_like : Tokenizer := toy_tokenizer 0 1 1 2.

(** The questions of a corpus in reading order, each with the title of its
    entry and the context of its paragraph. *)
Definition paragraph_questions (title : pystr) (paragraph : Json.paragraph)
  : list (pystr * pystr * Json.qa) :=
  (λ qa, (title, Json.context paragraph, qa)) <$> Json.qas paragraph.

Definition entry_questions (entry : Json.entry)
  : list (pystr * pystr * Json.qa) :=
  Json.paragraphs entry ≫= paragraph_questions (Json.title entry).

Definition questions (input_data : list Json.entry)
  : list (pystr * pystr * Json.qa) :=
  input_data ≫= entry_questions.

(** The reader as the specification words its limit: the accumulated
    count is checked once a paragraph's questions are all read. *)
Definition create_examples_limit_per_paragraph (input_data : list Json.entry)
  (set_type : string) (only_first : option Z) : result (list SquadExample) :=
  let is_training := String.eqb set_type "train" in
  done ←
    for_ctl (λ examples entry,
      let title := Json.title entry in
      for_ctl (λ examples paragraph,
        let context_text := Json.context paragraph in
        examples ←
          for_loop (λ examples qa,
            example ← qa_example is_training title context_text qa;
            Ok (examples ++ [example]))
            (Json.qas paragraph) examples;
        if over_limit only_first examples then Ok (Return examples)
        else Ok (Next examples))
        (Json.paragraphs entry) examples)
      input_data [];
  match done with
  | Return examples => Ok examples
  | Next examples => Ok examples
  end.

(** ** Sample data *)

Definition demo_context : pystr := str "a b c d e f g h".

(** An answerable question whose recorded answer is in the passage. *)
Definition demo_example : SquadExample :=
  {| qas_id := str "q1"; question_text := str "q r";
     context_text := demo_context; answer_text := Some (str "d e");
     title := str "T"; is_impossible := false;
     start_position := 3; end_position := 4;
     doc_tokens := [str "a"; str "b"; str "c"; str "d"; str "e"; str "f";
                    str "g"; str "h"];
     char_to_word_offset := [0; 0; 1; 1; 2; 2; 3; 3; 4; 4; 5; 5; 6; 6; 7] |}.

(** The same question with an answer text that the passage does not
    contain at the recorded offset. *)
Definition demo_mismatch : SquadExample :=
  {| qas_id := str "q2"; question_text := str "q r";
     context_text := demo_context; answer_text := Some (str "x y");
     title := str "T"; is_impossible := false;
     start_position := 3; end_position := 4;
     doc_tokens := doc_tokens demo_example;
     char_to_word_offset := char_to_word_offset demo_example |}.

Definition demo_corpus : list Json.entry :=
  [ {| Json.title := str "T";
       Json.paragraphs :=
         [ {| Json.context := demo_context;
              Json.qas :=
                [ {| Json.id := str "q1"; Json.question := str "q r";
                     Json.is_impossible := None;
                     Json.answers := [ {| Json.text := str "d e";
                                          Json.answer_start := 6 |} ] |};
                  {| Json.id := str "q2"; Json.question := str "q r";
                     Json.is_impossible := Some false;
                     Json.answers := [ {| Json.text := str "d";
                                          Json.answer_start := 6 |};
                                       {| Json.text := str "d e";
                                          Json.answer_start := 6 |} ] |};
                  {| Json.id := str "q3"; Json.question := str "q r";
                     Json.is_impossible := Some true;
                     Json.answers := [] |} ] |} ] |} ].

(** Two windows over a five-token stretch, as window descriptors and as
    window dictionaries. *)
Definition demo_doc_spans : list DocSpan.t := [DocSpan.mk 0 5; DocSpan.mk 2 5].

Definition demo_window (start length : Z) : Span.t :=
  {| Span.input_ids := []; Span.token_type_ids := []; Span.attention_mask := [];
     Span.overflowing_tokens := None; Span.paragraph_len := length;
     Span.tokens := []; Span.token_to_orig_map := ∅;
     Span.truncated_query_with_special_tokens_length := 0;
     Span.token_is_max_context := ∅;
     Span.start := start; Span.length := length |}.

Definition demo_spans : list Span.t := [demo_window 0 5; demo_window 2 5].

(** The pipeline on the sample examples: windows of 10 ids, stride 2,
    queries of at most 5 tokens, training. *)
Abbreviation demo_run tokenizer examples :=
  (squad_convert_examples_to_features split_whitespace tokenizer 10 2 5 true
     false 20 examples).

Definition demo_examples : list SquadExample :=
  [demo_example; demo_mismatch; demo_example].

Definition demo_features : list SquadFeatures.t :=
  Eval vm_compute in
    match demo_run bert_like demo_examples with
    | Ok fs => fs
    | _ => []
    end.

Definition demo_features_xlm : list SquadFeatures.t :=
  Eval vm_compute in
    match demo_run xlm_like [demo_example] with
    | Ok fs => fs
    | _ => []
    end.

(** The first two examples of the sample corpus, read as a dev set. *)
Definition demo_limited : list SquadExample :=
  Eval vm_compute in
    match _create_examples demo_corpus "dev" (Some 1) with
    | Ok examples => examples
    | _ => []
    end.

(** * Properties *)

(** ** The result monad and the Python primitives *)

Lemma bind_Ok {A B : Type} (m : result A) (f : A → result B) (b : B) :
  m ≫= f = Ok b → ∃ a, m = Ok a ∧ f a = Ok b.
Proof. destruct m as [a| |]; simpl; [eauto | done | done]. Qed.

Ltac inv_bind :=
  repeat match goal with
         | H : _ ≫= _ = Ok _ |- _ =>
             let a := fresh "v" in
             let E := fresh "E" in
             apply bind_Ok in H as (a & E & H)
         | H : Ok _ = Ok _ |- _ => injection H as H
         end.

Definition valid_index (n i : Z) : Prop := - n ≤ i < n.

Lemma len_app {A : Type} (l1 l2 : list A) : len (l1 ++ l2) = len l1 + len l2.
Proof. unfold len. rewrite length_app. lia. Qed.

Lemma len_nonneg {A : Type} (l : list A) : 0 ≤ len l.
Proof. unfold len. lia. Qed.

Lemma py_index_valid {A : Type} (l : list A) (i : Z) :
  valid_index (len l) i → ∃ x, py_index l i = Ok x.
Proof.
  unfold valid_index, py_index. intros Hi.
  set (j := if i <? 0 then i + len l else i).
  assert (0 ≤ j < len l) as Hj by (unfold j; destruct (Z.ltb_spec i 0); lia).
  destruct (Z.leb_spec 0 j), (Z.ltb_spec j (len l)); try lia. simpl.
  destruct (lookup_lt_is_Some_2 l (Z.to_nat j)) as [x Hx]; [unfold len in *; lia|].
  rewrite Hx. eauto.
Qed.

Lemma py_index_invalid {A : Type} (l : list A) (i : Z) :
  ¬ valid_index (len l) i → py_index l i = Raise IndexError.
Proof.
  unfold valid_index, py_index. intros Hi.
  destruct (Z.ltb_spec i 0);
    destruct (Z.leb_spec 0 (i + len l)), (Z.ltb_spec (i + len l) (len l)),
             (Z.leb_spec 0 i), (Z.ltb_spec i (len l)); simpl; try done; lia.
Qed.

Lemma py_index_Ok {A : Type} (l : list A) (i : Z) (x : A) :
  py_index l i = Ok x →
  valid_index (len l) i ∧
  l !! Z.to_nat (if i <? 0 then i + len l else i) = Some x.
Proof.
  intros H. destruct (decide (valid_index (len l) i)) as [Hv|Hv].
  - split; [done|]. revert H. unfold py_index.
    destruct ((0 <=? _) && _); [|done].
    destruct (l !! _); [|done]. by intros [= ->].
  - by rewrite py_index_invalid in H.
Qed.

Lemma py_index_outcomes {A : Type} (l : list A) (i : Z) :
  (∃ x, py_index l i = Ok x) ∨ py_index l i = Raise IndexError.
Proof.
  destruct (decide (valid_index (len l) i)).
  - left. by apply py_index_valid.
  - right. by apply py_index_invalid.
Qed.

Lemma py_index_nat {A : Type} (l : list A) (k : nat) (x : A) :
  l !! k = Some x → py_index l (Z.of_nat k) = Ok x.
Proof.
  intros H. pose proof (lookup_lt_Some _ _ _ H) as Hk.
  unfold py_index, len. cbv zeta.
  rewrite (proj2 (Z.ltb_ge _ _)) by lia.
  rewrite (proj2 (Z.leb_le _ _)), (proj2 (Z.ltb_lt _ _)) by lia. simpl.
  by rewrite Nat2Z.id, H.
Qed.

Lemma py_index_last {A : Type} (l : list A) (x : A) :
  py_index (l ++ [x]) (-1) = Ok x.
Proof.
  unfold py_index. cbv zeta. rewrite len_app. pose proof (len_nonneg l).
  change (len [x]) with 1. change (-1 <? 0) with true. cbv iota.
  rewrite (proj2 (Z.leb_le _ _)), (proj2 (Z.ltb_lt _ _)) by lia. simpl.
  replace (Z.to_nat (-1 + (len l + 1))) with (length l) by (unfold len; lia).
  by rewrite list_lookup_middle.
Qed.

Lemma py_setitem_last {A : Type} (l : list A) (x y : A) :
  py_setitem (l ++ [x]) (-1) y = Ok (l ++ [y]).
Proof.
  unfold py_setitem. cbv zeta. rewrite len_app. pose proof (len_nonneg l).
  change (len [x]) with 1. change (-1 <? 0) with true. cbv iota.
  rewrite (proj2 (Z.leb_le _ _)), (proj2 (Z.ltb_lt _ _)) by lia. simpl.
  replace (Z.to_nat (-1 + (len l + 1))) with (length l + 0)%nat by (unfold len; lia).
  by rewrite insert_app_r.
Qed.

(** ** The splitting loop of [SquadExample.__init__] *)

(** What holds of the loop state once the characters [pre] are read. *)
Definition split_inv (pre : list N) (st : split_state) : Prop :=
  let '(doc_tokens, char_to_word_offset, prev_is_whitespace) := st in
  length char_to_word_offset = length pre ∧
  (prev_is_whitespace = false → doc_tokens ≠ []) ∧
  ∀ (i : nat) (c : N), pre !! i = Some c → _is_whitespace c = false →
    ∃ (w : nat) (tok : list N),
      char_to_word_offset !! i = Some (Z.of_nat w) ∧
      doc_tokens !! w = Some tok ∧ c ∈ tok.

Lemma split_inv_init : split_inv [] ([], [], true).
Proof. repeat split; [done|]. intros i c Hi. by rewrite lookup_nil in Hi. Qed.

Lemma split_step_inv (pre : list N) (st : split_state) (c : N) :
  split_inv pre st →
  ∃ st', split_step st c = Ok st' ∧ split_inv (pre ++ [c]) st'.
Proof.
  destruct st as [[dt cwo] prev]. intros (Hlen & Hne & Hmap).
  unfold split_step. destruct (_is_whitespace c) eqn:Hws; simpl.
  - eexists; split; [done|]. repeat split.
    + rewrite !length_app. simpl. lia.
    + done.
    + intros i d Hi Hd. apply lookup_app_Some in Hi as [Hi|[Hge Hi]].
      * destruct (Hmap i d Hi Hd) as (w & tok & Hw & Ht & Hin).
        exists w, tok. by rewrite lookup_app_l by (by eapply lookup_lt_Some).
      * apply list_lookup_singleton_Some in Hi as [_ <-]. congruence.
  - destruct prev; simpl.
    + eexists; split; [done|]. repeat split.
      * rewrite !length_app. simpl. lia.
      * intros _. by destruct dt.
      * intros i d Hi Hd. apply lookup_app_Some in Hi as [Hi|[Hge Hi]].
        -- destruct (Hmap i d Hi Hd) as (w & tok & Hw & Ht & Hin).
           exists w, tok. rewrite !lookup_app_l; eauto using lookup_lt_Some.
        -- apply list_lookup_singleton_Some in Hi as [Hi <-].
           exists (length dt), [c]. split_and!.
           ++ assert (i = length cwo) as -> by lia.
              rewrite list_lookup_middle by done. f_equal.
              rewrite len_app. unfold len. simpl. lia.
           ++ by rewrite list_lookup_middle.
           ++ set_solver.
    + destruct (exists_last (Hne eq_refl)) as (dt0 & tok0 & ->).
      rewrite py_index_last. simpl. rewrite py_setitem_last. simpl.
      eexists; split; [done|]. repeat split.
      * rewrite !length_app. simpl. lia.
      * intros _. by destruct dt0.
      * intros i d Hi Hd. apply lookup_app_Some in Hi as [Hi|[Hge Hi]].
        -- destruct (Hmap i d Hi Hd) as (w & tok & Hw & Ht & Hin).
           apply lookup_app_Some in Ht as [Ht|[Hge Ht]].
           ++ exists w, tok. rewrite !lookup_app_l; eauto using lookup_lt_Some.
           ++ apply list_lookup_singleton_Some in Ht as [Hw0 <-].
              exists w, (tok0 ++ [c]). split_and!.
              ** rewrite lookup_app_l; eauto using lookup_lt_Some.
              ** assert (w = length dt0) as -> by lia.
                 by rewrite list_lookup_middle.
              ** set_solver.
        -- apply list_lookup_singleton_Some in Hi as [Hi <-].
           exists (length dt0), (tok0 ++ [c]). split_and!.
           ++ assert (i = length cwo) as -> by lia.
              rewrite list_lookup_middle by done. f_equal.
              rewrite len_app. unfold len. simpl. lia.
           ++ by rewrite list_lookup_middle.
           ++ set_solver.
Qed.

Lemma split_loop_inv (rest pre : list N) (st : split_state) :
  split_inv pre st →
  ∃ st', for_loop split_step rest st = Ok st' ∧ split_inv (pre ++ rest) st'.
Proof.
  revert pre st. induction rest as [|c rest IH]; intros pre st Hinv; simpl.
  - exists st. by rewrite app_nil_r.
  - destruct (split_step_inv pre st c Hinv) as (st1 & -> & Hinv1). simpl.
    destruct (IH _ _ Hinv1) as (st' & -> & Hinv').
    exists st'. by rewrite <- app_assoc in Hinv'.
Qed.

(** The splitting loop never raises. *)
Lemma split_loop_total (context_text : list N) :
  ∃ st, for_loop split_step context_text ([], [], true) = Ok st ∧
        split_inv context_text st.
Proof. apply (split_loop_inv context_text [] _ split_inv_init). Qed.

(** The splitting loop as [SquadExample_init] uses it. *)
Lemma init_unfold qas_id question_text context_text answer_text
  start_position_character title is_impossible :
  ∃ dt cwo prev,
    split_inv context_text (dt, cwo, prev) ∧
    SquadExample_init qas_id question_text context_text answer_text
      start_position_character title is_impossible =
    ('(start_position, end_position) ←
       match start_position_character with
       | Some spc =>
           if negb is_impossible then
             start_position ← py_index cwo spc;
             answer_len ← match answer_text with
                          | Some a => Ok (len a)
                          | None => Raise TypeError
                          end;
             end_position ← py_index cwo (spc + answer_len - 1);
             Ok (start_position, end_position)
           else Ok (0, 0)
       | None => Ok (0, 0)
       end;
     Ok (mkSquadExample qas_id question_text context_text answer_text title
           is_impossible start_position end_position dt cwo)).
Proof.
  destruct (split_loop_total context_text) as ([[dt cwo] prev] & Hloop & Hinv).
  exists dt, cwo, prev. split; [done|].
  unfold SquadExample_init. by rewrite Hloop.
Qed.

(** C4. For every context string, a constructed [SquadExample] has one
    [char_to_word_offset] entry per character of the context, and for
    every position [i] holding a non-separator character,
    [doc_tokens[char_to_word_offset[i]]] is a token that contains that
    character. *)
Theorem C4_char_to_word_offset_maps_into_tokens
  (qas_id question_text context_text : list N) (answer_text : option (list N))
  (start_position_character : option Z) (title : list N) (is_impossible : bool)
  (ex : SquadExample) :
  SquadExample_init qas_id question_text context_text answer_text
    start_position_character title is_impossible = Ok ex →
  len (char_to_word_offset ex) = len context_text ∧
  ∀ (i : nat) (c : N),
    context_text !! i = Some c → _is_whitespace c = false →
    ∃ (w : Z) (tok : list N),
      py_index (char_to_word_offset ex) (Z.of_nat i) = Ok w ∧ 0 ≤ w ∧
      py_index (doc_tokens ex) w = Ok tok ∧ c ∈ tok.
Proof.
  intros Hinit.
  destruct (init_unfold qas_id question_text context_text answer_text
              start_position_character title is_impossible)
    as (dt & cwo & prev & (Hlen & _ & Hmap) & Heq).
  rewrite Heq in Hinit. apply bind_Ok in Hinit as ([s e] & _ & [= <-]). simpl.
  split; [unfold len; by rewrite Hlen|].
  intros i c Hi Hc. destruct (Hmap i c Hi Hc) as (w & tok & Hw & Ht & Hin).
  exists (Z.of_nat w), tok. split_and!; [by apply py_index_nat|lia|by apply py_index_nat|done].
Qed.

Lemma C4_witness :
  let ex := mkSquadExample (str "q") (str "Q") (str "ab  c") None (str "t") false
              0 0 [str "ab"; str "c"] [0; 0; 0; 0; 1] in
  len (char_to_word_offset ex) = len (str "ab  c") ∧
  ∀ (i : nat) (c : N),
    str "ab  c" !! i = Some c → _is_whitespace c = false →
    ∃ (w : Z) (tok : list N),
      py_index (char_to_word_offset ex) (Z.of_nat i) = Ok w ∧ 0 ≤ w ∧
      py_index (doc_tokens ex) w = Ok tok ∧ c ∈ tok.
Proof.
  exact (C4_char_to_word_offset_maps_into_tokens (str "q") (str "Q") (str "ab  c")
           None None (str "t") false _ eq_refl).
Defined.

(** The constructor returns, or raises an [IndexError] or a [TypeError]. *)
Lemma SquadExample_init_outcomes qas_id question_text context_text answer_text
  start_position_character title is_impossible :
  let r := SquadExample_init qas_id question_text context_text answer_text
             start_position_character title is_impossible in
  (∃ ex, r = Ok ex) ∨ r = Raise IndexError ∨ r = Raise TypeError.
Proof.
  destruct (init_unfold qas_id question_text context_text answer_text
              start_position_character title is_impossible)
    as (dt & cwo & prev & _ & Heq).
  cbv zeta. rewrite Heq. clear Heq.
  destruct start_position_character as [spc|]; simpl; [|eauto].
  destruct is_impossible; simpl; [eauto|].
  destruct (py_index_outcomes cwo spc) as [(s & ->) | ->]; simpl; [|eauto].
  destruct answer_text as [a|]; simpl; [|eauto].
  destruct (py_index_outcomes cwo (spc + len a - 1)) as [(e & ->) | ->]; simpl; eauto.
Qed.

(** When a start offset is given for an answerable example, the two
    lookups of [SquadExample.__init__] are in range. *)
Definition answer_indices_valid (context_text : list N)
  (answer_text : option (list N)) (spc : Z) : Prop :=
  ∃ a, answer_text = Some a ∧
       valid_index (len context_text) spc ∧
       valid_index (len context_text) (spc + len a - 1).

(** C5, as amended. Construction completes, leaving both word positions
    at 0, whenever the start offset is absent or the example is flagged
    impossible. With a start offset on an answerable example it completes
    exactly when the answer text is present and both [start] and
    [start + len(answer) - 1] index the context ([-n <= i < n]);
    otherwise it raises an [IndexError] or a [TypeError]. *)
Theorem C5_init_completes_iff_answer_indices_valid
  (qas_id question_text context_text : list N) (answer_text : option (list N))
  (start_position_character : option Z) (title : list N) (is_impossible : bool) :
  let r := SquadExample_init qas_id question_text context_text answer_text
             start_position_character title is_impossible in
  (start_position_character = None ∨ is_impossible = true →
     ∃ ex, r = Ok ex ∧ start_position ex = 0 ∧ end_position ex = 0) ∧
  (∀ spc, start_position_character = Some spc → is_impossible = false →
     ((∃ ex, r = Ok ex) ↔ answer_indices_valid context_text answer_text spc)) ∧
  ((∃ ex, r = Ok ex) ∨ r = Raise IndexError ∨ r = Raise TypeError).
Proof.
  destruct (init_unfold qas_id question_text context_text answer_text
              start_position_character title is_impossible)
    as (dt & cwo & prev & (Hlen & _ & _) & Heq).
  assert (len cwo = len context_text) as Hl by (unfold len; by rewrite Hlen).
  cbv zeta. split_and!; [rewrite Heq; clear Heq|rewrite Heq; clear Heq|].
  - intros [-> | ->]; [|destruct start_position_character]; simpl; eauto.
  - intros spc -> ->. simpl. unfold answer_indices_valid. rewrite <- Hl. split.
    + intros (ex & Hex). inv_bind. destruct v as [s e]. inv_bind.
      destruct answer_text as [a|]; [|done]. injection E1 as <-.
      apply py_index_Ok in E0 as [? _]. apply py_index_Ok in E2 as [? _]. eauto.
    + intros (a & -> & Hs & He).
      destruct (py_index_valid cwo spc Hs) as (s & ->).
      destruct (py_index_valid cwo _ He) as (e & Hi). simpl. rewrite Hi. simpl. eauto.
  - apply SquadExample_init_outcomes.
Qed.

(** C5, as stated, fails: an answer that runs past the end of the context
    makes the constructor raise. *)
Lemma C5_counterexample :
  SquadExample_init (str "q1") (str "Who?") (str "Bob ran") (Some (str "ran away"))
    (Some 4) (str "t") false = Raise IndexError.
Proof. reflexivity. Qed.

(** ** Answer span refinement *)

(** A loop on no state whose body either returns or goes on: it returns
    at the first element whose body returns. *)
Lemma for_ctl_scan {A R : Type} (body : A → result (ctl unit R)) (l : list A) :
  (∀ x, x ∈ l → (∃ r, body x = Ok (Return r)) ∨ body x = Ok (Next tt)) →
  (∃ (k : nat) (x : A) (r : R),
      l !! k = Some x ∧ body x = Ok (Return r) ∧
      (∀ (k' : nat) (y : A), (k' < k)%nat → l !! k' = Some y → body y = Ok (Next tt)) ∧
      for_ctl (λ _, body) l tt = Ok (Return r))
  ∨ ((∀ y, y ∈ l → body y = Ok (Next tt)) ∧
     for_ctl (λ _, body) l tt = Ok (Next tt)).
Proof.
  induction l as [|x l IH]; intros Hbody.
  - right. split; [|done]. intros y Hy. by apply elem_of_nil in Hy.
  - destruct (Hbody x) as [[r Hr]|Hx]; [set_solver| |].
    + left. exists 0%nat, x, r. split_and!; [done|done|lia|]. simpl. by rewrite Hr.
    + destruct IH as [(k & y & r & Hk & Hy & Hbefore & Hloop)|[Hall Hloop]].
      * intros z Hz. apply Hbody. set_solver.
      * left. exists (S k), y, r. split_and!; [done|done| |].
        -- intros [|k'] z Hlt Hz; simpl in Hz; [by injection Hz as <-|].
           eapply Hbefore; [|done]. lia.
        -- simpl. rewrite Hx. simpl. done.
      * right. split.
        -- intros z Hz. apply elem_of_cons in Hz as [->|Hz]; auto.
        -- simpl. rewrite Hx. simpl. done.
Qed.

Lemma lookup_range (a b : Z) (k : nat) (x : Z) :
  range a b !! k = Some x ↔ x = a + Z.of_nat k ∧ a + Z.of_nat k < b.
Proof. unfold range. rewrite lookup_seqZ. lia. Qed.

Lemma elem_of_range (a b x : Z) : x ∈ range a b ↔ a ≤ x < b.
Proof. unfold range. rewrite elem_of_seqZ. lia. Qed.

Lemma lookup_range_down (a b : Z) (k : nat) (x : Z) :
  range_down a b !! k = Some x ↔ x = a - Z.of_nat k ∧ b < a - Z.of_nat k.
Proof.
  unfold range_down. rewrite list_lookup_fmap, fmap_Some. split.
  - intros (y & Hy & ->). apply lookup_seqZ in Hy. lia.
  - intros [-> ?]. exists (Z.of_nat k). split; [|done]. apply lookup_seqZ. lia.
Qed.

Lemma elem_of_range_down (a b x : Z) : x ∈ range_down a b ↔ b < x ≤ a.
Proof.
  unfold range_down. rewrite list_elem_of_fmap. split.
  - intros (y & -> & Hy). apply elem_of_seqZ in Hy. lia.
  - intros ?. exists (a - x). split; [lia|]. apply elem_of_seqZ. lia.
Qed.

(** The text of the sub-range [(s, e)] equals the tokenized answer. *)
Definition span_matches (doc_tokens toks : list (list N)) (s e : Z) : Prop :=
  join space (py_slice doc_tokens s (e + 1)) = join space toks.

(** [(s, e)] is a sub-range of the initial window. *)
Definition sub_range (input_start input_end s e : Z) : Prop :=
  input_start ≤ s ∧ s ≤ e ∧ e ≤ input_end.

(** [(s', e')] is enumerated before [(s, e)]: starts ascend and, for one
    start, ends descend. *)
Definition scanned_before (s' e' s e : Z) : Prop :=
  s' < s ∨ (s' = s ∧ e < e').

(** C9. [_improve_answer_span] returns the first sub-range of the initial
    window, in the order of ascending start and descending end, whose
    space-joined text equals the space-joined tokenization of the answer;
    when no sub-range matches it returns the initial bounds. *)
Theorem C9_improve_answer_span_first_match
  (doc_tokens : list (list N)) (input_start input_end : Z) (tokenizer : Tokenizer)
  (orig_answer_text : list N) (toks : list (list N)) :
  tokenize tokenizer orig_answer_text = Ok toks →
  ∃ s e,
    _improve_answer_span doc_tokens input_start input_end tokenizer
      orig_answer_text = Ok (s, e) ∧
    ((sub_range input_start input_end s e ∧ span_matches doc_tokens toks s e ∧
      ∀ s' e', sub_range input_start input_end s' e' →
               scanned_before s' e' s e → ¬ span_matches doc_tokens toks s' e')
     ∨ ((s, e) = (input_start, input_end) ∧
        ∀ s' e', sub_range input_start input_end s' e' →
                 ¬ span_matches doc_tokens toks s' e')).
Proof.
  intros Htok. unfold _improve_answer_span. rewrite Htok. simpl.
  set (inner_body := λ (new_start new_end : Z),
         if bool_decide (join space (py_slice doc_tokens new_start (new_end + 1))
                         = join space toks)
         then Ok (Return (new_start, new_end))
         else Ok (Next tt) : result (ctl unit (Z * Z))).
  set (inner := λ new_start,
         for_ctl (λ _, inner_body new_start)
           (range_down input_end (new_start - 1)) tt).
  change (for_ctl _ (range input_start (input_end + 1)) tt)
    with (for_ctl (λ _, inner) (range input_start (input_end + 1)) tt).
  assert (∀ s,
    (∃ e, s ≤ e ≤ input_end ∧ span_matches doc_tokens toks s e ∧
          (∀ e', e < e' ≤ input_end → ¬ span_matches doc_tokens toks s e') ∧
          inner s = Ok (Return (s, e)))
    ∨ ((∀ e', s ≤ e' ≤ input_end → ¬ span_matches doc_tokens toks s e') ∧
       inner s = Ok (Next tt))) as Hinner.
  { intros s.
    destruct (for_ctl_scan (inner_body s) (range_down input_end (s - 1)))
      as [(k & e & r & Hk & He & Hbefore & Hloop)|[Hall Hloop]].
    - intros e _. unfold inner_body. case_bool_decide; eauto.
    - left. exists e. apply lookup_range_down in Hk as [-> Hk].
      unfold inner_body in He. case_bool_decide as Hm; [|done]. injection He as <-.
      split_and!; [lia|lia|done| |done].
      intros e' He' Hm'.
      specialize (Hbefore (Z.to_nat (input_end - e')) e').
      unfold inner_body in Hbefore. rewrite bool_decide_eq_true_2 in Hbefore by done.
      discriminate Hbefore; [lia|]. apply lookup_range_down. lia.
    - right. split; [|done]. intros e' He' Hm'.
      specialize (Hall e'). unfold inner_body in Hall.
      rewrite bool_decide_eq_true_2 in Hall by done.
      discriminate Hall. apply elem_of_range_down. lia. }
  destruct (for_ctl_scan inner (range input_start (input_end + 1)))
    as [(k & s & r & Hk & Hs & Hbefore & Hloop)|[Hall Hloop]].
  - intros s _. destruct (Hinner s) as [(e & _ & _ & _ & ->)|[_ ->]]; eauto.
  - rewrite Hloop. simpl. apply lookup_range in Hk as [-> Hk].
    destruct (Hinner (input_start + Z.of_nat k))
      as [(e & He & Hm & Hlater & Heq)|[_ Heq]]; rewrite Heq in Hs; [|done].
    injection Hs as <-. eexists _, _. split; [done|]. left.
    split_and!; [unfold sub_range; lia|done|].
    intros s' e' (Hs1 & Hs2 & Hs3) [Hlt|[-> Hlt]] Hm'.
    + specialize (Hbefore (Z.to_nat (s' - input_start)) s').
      destruct (Hinner s') as [(e2 & _ & _ & _ & Heq2)|[Hnone _]].
      * rewrite Heq2 in Hbefore. discriminate Hbefore; [lia|].
        apply lookup_range. lia.
      * by apply (Hnone e').
    + apply (Hlater e'); [lia|done].
  - rewrite Hloop. simpl. eexists _, _. split; [done|]. right. split; [done|].
    intros s' e' (Hs1 & Hs2 & Hs3) Hm'.
    destruct (Hinner s') as [(e2 & _ & _ & _ & Heq2)|[Hnone _]].
    + rewrite Hall in Heq2; [done|]. apply elem_of_range. lia.
    + by apply (Hnone e').
Qed.

Lemma C9_witness :
  ∃ s e,
    _improve_answer_span [str "a"; str "b"; str "c"; str "b"] 0 3 bert_like
      (str " b ") = Ok (s, e) ∧
    ((sub_range 0 3 s e ∧
      span_matches [str "a"; str "b"; str "c"; str "b"] [str "b"] s e ∧
      ∀ s' e', sub_range 0 3 s' e' → scanned_before s' e' s e →
               ¬ span_matches [str "a"; str "b"; str "c"; str "b"] [str "b"] s' e')
     ∨ ((s, e) = (0, 3) ∧
        ∀ s' e', sub_range 0 3 s' e' →
                 ¬ span_matches [str "a"; str "b"; str "c"; str "b"] [str "b"] s' e')).
Proof.
  exact (C9_improve_answer_span_first_match [str "a"; str "b"; str "c"; str "b"]
           0 3 bert_like (str " b ") [str "b"] eq_refl).
Defined.

Example improve_answer_span_run :
  _improve_answer_span [str "a"; str "b"; str "c"; str "b"] 0 3 bert_like (str " b ")
  = Ok (1, 1).
Proof. reflexivity. Qed.

(** ** Max-context resolution *)

Lemma for_loop_ext {A S : Type} (b1 b2 : S → A → result S) (l : list A) (s : S) :
  (∀ s x, b1 s x = b2 s x) → for_loop b1 l s = for_loop b2 l s.
Proof.
  intros Hb. revert s. induction l as [|x l IH]; intros s; simpl; [done|].
  rewrite Hb. destruct (b2 s x); simpl; auto.
Qed.

Lemma for_loop_fmap {A B S : Type} (g : A → B) (body : S → B → result S)
  (l : list A) (s : S) :
  for_loop body (g <$> l) s = for_loop (λ s x, body s (g x)) l s.
Proof.
  revert s. induction l as [|x l IH]; intros s; simpl; [done|].
  destruct (body s (g x)); simpl; auto.
Qed.

Lemma enumerate_fmap {A B : Type} (g : A → B) (l : list A) :
  enumerate (g <$> l) = (λ '(i, x), (i, g x)) <$> enumerate l.
Proof. unfold enumerate. by rewrite imap_fmap, fmap_imap. Qed.

(** The window descriptor a window dictionary stands for. *)
Definition doc_span_of (s : Span.t) : DocSpan.t :=
  DocSpan.mk (Span.start s) (Span.length s).

Lemma check_is_max_context_doc_span_of (spans : list Span.t)
  (cur_span_index position : Z) :
  _check_is_max_context (doc_span_of <$> spans) cur_span_index position =
  _new_check_is_max_context spans cur_span_index position.
Proof.
  unfold _check_is_max_context, _new_check_is_max_context.
  rewrite enumerate_fmap, for_loop_fmap. f_equal.
  apply for_loop_ext. intros [best_score best_span_index] [span_index doc_span].
  reflexivity.
Qed.

(** C10. On spans with the same [start] and [length] values, read as
    attributes by the one and as dictionary fields by the other,
    [_check_is_max_context] and [_new_check_is_max_context] give the same
    result for every span index and position. *)
Theorem C10_check_is_max_context_equivalent
  (doc_spans : list DocSpan.t) (spans : list Span.t)
  (cur_span_index position : Z) :
  Forall2 (λ d s, DocSpan.start d = Span.start s ∧
                  DocSpan.length d = Span.length s) doc_spans spans →
  _check_is_max_context doc_spans cur_span_index position =
  _new_check_is_max_context spans cur_span_index position.
Proof.
  intros Hrel. rewrite <- check_is_max_context_doc_span_of. f_equal.
  induction Hrel as [|[ds dl] s doc_spans spans [Hs Hl] _ IH]; [done|].
  simpl in *. unfold doc_span_of at 1. by rewrite <- Hs, <- Hl, IH.
Qed.

Lemma C10_witness :
  _check_is_max_context demo_doc_spans 1 4 =
  _new_check_is_max_context demo_spans 1 4.
Proof.
  apply (C10_check_is_max_context_equivalent demo_doc_spans demo_spans 1 4).
  repeat constructor.
Defined.

(** Position 4 has no right context in the first window and two tokens on
    each side in the second, which is its max-context window. *)
Example check_is_max_context_run :
  _check_is_max_context demo_doc_spans 1 4 = Ok true ∧
  _check_is_max_context demo_doc_spans 0 4 = Ok false ∧
  _new_check_is_max_context demo_spans 1 4 = Ok true.
Proof. by vm_compute. Qed.

(** ** Loops *)

Lemma for_loop_cons {A S : Type} (body : S → A → result S) (x : A) (l : list A)
  (s : S) :
  for_loop body (x :: l) s = body s x ≫= for_loop body l.
Proof. reflexivity. Qed.

Lemma for_loop_app {A S : Type} (body : S → A → result S) (l1 l2 : list A) (s : S) :
  for_loop body (l1 ++ l2) s = for_loop body l1 s ≫= for_loop body l2.
Proof.
  revert s. induction l1 as [|x l1 IH]; intros s; simpl; [done|].
  destruct (body s x); simpl; auto.
Qed.

Lemma enumerate_app {A : Type} (l1 l2 : list A) :
  enumerate (l1 ++ l2) =
  enumerate l1 ++ ((λ '(i, x), (len l1 + i, x)) <$> enumerate l2).
Proof.
  unfold enumerate. rewrite imap_app, fmap_imap. f_equal.
  apply imap_ext. intros i x _. simpl. f_equal. unfold len. lia.
Qed.

Lemma elem_of_enumerate {A : Type} (l : list A) (i : Z) (x : A) :
  (i, x) ∈ enumerate l ↔ 0 ≤ i ∧ l !! Z.to_nat i = Some x.
Proof.
  unfold enumerate. rewrite elem_of_lookup_imap. split.
  - intros (k & y & [= -> ->] & Hk). rewrite Nat2Z.id. split; [lia|done].
  - intros [Hi Hx]. exists (Z.to_nat i), x. split; [|done]. f_equal. lia.
Qed.

(** ** Lists as arrays *)

Lemma py_setitem_Ok {A : Type} (l l' : list A) (i : Z) (x : A) :
  py_setitem l i x = Ok l' →
  valid_index (len l) i ∧
  l' = <[Z.to_nat (if i <? 0 then i + len l else i) := x]> l.
Proof.
  unfold py_setitem, valid_index. cbv zeta.
  set (j := if i <? 0 then i + len l else i).
  assert (j = i + len l ∧ i < 0 ∨ j = i ∧ 0 ≤ i) as Hj
    by (unfold j; destruct (Z.ltb_spec i 0); lia).
  destruct (Z.leb_spec 0 j), (Z.ltb_spec j (len l)); simpl; try done.
  intros [= <-]. split; [lia|done].
Qed.

Lemma index_from_Ok (l : list Z) (x k i : Z) :
  index_from l x k = Ok i →
  k ≤ i ∧ l !! Z.to_nat (i - k) = Some x.
Proof.
  revert k. induction l as [|y l IH]; intros k; simpl; [done|].
  destruct (Z.eqb_spec y x) as [->|Hne].
  - intros [= <-]. rewrite Z.sub_diag. split; [lia|done].
  - intros H. apply IH in H as [Hk Hl]. split; [lia|].
    replace (Z.to_nat (i - k)) with (S (Z.to_nat (i - (k + 1)))) by lia. done.
Qed.

Lemma list_index_Ok (l : list Z) (x i : Z) :
  list_index l x = Ok i → 0 ≤ i ∧ l !! Z.to_nat i = Some x.
Proof.
  intros H. apply index_from_Ok in H as [? H]. by rewrite Z.sub_0_r in H.
Qed.

Lemma elem_of_np_where_eq (a : list Z) (v j : Z) :
  j ∈ np_where_eq a v ↔ 0 ≤ j ∧ a !! Z.to_nat j = Some v.
Proof.
  unfold np_where_eq. rewrite list_elem_of_omap. split.
  - intros ([i x] & Hin & Hx). apply elem_of_enumerate in Hin as [Hi Hl].
    destruct (Z.eqb_spec x v) as [->|]; [|done]. by injection Hx as <-.
  - intros [Hj Hl]. exists (j, v). split; [by apply elem_of_enumerate|].
    by rewrite Z.eqb_refl.
Qed.

Lemma np_put_keeps (idx : list Z) (a a' : list Z) (v : Z) (i : nat) :
  np_put a idx v = Ok a' → a !! i = Some v → a' !! i = Some v.
Proof.
  unfold np_put. revert a. induction idx as [|j idx IH]; intros a; simpl.
  - by intros [= <-].
  - intros H Hi. apply bind_Ok in H as (a1 & Hset & H).
    apply (IH a1); [done|]. apply py_setitem_Ok in Hset as [_ ->].
    set (n := Z.to_nat _). destruct (decide (n = i)) as [->|Hne].
    + rewrite list_lookup_insert_eq; [done|]. by eapply lookup_lt_Some.
    + by rewrite list_lookup_insert_ne.
Qed.

Lemma np_put_sets (idx : list Z) (a a' : list Z) (v j : Z) :
  np_put a idx v = Ok a' → j ∈ idx → 0 ≤ j → a' !! Z.to_nat j = Some v.
Proof.
  unfold np_put. revert a. induction idx as [|j0 idx IH]; intros a; simpl.
  - intros _ Hj. by apply elem_of_nil in Hj.
  - intros H Hj Hpos. apply bind_Ok in H as (a1 & Hset & H).
    apply elem_of_cons in Hj as [->|Hj]; [|by apply (IH a1)].
    apply (np_put_keeps idx a1); [done|].
    apply py_setitem_Ok in Hset as [[_ Hlt] ->].
    rewrite (proj2 (Z.ltb_ge _ _)) by lia.
    rewrite list_lookup_insert_eq; [done|]. unfold len in Hlt. lia.
Qed.

Lemma np_put_length (idx : list Z) (a a' : list Z) (v : Z) :
  np_put a idx v = Ok a' → length a' = length a.
Proof.
  unfold np_put. revert a. induction idx as [|j idx IH]; intros a; simpl.
  - by intros [= <-].
  - intros H. apply bind_Ok in H as (a1 & Hset & H).
    rewrite (IH a1 H). apply py_setitem_Ok in Hset as [_ ->].
    by rewrite length_insert.
Qed.

(** ** Substring search *)

(** [sub] occurs in [s]. *)
Definition contains (s sub : list N) : Prop := ∃ l1 l2, s = l1 ++ sub ++ l2.

Lemma is_prefix_spec (p s : list N) :
  is_prefix p s = true ↔ ∃ l2, s = p ++ l2.
Proof.
  revert s. induction p as [|a p IH]; intros s; simpl.
  - split; [eauto|done].
  - destruct s as [|b s].
    + split; [done|]. by intros (l2 & ?).
    + rewrite andb_true_iff, N.eqb_eq, IH. split.
      * intros (-> & l2 & ->). eauto.
      * intros (l2 & [= -> ->]). eauto.
Qed.

Lemma find_from_spec (s sub : list N) (i : Z) :
  0 ≤ i → (find_from s sub i = -1 ↔ ¬ contains s sub).
Proof.
  revert i. induction s as [|c s IH]; intros i Hi; simpl.
  - destruct (is_prefix sub []) eqn:Hp.
    + split; [lia|]. intros Hn. exfalso. apply Hn.
      apply is_prefix_spec in Hp as (l2 & ->). by exists [], l2.
    + split; [|done]. intros _ (l1 & l2 & Heq).
      symmetry in Heq. apply app_eq_nil in Heq as [-> Heq].
      by destruct sub.
  - destruct (is_prefix sub (c :: s)) eqn:Hp.
    + split; [lia|]. intros Hn. exfalso. apply Hn.
      apply is_prefix_spec in Hp as (l2 & ->). by exists [], l2.
    + rewrite IH by lia. split; intros Hn (l1 & l2 & Heq); apply Hn.
      * destruct l1 as [|d l1]; simpl in Heq.
        -- assert (is_prefix sub (c :: s) = true) as Ht
             by (apply is_prefix_spec; eauto).
           congruence.
        -- injection Heq as -> ->. by exists l1, l2.
      * exists (c :: l1), l2. by rewrite Heq.
Qed.

(** [s.find(sub) == -1] exactly when [sub] does not occur in [s]. *)
Lemma str_find_not_found (s sub : list N) :
  str_find s sub = -1 ↔ ¬ contains s sub.
Proof. by apply find_from_spec. Qed.

(** ** The feature conversion pipeline *)

Section PipelineProperties.

Variable whitespace_tokenize : list N → list (list N).
Variable tokenizer : Tokenizer.
Variables max_seq_length doc_stride max_query_length : Z.
Variables is_training sequence_a_is_doc : bool.

Local Abbreviation sequence_added_tokens := (sequence_added_tokens tokenizer).
Local Abbreviation answer_not_found := (answer_not_found whitespace_tokenize).
Local Abbreviation make_p_mask := (make_p_mask tokenizer sequence_a_is_doc).
Local Abbreviation answer_positions :=
  (answer_positions tokenizer is_training sequence_a_is_doc).
Local Abbreviation span_features :=
  (span_features tokenizer is_training sequence_a_is_doc).
Local Abbreviation emit_features :=
  (emit_features tokenizer is_training sequence_a_is_doc).
Local Abbreviation example_spans :=
  (example_spans tokenizer max_seq_length doc_stride max_query_length
     is_training sequence_a_is_doc).
Local Abbreviation convert_example :=
  (convert_example whitespace_tokenize tokenizer max_seq_length doc_stride
     max_query_length is_training sequence_a_is_doc).
Local Abbreviation squad_convert_examples_to_features :=
  (squad_convert_examples_to_features whitespace_tokenize tokenizer
     max_seq_length doc_stride max_query_length is_training sequence_a_is_doc).

(** The training filter of an example: [Ok true] when it is skipped. *)
Definition training_filter (example : SquadExample) : result bool :=
  if is_training && negb (is_impossible example)
  then answer_not_found example
  else Ok false.

(** *** One window *)

Lemma make_p_mask_spec (span : Span.t) (cls_index : Z) (p_mask : list Z) :
  0 ≤ cls_index →
  make_p_mask span cls_index = Ok p_mask →
  py_index p_mask cls_index = Ok 0 ∧
  length p_mask = length (Span.token_type_ids span) ∧
  ∀ i : nat, Span.input_ids span !! i = Some (sep_token_id tokenizer) →
             Z.of_nat i ≠ cls_index → p_mask !! i = Some 1.
Proof.
  intros Hcls. unfold make_p_mask. cbv zeta.
  set (m0 := if negb sequence_a_is_doc then _ else _).
  assert (length m0 = length (Span.token_type_ids span)) as Hm0.
  { unfold m0, np_one_minus, np_minimum_1.
    destruct sequence_a_is_doc; simpl; by rewrite ?length_fmap. }
  intros H. apply bind_Ok in H as (m1 & Hput & Hset).
  pose proof (np_put_length _ _ _ _ Hput) as Hlen1.
  apply py_setitem_Ok in Hset as [[_ Hlt] ->].
  rewrite (proj2 (Z.ltb_ge _ _)) by lia. unfold len in Hlt. split_and!.
  - pose proof (py_index_nat (<[Z.to_nat cls_index := 0]> m1)
                  (Z.to_nat cls_index) 0) as Hp.
    rewrite Z2Nat.id in Hp by done. apply Hp.
    apply list_lookup_insert_eq. lia.
  - rewrite length_insert. congruence.
  - intros i Hi Hne. rewrite list_lookup_insert_ne by lia.
    rewrite <- (Nat2Z.id i).
    apply (np_put_sets _ _ _ _ _ Hput); [|lia].
    apply elem_of_np_where_eq. split; [lia|by rewrite Nat2Z.id].
Qed.

Lemma span_features_fields (example_index : Z) (example : SquadExample)
  (tok_span : option (Z * Z)) (truncated_query : list Z) (unique_id : Z)
  (span : Span.t) (f : SquadFeatures.t) :
  span_features example_index example tok_span truncated_query unique_id span
    = Ok f →
  SquadFeatures.unique_id f = unique_id ∧
  SquadFeatures.example_index f = example_index ∧
  SquadFeatures.input_ids f = Span.input_ids span ∧
  list_index (Span.input_ids span) (cls_token_id tokenizer)
    = Ok (SquadFeatures.cls_index f) ∧
  make_p_mask span (SquadFeatures.cls_index f) = Ok (SquadFeatures.p_mask f) ∧
  ∃ span_is_impossible,
    answer_positions example tok_span truncated_query span
      (SquadFeatures.cls_index f)
    = Ok (SquadFeatures.start_position f, SquadFeatures.end_position f,
          span_is_impossible).
Proof.
  unfold span_features. intros H.
  apply bind_Ok in H as (cls & Hcls & H).
  apply bind_Ok in H as (pm & Hpm & H).
  apply bind_Ok in H as ([[s e] imp] & Hpos & [= <-]). simpl.
  split_and!; try done. by exists imp.
Qed.

(** *** The windows of one example *)

(** [new] holds the feature records of the windows of [example], in
    window order, numbered from [base]. *)
Definition window_features (fuel : nat) (example_index : Z)
  (example : SquadExample) (base : Z) (new : list SquadFeatures.t) : Prop :=
  ∃ tok_span truncated_query spans,
    example_spans fuel example = Ok (tok_span, truncated_query, spans) ∧
    length new = length spans ∧
    ∀ (k : nat) (span : Span.t), spans !! k = Some span →
      ∃ f, new !! k = Some f ∧
           span_features example_index example tok_span truncated_query
             (base + Z.of_nat k) span = Ok f.

Lemma emit_features_spec (example_index : Z) (example : SquadExample)
  (tok_span : option (Z * Z)) (truncated_query : list Z) (spans : list Span.t)
  (uid uid' : Z) (fs fs' : list SquadFeatures.t) :
  emit_features example_index example tok_span truncated_query spans (uid, fs)
    = Ok (uid', fs') →
  ∃ new, fs' = fs ++ new ∧ uid' = uid + len new ∧
         length new = length spans ∧
         ∀ (k : nat) (span : Span.t), spans !! k = Some span →
           ∃ f, new !! k = Some f ∧
                span_features example_index example tok_span truncated_query
                  (uid + Z.of_nat k) span = Ok f.
Proof.
  unfold emit_features. revert uid fs.
  induction spans as [|span spans IH]; intros uid fs; simpl.
  - intros [= <- <-]. exists []. rewrite app_nil_r. split_and!; try done.
    unfold len; simpl; lia.
  - intros H. apply bind_Ok in H as ([uid1 fs1] & Hstep & H).
    apply bind_Ok in Hstep as (f & Hf & [= <- <-]).
    apply IH in H as (new & -> & -> & Hlen & Hnew).
    exists (f :: new). split_and!.
    + by rewrite <- app_assoc.
    + unfold len. simpl. lia.
    + simpl. by rewrite Hlen.
    + intros [|k] sp Hk; simpl in *.
      * injection Hk as <-. exists f. by rewrite Z.add_0_r.
      * destruct (Hnew k sp Hk) as (f' & Hf' & Hsp). exists f'. split; [done|].
        rewrite <- Hsp. f_equal. lia.
Qed.

Lemma convert_example_spec (fuel : nat) (example_index : Z)
  (example : SquadExample) (uid uid' : Z) (fs fs' : list SquadFeatures.t) :
  convert_example fuel (uid, fs) (example_index, example) = Ok (uid', fs') →
  (training_filter example = Ok true ∧ uid' = uid ∧ fs' = fs)
  ∨ (training_filter example = Ok false ∧
     ∃ new, fs' = fs ++ new ∧ uid' = uid + len new ∧
            window_features fuel example_index example uid new).
Proof.
  unfold convert_example. fold (training_filter example). intros H.
  apply bind_Ok in H as ([|] & Hskip & H).
  - injection H as <- <-. by left.
  - right. split; [done|].
    apply bind_Ok in H as ([[tok_span tq] spans] & Hspans & H).
    apply emit_features_spec in H as (new & -> & -> & Hlen & Hnew).
    exists new. split_and!; try done. by exists tok_span, tq, spans.
Qed.

(** *** The loop over the examples *)

(** The output of the loop over [items], numbered from [base]: skipped
    examples contribute nothing, every other example contributes the
    records of its windows, with consecutive ids. *)
Inductive emitted (fuel : nat)
  : list (Z * SquadExample) → Z → list SquadFeatures.t → Prop :=
  | emitted_nil base : emitted fuel [] base []
  | emitted_skip i ex items base new :
      training_filter ex = Ok true →
      emitted fuel items base new →
      emitted fuel ((i, ex) :: items) base new
  | emitted_windows i ex items base chunk new :
      training_filter ex = Ok false →
      window_features fuel i ex base chunk →
      emitted fuel items (base + len chunk) new →
      emitted fuel ((i, ex) :: items) base (chunk ++ new).

Lemma convert_loop_spec (fuel : nat) (items : list (Z * SquadExample))
  (uid uid' : Z) (fs fs' : list SquadFeatures.t) :
  for_loop (convert_example fuel) items (uid, fs) = Ok (uid', fs') →
  ∃ new, fs' = fs ++ new ∧ uid' = uid + len new ∧ emitted fuel items uid new.
Proof.
  revert uid fs. induction items as [|[i ex] items IH]; intros uid fs; simpl.
  - intros [= <- <-]. exists []. rewrite app_nil_r. split_and!; [done| |constructor].
    unfold len; simpl; lia.
  - intros H. apply bind_Ok in H as ([uid1 fs1] & Hstep & H).
    apply convert_example_spec in Hstep
      as [(Hskip & -> & ->)|(Hkeep & chunk & -> & -> & Hchunk)];
      apply IH in H as (new & -> & -> & Hnew).
    + exists new. split_and!; try done. by constructor.
    + exists (chunk ++ new). split_and!.
      * by rewrite app_assoc.
      * rewrite len_app. lia.
      * by constructor.
Qed.

Lemma squad_convert_spec (fuel : nat) (examples : list SquadExample)
  (fs : list SquadFeatures.t) :
  squad_convert_examples_to_features fuel examples = Ok fs →
  emitted fuel (enumerate examples) 1000000000 fs.
Proof.
  unfold squad_convert_examples_to_features. intros H.
  apply bind_Ok in H as ([uid fs'] & Hloop & [= <-]).
  by apply convert_loop_spec in Hloop as (new & -> & _ & Hnew).
Qed.

Lemma emitted_unique_id (fuel : nat) (items : list (Z * SquadExample))
  (base : Z) (new : list SquadFeatures.t) :
  emitted fuel items base new →
  ∀ (k : nat) (f : SquadFeatures.t),
    new !! k = Some f → SquadFeatures.unique_id f = base + Z.of_nat k.
Proof.
  induction 1 as [|i ex items base new _ _ IH
                  |i ex items base chunk new _ Hchunk _ IH]; intros k f Hk.
  - by rewrite lookup_nil in Hk.
  - by apply IH.
  - apply lookup_app_Some in Hk as [Hk|[Hge Hk]].
    + destruct Hchunk as (tok_span & tq & spans & _ & Hlen & Hnew).
      destruct (lookup_lt_is_Some_2 spans k) as [span Hspan].
      { rewrite <- Hlen. by eapply lookup_lt_Some. }
      destruct (Hnew k span Hspan) as (f' & Hf' & Hsp).
      assert (f' = f) as -> by congruence.
      by apply span_features_fields in Hsp as (-> & _).
    + rewrite (IH _ _ Hk). unfold len. lia.
Qed.

(** Every emitted record is the record of a window of an example that was
    not skipped. *)
Lemma emitted_origin (fuel : nat) (items : list (Z * SquadExample))
  (base : Z) (new : list SquadFeatures.t) (f : SquadFeatures.t) :
  emitted fuel items base new → f ∈ new →
  ∃ i ex tok_span truncated_query spans span uid,
    (i, ex) ∈ items ∧ training_filter ex = Ok false ∧
    example_spans fuel ex = Ok (tok_span, truncated_query, spans) ∧
    span ∈ spans ∧
    span_features i ex tok_span truncated_query uid span = Ok f.
Proof.
  induction 1 as [|i ex items base new _ _ IH
                  |i ex items base chunk new Hkeep Hchunk _ IH]; intros Hf.
  - by apply elem_of_nil in Hf.
  - destruct (IH Hf) as (i' & ex' & ts & tq & spans & span & uid & Hin & Hrest).
    exists i', ex', ts, tq, spans, span, uid.
    split; [by apply elem_of_cons; right|done].
  - apply elem_of_app in Hf as [Hf|Hf].
    + destruct Hchunk as (ts & tq & spans & Hspans & Hlen & Hnew).
      apply list_elem_of_lookup in Hf as [k Hk].
      destruct (lookup_lt_is_Some_2 spans k) as [span Hspan].
      { rewrite <- Hlen. by eapply lookup_lt_Some. }
      destruct (Hnew k span Hspan) as (f' & Hf' & Hsp).
      assert (f' = f) as -> by congruence.
      exists i, ex, ts, tq, spans, span, (base + Z.of_nat k).
      split_and!; try done; [by apply elem_of_cons; left|].
      by eapply list_elem_of_lookup_2.
    + destruct (IH Hf) as (i' & ex' & ts & tq & spans & span & uid & Hin & Hrest).
      exists i', ex', ts, tq, spans, span, uid.
      split; [by apply elem_of_cons; right|done].
Qed.

(** Every window of an example that was not skipped has its record in the
    output. *)
Lemma emitted_covers (fuel : nat) (items : list (Z * SquadExample))
  (base : Z) (new : list SquadFeatures.t) (i : Z) (ex : SquadExample) :
  emitted fuel items base new → (i, ex) ∈ items →
  training_filter ex = Ok true
  ∨ ∃ tok_span truncated_query spans,
      example_spans fuel ex = Ok (tok_span, truncated_query, spans) ∧
      ∀ span, span ∈ spans →
        ∃ f uid, f ∈ new ∧
                 span_features i ex tok_span truncated_query uid span = Ok f.
Proof.
  induction 1 as [|i0 ex0 items base new Hskip _ IH
                  |i0 ex0 items base chunk new Hkeep Hchunk _ IH]; intros Hin.
  - by apply elem_of_nil in Hin.
  - apply elem_of_cons in Hin as [[= -> ->]|Hin]; [by left|by apply IH].
  - apply elem_of_cons in Hin as [[= -> ->]|Hin].
    + right. destruct Hchunk as (ts & tq & spans & Hspans & Hlen & Hnew).
      exists ts, tq, spans. split; [done|]. intros span Hspan.
      apply list_elem_of_lookup in Hspan as [k Hk].
      destruct (Hnew k span Hk) as (f & Hf & Hsp).
      exists f, (base + Z.of_nat k). split; [|done].
      apply elem_of_app. left. by eapply list_elem_of_lookup_2.
    + destruct (IH Hin) as [Hs|(ts & tq & spans & Hspans & Hall)]; [by left|].
      right. exists ts, tq, spans. split; [done|]. intros span Hspan.
      destruct (Hall span Hspan) as (f & uid & Hf & Hsp).
      exists f, uid. split; [by apply elem_of_app; right|done].
Qed.

(** *** Fuel of the sliding-window loop *)

(** With a positive stride the loop makes at most one iteration per
    sub-token of the passage: fuel beyond that does not change its
    result. *)
Lemma build_spans_enough_fuel (fuel fuel' : nat) (all_doc_tokens : list (list N))
  (tok_to_orig_index truncated_query : list Z) (spans : list Span.t)
  (span_doc_tokens : token_seq) :
  0 < doc_stride →
  len all_doc_tokens ≤ Z.of_nat fuel + len spans →
  (fuel ≤ fuel')%nat →
  build_spans tokenizer max_seq_length doc_stride sequence_a_is_doc fuel'
    all_doc_tokens tok_to_orig_index truncated_query spans span_doc_tokens =
  build_spans tokenizer max_seq_length doc_stride sequence_a_is_doc fuel
    all_doc_tokens tok_to_orig_index truncated_query spans span_doc_tokens.
Proof.
  intros Hstride. revert fuel' spans span_doc_tokens.
  induction fuel as [|fuel IH]; intros fuel' spans sdt Hlen Hle.
  - pose proof (len_nonneg spans).
    assert ((len spans * doc_stride <? len all_doc_tokens) = false) as Hcond
      by (apply Z.ltb_ge; nia).
    destruct fuel'; simpl; by rewrite Hcond.
  - destruct fuel' as [|fuel']; [lia|]. simpl.
    destruct (len spans * doc_stride <? len all_doc_tokens); [|done].
    destruct (encode_plus tokenizer _ _ _ _ _) as [enc| |]; simpl; [|done..].
    destruct (non_padded tokenizer _) as [ids| |]; simpl; [|done..].
    destruct (convert_ids_to_tokens tokenizer ids) as [toks| |]; simpl; [|done..].
    destruct (for_loop _ (range 0 _) ∅) as [m| |]; simpl; [|done..].
    destruct (Encoded.overflowing_tokens enc) as [overflow|]; [|done].
    apply IH; [|lia]. rewrite len_app. change (len [_]) with 1. lia.
Qed.

(** *** Probability mask *)

(** C1, as amended. In every produced record the probability mask is 0 at
    [cls_index] and 1 at every other position whose input id is the
    separator id; when the classification and separator ids differ, it
    is 1 at every position whose input id is the separator id. *)
Theorem C1_p_mask_cls_zero_sep_one (fuel : nat) (examples : list SquadExample)
  (fs : list SquadFeatures.t) (f : SquadFeatures.t) :
  squad_convert_examples_to_features fuel examples = Ok fs →
  f ∈ fs →
  py_index (SquadFeatures.p_mask f) (SquadFeatures.cls_index f) = Ok 0 ∧
  (∀ i : nat,
     SquadFeatures.input_ids f !! i = Some (sep_token_id tokenizer) →
     Z.of_nat i ≠ SquadFeatures.cls_index f →
     SquadFeatures.p_mask f !! i = Some 1) ∧
  (cls_token_id tokenizer ≠ sep_token_id tokenizer →
   ∀ i : nat,
     SquadFeatures.input_ids f !! i = Some (sep_token_id tokenizer) →
     SquadFeatures.p_mask f !! i = Some 1).
Proof.
  intros Hrun Hf. apply squad_convert_spec in Hrun.
  destruct (emitted_origin _ _ _ _ _ Hrun Hf)
    as (i & ex & ts & tq & spans & span & uid & _ & _ & _ & _ & Hsp).
  apply span_features_fields in Hsp as (_ & _ & Hids & Hcls & Hmask & _).
  apply list_index_Ok in Hcls as [Hpos Hat].
  destruct (make_p_mask_spec _ _ _ Hpos Hmask) as (Hzero & _ & Hone).
  rewrite Hids. split_and!; [done|done|].
  intros Hne k Hk. apply Hone; [done|]. intros Heq.
  rewrite <- Heq, Nat2Z.id in Hat. congruence.
Qed.

(** *** Answer positions of a window *)

(** The passage range of the window contains the span [(ts, te)]. *)
Definition window_contains (span : Span.t) (ts te : Z) : Prop :=
  Span.start span ≤ ts ∧ te ≤ Span.start span + Span.length span - 1.

(** The offset of the passage inside a window. *)
Definition doc_offset (truncated_query : list Z) : Z :=
  if sequence_a_is_doc then 0
  else len truncated_query + sequence_added_tokens.

(** What C2 says of the record [f] of the window [span]. *)
Definition window_answer (example : SquadExample) (ts te : Z)
  (truncated_query : list Z) (span : Span.t) (f : SquadFeatures.t) : Prop :=
  (¬ window_contains span ts te →
     SquadFeatures.start_position f = SquadFeatures.cls_index f ∧
     SquadFeatures.end_position f = SquadFeatures.cls_index f ∧
     answer_positions example (Some (ts, te)) truncated_query span
       (SquadFeatures.cls_index f)
     = Ok (SquadFeatures.cls_index f, SquadFeatures.cls_index f, true)) ∧
  (window_contains span ts te →
     SquadFeatures.start_position f
       = ts - Span.start span + doc_offset truncated_query ∧
     SquadFeatures.end_position f
       = te - Span.start span + doc_offset truncated_query).

Lemma answer_positions_training (example : SquadExample) (ts te : Z)
  (truncated_query : list Z) (span : Span.t) (cls_index : Z) :
  is_training = true → is_impossible example = false →
  answer_positions example (Some (ts, te)) truncated_query span cls_index =
  if decide (window_contains span ts te)
  then Ok (ts - Span.start span + doc_offset truncated_query,
           te - Span.start span + doc_offset truncated_query, false)
  else Ok (cls_index, cls_index, true).
Proof.
  intros Htrain Himp. unfold answer_positions, window_contains, doc_offset.
  rewrite Htrain, Himp. simpl.
  destruct (Z.geb_spec ts (Span.start span)),
           (Z.leb_spec te (Span.start span + Span.length span - 1));
    case_decide; simpl; (done || lia).
Qed.

Lemma span_features_window_answer (i : Z) (example : SquadExample) (ts te : Z)
  (truncated_query : list Z) (uid : Z) (span : Span.t) (f : SquadFeatures.t) :
  is_training = true → is_impossible example = false →
  span_features i example (Some (ts, te)) truncated_query uid span = Ok f →
  window_answer example ts te truncated_query span f.
Proof.
  intros Htrain Himp Hsp.
  apply span_features_fields in Hsp as (_ & _ & _ & _ & _ & imp & Hpos).
  pose proof (answer_positions_training example ts te truncated_query span
                (SquadFeatures.cls_index f) Htrain Himp) as Heq.
  unfold window_answer. split; intros Hc.
  - rewrite decide_False in Heq by done. rewrite Heq in Hpos.
    injection Hpos as <- <- _. by rewrite Heq.
  - rewrite decide_True in Heq by done. rewrite Heq in Hpos.
    by injection Hpos as <- <- _.
Qed.

Lemma example_spans_tok_span (fuel : nat) (example : SquadExample)
  (tok_span : option (Z * Z)) (truncated_query : list Z) (spans : list Span.t) :
  is_training = true → is_impossible example = false →
  example_spans fuel example = Ok (tok_span, truncated_query, spans) →
  ∃ ts te, tok_span = Some (ts, te).
Proof.
  intros Htrain Himp. unfold example_spans. rewrite Htrain, Himp. simpl.
  intros H. apply bind_Ok in H as ([[t2o o2t] all] & _ & H).
  apply bind_Ok in H as (p & Hp & H).
  apply bind_Ok in Hp as ([ts te] & _ & [= <-]).
  apply bind_Ok in H as (tq & _ & H).
  apply bind_Ok in H as (sp0 & _ & H).
  apply bind_Ok in H as (sp1 & _ & [= <- _ _]). eauto.
Qed.

(** C2. In training, for an answerable example that is not skipped,
    every window has its record in the output, and that record has
    [start_position = end_position = cls_index] (the window being treated
    as impossible) when the window's passage range does not contain the
    refined answer span, and the span translated into window coordinates
    when it does. *)
Theorem C2_window_answer_positions (fuel : nat) (examples : list SquadExample)
  (fs : list SquadFeatures.t) (i : nat) (example : SquadExample) :
  is_training = true →
  squad_convert_examples_to_features fuel examples = Ok fs →
  examples !! i = Some example →
  is_impossible example = false →
  training_filter example = Ok true
  ∨ ∃ ts te truncated_query spans,
      example_spans fuel example = Ok (Some (ts, te), truncated_query, spans) ∧
      ∀ span, span ∈ spans →
        ∃ f uid,
          f ∈ fs ∧
          span_features (Z.of_nat i) example (Some (ts, te)) truncated_query
            uid span = Ok f ∧
          window_answer example ts te truncated_query span f.
Proof.
  intros Htrain Hrun Hex Himp. apply squad_convert_spec in Hrun.
  destruct (emitted_covers _ _ _ _ (Z.of_nat i) example Hrun)
    as [Hskip|(tok_span & tq & spans & Hspans & Hall)].
  { apply elem_of_enumerate. rewrite Nat2Z.id. split; [lia|done]. }
  - by left.
  - right.
    destruct (example_spans_tok_span _ _ _ _ _ Htrain Himp Hspans) as (ts & te & ->).
    exists ts, te, tq, spans. split; [done|]. intros span Hspan.
    destruct (Hall span Hspan) as (f & uid & Hf & Hsp).
    exists f, uid. split_and!; [done|done|].
    by eapply span_features_window_answer.
Qed.

(** *** Unique ids *)

(** C3. The [unique_id]s of the returned records are, in output order,
    1000000000, 1000000001, ..., 1000000000 + K - 1, whatever examples
    the records belong to. *)
Theorem C3_unique_ids_consecutive (fuel : nat) (examples : list SquadExample)
  (fs : list SquadFeatures.t) :
  squad_convert_examples_to_features fuel examples = Ok fs →
  SquadFeatures.unique_id <$> fs = range 1000000000 (1000000000 + len fs).
Proof.
  intros Hrun. apply squad_convert_spec in Hrun.
  pose proof (emitted_unique_id _ _ _ _ Hrun) as Hid.
  apply list_eq. intros k. rewrite list_lookup_fmap.
  destruct (fs !! k) as [f|] eqn:Hk; simpl.
  - rewrite (Hid k f Hk). symmetry. apply lookup_range.
    apply lookup_lt_Some in Hk. unfold len. lia.
  - symmetry. apply lookup_ge_None. apply lookup_ge_None in Hk.
    unfold range. rewrite length_seqZ. unfold len. lia.
Qed.

(** *** The training filter *)

Lemma training_filter_mismatch (example : SquadExample) (answer : list N) :
  is_training = true → is_impossible example = false →
  answer_text example = Some answer →
  ¬ contains
      (join space (py_slice (doc_tokens example) (start_position example)
                     (end_position example + 1)))
      (join space (whitespace_tokenize answer)) →
  training_filter example = Ok true.
Proof.
  intros Htrain Himp Hans Hnot. unfold training_filter, answer_not_found.
  rewrite Htrain, Himp, Hans. simpl.
  apply str_find_not_found in Hnot. by rewrite Hnot.
Qed.

Lemma enumerate_cons {A : Type} (x : A) (l : list A) :
  enumerate (x :: l) = (0, x) :: ((λ '(i, y), (1 + i, y)) <$> enumerate l).
Proof. apply (enumerate_app [x] l). Qed.

(** C8. In training, an answerable example whose reconstructed
    whitespace-token span does not contain the whitespace-normalized
    answer text leaves the loop state as it found it, the loop goes on
    with the examples after it, and no returned record belongs to it. *)
Theorem C8_answer_mismatch_skips_example (fuel : nat)
  (pre post : list SquadExample) (example : SquadExample) (answer : list N) :
  is_training = true → is_impossible example = false →
  answer_text example = Some answer →
  ¬ contains
      (join space (py_slice (doc_tokens example) (start_position example)
                     (end_position example + 1)))
      (join space (whitespace_tokenize answer)) →
  (∀ st i, convert_example fuel st (i, example) = Ok st) ∧
  (∀ st,
     for_loop (convert_example fuel) (enumerate (pre ++ example :: post)) st =
     for_loop (convert_example fuel) (enumerate pre) st ≫=
     for_loop (convert_example fuel)
       ((λ '(i, x), (len pre + 1 + i, x)) <$> enumerate post)) ∧
  (∀ fs f,
     squad_convert_examples_to_features fuel (pre ++ example :: post) = Ok fs →
     f ∈ fs → SquadFeatures.example_index f ≠ len pre).
Proof.
  intros Htrain Himp Hans Hnot.
  pose proof (training_filter_mismatch _ _ Htrain Himp Hans Hnot) as Hskip.
  assert (∀ st i, convert_example fuel st (i, example) = Ok st) as Hstep.
  { intros st i. unfold convert_example. fold (training_filter example).
    by rewrite Hskip. }
  split_and!; [done| |].
  - intros st. rewrite enumerate_app, enumerate_cons, fmap_cons, for_loop_app.
    destruct (for_loop _ (enumerate pre) st) as [st1| |]; [|done..].
    change (for_loop (convert_example fuel)
              ((len pre + 0, example)
               :: ((λ '(i, x), (len pre + i, x)) <$>
                   ((λ '(i, y), (1 + i, y)) <$> enumerate post))) st1
            = for_loop (convert_example fuel)
                ((λ '(i, x), (len pre + 1 + i, x)) <$> enumerate post) st1).
    rewrite for_loop_cons, Hstep.
    change (for_loop (convert_example fuel)
              ((λ '(i, x), (len pre + i, x)) <$>
               ((λ '(i, y), (1 + i, y)) <$> enumerate post)) st1
            = for_loop (convert_example fuel)
                ((λ '(i, x), (len pre + 1 + i, x)) <$> enumerate post) st1).
    rewrite <- list_fmap_compose. f_equal. apply list_fmap_ext.
    intros k [j x] _. simpl. f_equal. lia.
  - intros fs f Hrun Hf. apply squad_convert_spec in Hrun.
    destruct (emitted_origin _ _ _ _ _ Hrun Hf)
      as (i & ex & ts & tq & spans & span & uid & Hin & Hkeep & _ & _ & Hsp).
    apply span_features_fields in Hsp as (_ & -> & _).
    intros ->. apply elem_of_enumerate in Hin as [_ Hin].
    unfold len in Hin. rewrite Nat2Z.id, list_lookup_middle in Hin by done.
    injection Hin as <-. congruence.
Qed.

End PipelineProperties.

(** *** The pipeline on the sample data *)

Lemma demo_run_bert : demo_run bert_like demo_examples = Ok demo_features.
Proof. vm_compute. reflexivity. Qed.

Lemma demo_run_xlm : demo_run xlm_like [demo_example] = Ok demo_features_xlm.
Proof. vm_compute. reflexivity. Qed.

Lemma C1_witness :
  Forall (λ f,
    py_index (SquadFeatures.p_mask f) (SquadFeatures.cls_index f) = Ok 0 ∧
    (∀ i : nat,
       SquadFeatures.input_ids f !! i = Some (sep_token_id bert_like) →
       Z.of_nat i ≠ SquadFeatures.cls_index f →
       SquadFeatures.p_mask f !! i = Some 1) ∧
    (cls_token_id bert_like ≠ sep_token_id bert_like →
     ∀ i : nat,
       SquadFeatures.input_ids f !! i = Some (sep_token_id bert_like) →
       SquadFeatures.p_mask f !! i = Some 1))
    demo_features.
Proof.
  apply Forall_forall. intros f Hf. apply list_elem_of_In in Hf.
  exact (C1_p_mask_cls_zero_sep_one split_whitespace bert_like 10 2 5 true false
           20 demo_examples demo_features f demo_run_bert Hf).
Defined.

(** C1, as stated, fails for a tokenizer whose classification token is
    its separator: the first separator of the window is the classification
    position, and its mask value is 0. *)
Lemma C1_counterexample :
  ∃ fs f,
    demo_run xlm_like [demo_example] = Ok fs ∧ fs !! 0%nat = Some f ∧
    SquadFeatures.cls_index f = 3 ∧
    SquadFeatures.input_ids f !! 3%nat = Some (sep_token_id xlm_like) ∧
    SquadFeatures.p_mask f !! 3%nat = Some 0.
Proof.
  exists demo_features_xlm. eexists.
  split; [exact demo_run_xlm|]. split; [reflexivity|]. by vm_compute.
Qed.

Lemma C2_witness :
  training_filter split_whitespace true demo_example = Ok true
  ∨ ∃ ts te truncated_query spans,
      example_spans bert_like 10 2 5 true false 20 demo_example
        = Ok (Some (ts, te), truncated_query, spans) ∧
      ∀ span, span ∈ spans →
        ∃ f uid,
          f ∈ demo_features ∧
          span_features bert_like true false (Z.of_nat 0) demo_example
            (Some (ts, te)) truncated_query uid span = Ok f ∧
          window_answer bert_like true false demo_example ts te
            truncated_query span f.
Proof.
  exact (C2_window_answer_positions split_whitespace bert_like 10 2 5 true false
           20 demo_examples demo_features 0 demo_example
           eq_refl demo_run_bert eq_refl eq_refl).
Defined.

(** The three windows of the sample example: the answer span (3, 4) is
    inside the first two and outside the third, whose record points at
    the classification index. *)
Example window_answer_run :
  (λ f, (SquadFeatures.start_position f, SquadFeatures.end_position f,
         SquadFeatures.cls_index f)) <$> take 3 demo_features
  = [(7, 8, 0); (5, 6, 0); (0, 0, 0)] ∧
  (λ f, (SquadFeatures.start_position f, SquadFeatures.end_position f,
         SquadFeatures.cls_index f)) <$> demo_features_xlm
  = [(7, 8, 3); (5, 6, 3); (3, 3, 3)].
Proof. by vm_compute. Qed.

Lemma C3_witness :
  SquadFeatures.unique_id <$> demo_features
  = range 1000000000 (1000000000 + len demo_features).
Proof.
  exact (C3_unique_ids_consecutive split_whitespace bert_like 10 2 5 true false
           20 demo_examples demo_features demo_run_bert).
Defined.

Example unique_ids_run :
  (λ f, (SquadFeatures.unique_id f, SquadFeatures.example_index f))
    <$> demo_features
  = [(1000000000, 0); (1000000001, 0); (1000000002, 0);
     (1000000003, 2); (1000000004, 2); (1000000005, 2)].
Proof. by vm_compute. Qed.

Lemma demo_mismatch_not_contained :
  ¬ contains
      (join space (py_slice (doc_tokens demo_mismatch)
                     (start_position demo_mismatch)
                     (end_position demo_mismatch + 1)))
      (join space (split_whitespace (str "x y"))).
Proof. apply str_find_not_found. reflexivity. Qed.

Lemma C8_witness :
  (∀ st i,
     convert_example split_whitespace bert_like 10 2 5 true false 20 st
       (i, demo_mismatch) = Ok st) ∧
  (∀ st,
     for_loop (convert_example split_whitespace bert_like 10 2 5 true false 20)
       (enumerate ([demo_example] ++ demo_mismatch :: [demo_example])) st =
     for_loop (convert_example split_whitespace bert_like 10 2 5 true false 20)
       (enumerate [demo_example]) st ≫=
     for_loop (convert_example split_whitespace bert_like 10 2 5 true false 20)
       ((λ '(i, x), (len [demo_example] + 1 + i, x))
          <$> enumerate [demo_example])) ∧
  (∀ fs f,
     squad_convert_examples_to_features split_whitespace bert_like 10 2 5 true
       false 20 ([demo_example] ++ demo_mismatch :: [demo_example]) = Ok fs →
     f ∈ fs → SquadFeatures.example_index f ≠ len [demo_example]).
Proof.
  exact (C8_answer_mismatch_skips_example split_whitespace bert_like 10 2 5 true
           false 20 [demo_example] [demo_example] demo_mismatch (str "x y")
           eq_refl eq_refl eq_refl demo_mismatch_not_contained).
Defined.

(** ** The dataset reader *)

Lemma for_ctl_app {A S R : Type} (body : S → A → result (ctl S R))
  (l1 l2 : list A) (s : S) :
  for_ctl body (l1 ++ l2) s =
  for_ctl body l1 s ≫= λ c,
    match c with
    | Next s' => for_ctl body l2 s'
    | Return r => Ok (Return r)
    end.
Proof.
  revert s. induction l1 as [|x l1 IH]; intros s; simpl; [done|].
  destruct (body s x) as [[s'|r]| |]; simpl; auto.
Qed.

Lemma for_ctl_fmap {A B S R : Type} (g : A → B)
  (body : S → B → result (ctl S R)) (l : list A) (s : S) :
  for_ctl body (g <$> l) s = for_ctl (λ s x, body s (g x)) l s.
Proof.
  revert s. induction l as [|x l IH]; intros s; simpl; [done|].
  destruct (body s (g x)) as [[s'|r]| |]; simpl; auto.
Qed.

(** The example of a question of the flattened corpus. *)
Definition question_example (is_training : bool)
  (q : list N * list N * Json.qa) : result SquadExample :=
  let '(title, context_text, qa) := q in
  qa_example is_training title context_text qa.

(** The body of the innermost loop of [_create_examples]. *)
Definition question_step (is_training : bool) (only_first : option Z)
  (examples : list SquadExample) (q : list N * list N * Json.qa)
  : result (ctl (list SquadExample) (list SquadExample)) :=
  example ← question_example is_training q;
  if over_limit only_first (examples ++ [example])
  then Ok (Return (examples ++ [example]))
  else Ok (Next (examples ++ [example])).

Section Reader.

Variable is_training : bool.
Variable only_first : option Z.

Local Abbreviation step := (question_step is_training only_first).
Local Abbreviation built := (λ q e, question_example is_training q = Ok e).

(** The three nested loops are one loop over the flattened corpus. *)
Lemma paragraph_loop_flat (title : list N) (paragraph : Json.paragraph)
  (examples : list SquadExample) :
  for_ctl (λ examples qa,
      example ← qa_example is_training title (Json.context paragraph) qa;
      let examples := examples ++ [example] in
      if over_limit only_first examples then Ok (Return examples)
      else Ok (Next examples))
    (Json.qas paragraph) examples
  = for_ctl step (paragraph_questions title paragraph) examples.
Proof. unfold paragraph_questions. by rewrite for_ctl_fmap. Qed.

Lemma entry_loop_flat (title : list N) (paragraphs : list Json.paragraph)
  (examples : list SquadExample) :
  for_ctl (λ examples paragraph,
      for_ctl (λ examples qa,
          example ← qa_example is_training title (Json.context paragraph) qa;
          let examples := examples ++ [example] in
          if over_limit only_first examples then Ok (Return examples)
          else Ok (Next examples))
        (Json.qas paragraph) examples)
    paragraphs examples
  = for_ctl step (paragraphs ≫= paragraph_questions title) examples.
Proof.
  revert examples. induction paragraphs as [|p ps IH]; intros examples; [done|].
  rewrite bind_cons, for_ctl_app. simpl. rewrite paragraph_loop_flat.
  destruct (for_ctl _ (paragraph_questions title p) examples) as [[s'|r]| |];
    simpl; auto.
Qed.

Lemma corpus_loop_flat (input_data : list Json.entry)
  (examples : list SquadExample) :
  for_ctl (λ examples entry,
      for_ctl (λ examples paragraph,
          for_ctl (λ examples qa,
              example ← qa_example is_training (Json.title entry)
                          (Json.context paragraph) qa;
              let examples := examples ++ [example] in
              if over_limit only_first examples then Ok (Return examples)
              else Ok (Next examples))
            (Json.qas paragraph) examples)
        (Json.paragraphs entry) examples)
    input_data examples
  = for_ctl step (questions input_data) examples.
Proof.
  revert examples. induction input_data as [|e es IH]; intros examples; [done|].
  unfold questions. rewrite bind_cons, for_ctl_app. simpl.
  rewrite entry_loop_flat. fold (entry_questions e).
  destruct (for_ctl _ (entry_questions e) examples) as [[s'|r]| |];
    simpl; [apply IH|done..].
Qed.

Lemma for_ctl_step_cons (q : list N * list N * Json.qa)
  (qs : list (list N * list N * Json.qa)) (examples : list SquadExample) :
  for_ctl step (q :: qs) examples =
  match question_example is_training q with
  | Ok e =>
      if over_limit only_first (examples ++ [e])
      then Ok (Return (examples ++ [e]))
      else for_ctl step qs (examples ++ [e])
  | Raise x => Raise x
  | OutOfFuel => OutOfFuel
  end.
Proof.
  change (for_ctl step (q :: qs) examples)
    with (step examples q ≫= λ c,
            match c with
            | Next s' => for_ctl step qs s'
            | Return r => Ok (Return r)
            end).
  unfold question_step.
  destruct (question_example is_training q) as [e| |]; [|done..].
  change (Ok e ≫= ?f) with (f e). cbv beta.
  by destruct (over_limit only_first (examples ++ [e])).
Qed.

(** While the questions build and the limit is not exceeded, the loop
    goes on. *)
Lemma loop_run_prefix (pre rest : list (list N * list N * Json.qa))
  (new examples : list SquadExample) :
  Forall2 built pre new →
  (∀ k : nat, (0 < k ≤ length pre)%nat →
     over_limit only_first (examples ++ take k new) = false) →
  for_ctl step (pre ++ rest) examples = for_ctl step rest (examples ++ new).
Proof.
  intros Hb. revert examples.
  induction Hb as [|q e pre new Hq _ IH]; intros examples Hlim.
  - by rewrite app_nil_r.
  - rewrite <- app_comm_cons, for_ctl_step_cons, Hq.
    pose proof (Hlim 1%nat) as H1. simpl in H1. rewrite take_0 in H1.
    rewrite H1 by lia. rewrite IH.
    + by rewrite <- app_assoc.
    + intros k Hk. rewrite <- app_assoc. apply (Hlim (S k)). simpl. lia.
Qed.

(** An exception comes from the first question that does not build,
    reached within the limit. *)
Lemma loop_raise_inv (qs : list (list N * list N * Json.qa))
  (examples : list SquadExample) (x : exn) :
  for_ctl step qs examples = Raise x →
  ∃ pre q post new,
    qs = pre ++ q :: post ∧ Forall2 built pre new ∧
    question_example is_training q = Raise x ∧
    ∀ k : nat, (0 < k ≤ length pre)%nat →
      over_limit only_first (examples ++ take k new) = false.
Proof.
  revert examples. induction qs as [|q qs IH]; intros examples; [done|].
  rewrite for_ctl_step_cons.
  destruct (question_example is_training q) as [e| |] eqn:Hq; [| |done].
  - destruct (over_limit only_first (examples ++ [e])) eqn:Hl; [done|].
    intros H. apply IH in H as (pre & q' & post & new & -> & Hb & Hq' & Hlim).
    exists (q :: pre), q', post, (e :: new). split_and!; try done.
    + by constructor.
    + intros [|k] Hk; [lia|]. simpl. destruct k as [|k].
      * by rewrite take_0.
      * specialize (Hlim (S k)). rewrite <- app_assoc in Hlim.
        apply Hlim. simpl in Hk. lia.
  - intros [= <-]. exists [], q, qs, []. split_and!; try done.
    intros k Hk. simpl in Hk. lia.
Qed.

Lemma loop_never_out_of_fuel (qs : list (list N * list N * Json.qa))
  (examples : list SquadExample) :
  (∀ q, question_example is_training q ≠ OutOfFuel) →
  for_ctl step qs examples ≠ OutOfFuel.
Proof.
  intros Hq. revert examples. induction qs as [|q qs IH]; intros examples;
    [done|].
  rewrite for_ctl_step_cons. specialize (Hq q).
  destruct (question_example is_training q) as [e| |]; [|done..].
  destruct (over_limit only_first (examples ++ [e])); [done|apply IH].
Qed.

End Reader.

Lemma create_examples_flat (input_data : list Json.entry) (set_type : string)
  (only_first : option Z) :
  _create_examples input_data set_type only_first =
  for_ctl (question_step (String.eqb set_type "train") only_first)
    (questions input_data) []
  ≫= λ done, match done with
             | Return examples => Ok examples
             | Next examples => Ok examples
             end.
Proof. unfold _create_examples. cbv zeta. by rewrite corpus_loop_flat. Qed.

Lemma bind_Raise_total {A B : Type} (m : result A) (f : A → result B) (x : exn) :
  (∀ a, ∃ b, f a = Ok b) → m ≫= f = Raise x → m = Raise x.
Proof.
  intros Hf. destruct m as [a|e|]; unfold mbind, result_bind.
  - destruct (Hf a) as [b ->]. done.
  - by intros [= ->].
  - done.
Qed.

Lemma len_one_iff {A : Type} (l : list A) : len l = 1 ↔ length l = 1%nat.
Proof. unfold len. lia. Qed.

(** A question that is not flagged impossible and does not carry exactly
    one answer. *)
Definition wrong_answer_count (qa : Json.qa) : Prop :=
  Json.is_impossible qa ≠ Some true ∧ length (Json.answers qa) ≠ 1%nat.

Lemma question_example_wrong_count (q : list N * list N * Json.qa) :
  wrong_answer_count q.2 →
  question_example true q = Raise (ValueError one_answer_msg).
Proof.
  destruct q as [[t c] qa]. intros [Himp Hlen]. simpl in *.
  unfold qa_example.
  assert (match Json.is_impossible qa with Some b => b | None => false end = false)
    as -> by (destruct (Json.is_impossible qa) as [[|]|]; done).
  simpl. destruct (Z.eqb_spec (len (Json.answers qa)) 1) as [H1|H1]; [|done].
  by apply len_one_iff in H1.
Qed.

(** A question builds, or its construction raises an [IndexError] or a
    [TypeError], or it is a training question with a wrong answer count and
    raises the invalid-input error. *)
Lemma question_example_outcomes (is_training : bool)
  (q : list N * list N * Json.qa) :
  (∃ e, question_example is_training q = Ok e)
  ∨ question_example is_training q = Raise IndexError
  ∨ question_example is_training q = Raise TypeError
  ∨ (is_training = true ∧ wrong_answer_count q.2 ∧
     question_example is_training q = Raise (ValueError one_answer_msg)).
Proof.
  destruct q as [[t c] qa].
  destruct is_training, (decide (wrong_answer_count qa)) as [Hw|Hw].
  - right; right; right. split_and!; [done|done|].
    by apply (question_example_wrong_count (t, c, qa)).
  - unfold question_example, qa_example.
    destruct (Json.is_impossible qa) as [[|]|] eqn:Himp; simpl.
    + destruct (SquadExample_init_outcomes (Json.id qa) (Json.question qa) c
                  None None t true) as [?|[?|?]]; eauto.
    + destruct (Z.eqb_spec (len (Json.answers qa)) 1) as [H1|H1]; simpl.
      * apply len_one_iff in H1.
        destruct (Json.answers qa) as [|a [|]]; try done. simpl.
        destruct (SquadExample_init_outcomes (Json.id qa) (Json.question qa) c
                    (Some (Json.text a)) (Some (Json.answer_start a)) t false)
          as [?|[?|?]]; eauto.
      * exfalso. apply Hw. split; [by rewrite Himp|]. by rewrite <- len_one_iff.
    + destruct (Z.eqb_spec (len (Json.answers qa)) 1) as [H1|H1]; simpl.
      * apply len_one_iff in H1.
        destruct (Json.answers qa) as [|a [|]]; try done. simpl.
        destruct (SquadExample_init_outcomes (Json.id qa) (Json.question qa) c
                    (Some (Json.text a)) (Some (Json.answer_start a)) t false)
          as [?|[?|?]]; eauto.
      * exfalso. apply Hw. split; [by rewrite Himp|]. by rewrite <- len_one_iff.
  - left. unfold question_example, qa_example. rewrite andb_false_r. simpl.
    destruct (init_unfold (Json.id qa) (Json.question qa) c None None t
                (match Json.is_impossible qa with Some b => b | None => false end))
      as (dt & cwo & prev & _ & ->). simpl. eauto.
  - left. unfold question_example, qa_example. rewrite andb_false_r. simpl.
    destruct (init_unfold (Json.id qa) (Json.question qa) c None None t
                (match Json.is_impossible qa with Some b => b | None => false end))
      as (dt & cwo & prev & _ & ->). simpl. eauto.
Qed.

Lemma question_example_dev (q : list N * list N * Json.qa) :
  ∃ e, question_example false q = Ok e.
Proof.
  destruct (question_example_outcomes false q) as [?|[H|[H|(? & _)]]]; try done;
    destruct q as [[t c] qa]; revert H;
    unfold question_example, qa_example; rewrite andb_false_r; simpl;
    destruct (init_unfold (Json.id qa) (Json.question qa) c None None t
                (match Json.is_impossible qa with Some b => b | None => false end))
      as (dt & cwo & prev & _ & ->); done.
Qed.

(** The loop may reach the question after [count] built examples. *)
Definition within_limit (only_first : option Z) (count : nat) : Prop :=
  match only_first with
  | None => True
  | Some n => count = 0%nat ∨ Z.of_nat count ≤ n
  end.

Lemma within_limit_spec (only_first : option Z) (new : list SquadExample) :
  within_limit only_first (length new) ↔
  ∀ k : nat, (0 < k ≤ length new)%nat →
    over_limit only_first ([] ++ take k new) = false.
Proof.
  unfold within_limit, over_limit. destruct only_first as [n|]; [|done].
  simpl. split.
  - intros Hn k Hk. unfold len. rewrite length_take.
    destruct (Z.gtb_spec (Z.of_nat (k `min` length new)) n); [lia|done].
  - intros Hk. destruct (decide (length new = 0%nat)) as [|Hne]; [by left|right].
    specialize (Hk (length new)). unfold len in Hk. rewrite length_take in Hk.
    destruct (Z.gtb_spec (Z.of_nat (length new `min` length new)) n);
      [discriminate Hk; lia|lia].
Qed.

(** The loop of [_create_examples] reaches the question [q]: every
    question before it builds, and the limit is not exceeded before it. *)
Definition reached (input_data : list Json.entry) (is_training : bool)
  (only_first : option Z) (q : list N * list N * Json.qa) : Prop :=
  ∃ pre post new,
    questions input_data = pre ++ q :: post ∧
    Forall2 (λ q' e, question_example is_training q' = Ok e) pre new ∧
    within_limit only_first (length pre).

(** C7. [_create_examples] raises the invalid-input error exactly when it
    builds training examples and reaches a question that is not flagged
    impossible and does not carry exactly one answer; building examples of
    any other set never raises. *)
Theorem C7_one_answer_error_iff (input_data : list Json.entry)
  (set_type : string) (only_first : option Z) :
  (_create_examples input_data set_type only_first
     = Raise (ValueError one_answer_msg)
   ↔ set_type = "train"%string ∧
     ∃ q, reached input_data true only_first q ∧ wrong_answer_count q.2) ∧
  (set_type ≠ "train"%string →
   ∃ examples, _create_examples input_data set_type only_first = Ok examples).
Proof.
  rewrite create_examples_flat. split; [split|].
  - intros H. apply bind_Raise_total in H; [|intros [?|?]; eauto].
    apply loop_raise_inv in H as (pre & q & post & new & Hqs & Hb & Hq & Hlim).
    destruct (question_example_outcomes (String.eqb set_type "train") q)
      as [[e He]|[He|[He|(Htr & Hw & _)]]]; try congruence.
    split; [by apply String.eqb_eq|]. rewrite Htr in *.
    exists q. split; [|done]. exists pre, post, new. split_and!; [done|done|].
    rewrite (Forall2_length Hb) in Hlim |- *. by apply within_limit_spec.
  - intros (-> & q & (pre & post & new & Hqs & Hb & Hlim) & Hw).
    rewrite String.eqb_refl, Hqs.
    rewrite (loop_run_prefix true only_first pre (q :: post) new [] Hb).
    + rewrite for_ctl_step_cons, (question_example_wrong_count q Hw). done.
    + rewrite (Forall2_length Hb) in Hlim |- *. by apply within_limit_spec.
  - intros Hne. apply String.eqb_neq in Hne. rewrite Hne.
    destruct (for_ctl _ (questions input_data) []) as [[exs|exs]|x|] eqn:Hloop;
      simpl; eauto.
    + apply loop_raise_inv in Hloop as (pre & q & post & new & _ & _ & Hq & _).
      destruct (question_example_dev q) as [e He]. congruence.
    + exfalso. revert Hloop. apply loop_never_out_of_fuel. intros q.
      destruct (question_example_dev q) as [e ->]. done.
Qed.

(** Without a limit the loop reads every question. *)
Lemma loop_unlimited_inv (is_training : bool)
  (qs : list (list N * list N * Json.qa)) (examples : list SquadExample)
  (c : ctl (list SquadExample) (list SquadExample)) :
  for_ctl (question_step is_training None) qs examples = Ok c →
  ∃ new, c = Next (examples ++ new) ∧
         Forall2 (λ q e, question_example is_training q = Ok e) qs new.
Proof.
  revert examples. induction qs as [|q qs IH]; intros examples.
  - intros [= <-]. exists []. by rewrite app_nil_r.
  - rewrite for_ctl_step_cons.
    destruct (question_example is_training q) as [e| |] eqn:Hq; [|done..].
    simpl. intros H. apply IH in H as (new & -> & Hb).
    exists (e :: new). rewrite <- app_assoc. split; [done|by constructor].
Qed.

(** With the limit [n], on questions that all build. *)
Lemma loop_limited_run (is_training : bool) (n : Z)
  (qs : list (list N * list N * Json.qa)) (new examples : list SquadExample) :
  Forall2 (λ q e, question_example is_training q = Ok e) qs new →
  len examples ≤ Z.max n 0 →
  for_ctl (question_step is_training (Some n)) qs examples =
  Ok (if decide (len examples + len new ≤ Z.max n 0)
      then Next (examples ++ new)
      else Return (examples
                   ++ take (Z.to_nat (Z.max n 0 + 1 - len examples)) new)).
Proof.
  intros Hb. revert examples.
  induction Hb as [|q e qs new Hq _ IH]; intros examples Hlen.
  - simpl. rewrite decide_True by (unfold len in *; simpl; lia).
    by rewrite app_nil_r.
  - rewrite for_ctl_step_cons, Hq. unfold over_limit. rewrite len_app.
    change (len [e]) with 1.
    assert (len (e :: new) = 1 + len new) as -> by (unfold len; simpl; lia).
    pose proof (len_nonneg new). pose proof (len_nonneg examples).
    destruct (Z.gtb_spec (len examples + 1) n) as [Hgt|Hle].
    + rewrite decide_False by lia.
      replace (Z.to_nat (Z.max n 0 + 1 - len examples)) with 1%nat by lia.
      simpl. by rewrite take_0.
    + rewrite IH by (rewrite len_app; change (len [e]) with 1; lia).
      rewrite len_app. change (len [e]) with 1.
      destruct (decide (len examples + 1 + len new ≤ Z.max n 0)) as [Hd|Hd].
      * rewrite decide_True by lia. by rewrite <- app_assoc.
      * rewrite decide_False by lia. rewrite <- app_assoc. do 3 f_equal.
        replace (Z.to_nat (Z.max n 0 + 1 - len examples))
          with (S (Z.to_nat (Z.max n 0 + 1 - (len examples + 1)))) by lia.
        done.
Qed.

(** With the limit [n] the loop returns as soon as the count exceeds it. *)
Lemma loop_limited_length (is_training : bool) (n : Z)
  (qs : list (list N * list N * Json.qa)) (examples : list SquadExample)
  (c : ctl (list SquadExample) (list SquadExample)) :
  for_ctl (question_step is_training (Some n)) qs examples = Ok c →
  len examples ≤ Z.max n 0 →
  match c with
  | Return exs => len exs = Z.max n 0 + 1
  | Next exs => len exs ≤ Z.max n 0
  end.
Proof.
  revert examples. induction qs as [|q qs IH]; intros examples.
  - by intros [= <-].
  - rewrite for_ctl_step_cons.
    destruct (question_example is_training q) as [e| |]; [|done..].
    unfold over_limit. rewrite len_app. change (len [e]) with 1.
    destruct (Z.gtb_spec (len examples + 1) n) as [Hgt|Hle].
    + intros [= <-] Hlen. rewrite len_app. change (len [e]) with 1.
      pose proof (len_nonneg examples). lia.
    + intros H Hlen. apply (IH _ H). rewrite len_app. change (len [e]) with 1. lia.
Qed.

(** C6, as amended. With a limit, the accumulated count is checked after
    every appended example: at most [max(limit, 0) + 1] examples are
    returned, and they are the first [max(limit, 0) + 1] examples of the
    result without a limit (all of them when there are fewer). *)
Theorem C6_limit_checked_after_each_example (input_data : list Json.entry)
  (set_type : string) (limit : Z) (examples : list SquadExample) :
  _create_examples input_data set_type (Some limit) = Ok examples →
  len examples ≤ Z.max limit 0 + 1 ∧
  ∀ all, _create_examples input_data set_type None = Ok all →
         examples = take (Z.to_nat (Z.max limit 0 + 1)) all.
Proof.
  rewrite !create_examples_flat. intros H.
  apply bind_Ok in H as (c & Hloop & Hc). split.
  - apply loop_limited_length in Hloop; [|unfold len; simpl; lia].
    destruct c as [exs|exs]; injection Hc as <-; lia.
  - intros all Hall. apply bind_Ok in Hall as (c' & Hloop' & Hc').
    apply loop_unlimited_inv in Hloop' as (new & -> & Hb).
    injection Hc' as <-. simpl.
    rewrite (loop_limited_run _ limit _ new [] Hb) in Hloop
      by (unfold len; simpl; lia).
    injection Hloop as <-. change (len []) with 0 in Hc.
    rewrite Z.add_0_l, Z.sub_0_r in Hc.
    destruct (decide (len new ≤ Z.max limit 0)); injection Hc as <-; simpl; [|done].
    rewrite take_ge; [done|]. unfold len in *. lia.
Qed.

(** *** The reader on the sample corpus *)

Lemma demo_limited_run :
  _create_examples demo_corpus "dev" (Some 1) = Ok demo_limited.
Proof. vm_compute. reflexivity. Qed.

Lemma C6_witness :
  len demo_limited ≤ Z.max 1 0 + 1 ∧
  ∀ all, _create_examples demo_corpus "dev" None = Ok all →
         demo_limited = take (Z.to_nat (Z.max 1 0 + 1)) all.
Proof.
  exact (C6_limit_checked_after_each_example demo_corpus "dev" 1 demo_limited
           demo_limited_run).
Defined.

(** C6, as stated, fails: the one paragraph of the sample corpus has
    three questions, and with the limit 1 the reader returns two examples,
    where a check made once the paragraph is read would return three. *)
Lemma C6_counterexample :
  ∃ examples examples',
    _create_examples demo_corpus "dev" (Some 1) = Ok examples ∧
    create_examples_limit_per_paragraph demo_corpus "dev" (Some 1)
      = Ok examples' ∧
    length (demo_corpus ≫= Json.paragraphs) = 1%nat ∧
    length examples = 2%nat ∧ length examples' = 3%nat.
Proof.
  exists demo_limited. eexists.
  split; [exact demo_limited_run|]. split; [by vm_compute|]. by vm_compute.
Qed.

(** The second question of the sample corpus has two answers: training
    examples cannot be built unless the limit stops the reader before it,
    and dev examples can. *)
Example create_examples_train_raises :
  _create_examples demo_corpus "train" None = Raise (ValueError one_answer_msg) ∧
  _create_examples demo_corpus "train" (Some 0) = Ok [demo_example] ∧
  length <$> (match _create_examples demo_corpus "dev" None with
              | Ok examples => Some examples
              | _ => None
              end) = Some 3%nat.
Proof. by vm_compute. Qed.

Example init_runs :
  SquadExample_init (str "q1") (str "q r") demo_context (Some (str "d e"))
    (Some 6) (str "T") false = Ok demo_example ∧
  SquadExample_init (str "q1") (str "q r") demo_context None None (str "T") false
  = Ok (mkSquadExample (str "q1") (str "q r") demo_context None (str "T") false
          0 0 (doc_tokens demo_example) (char_to_word_offset demo_example)).
Proof. by vm_compute. Qed.

(** * Further properties *)

(** ** Word splitting in [SquadExample.__init__] *)

Definition non_separator (c : N) : Prop := _is_whitespace c = false.

(** The increment of the word index between two consecutive characters:
    a word starts at a non-separator that follows a separator. *)
Definition word_start (c c' : N) : Z :=
  if _is_whitespace c && negb (_is_whitespace c') then 1 else 0.

(** What the splitting loop has built once the characters [pre] are
    read. *)
Definition split_shape (pre : list N) (st : split_state) : Prop :=
  let '(doc_tokens, char_to_word_offset, prev_is_whitespace) := st in
  concat doc_tokens = filter non_separator pre ∧
  Forall (λ tok, tok ≠ [] ∧ Forall non_separator tok) doc_tokens ∧
  prev_is_whitespace = match list.last pre with
                       | None => true
                       | Some c => _is_whitespace c
                       end ∧
  (prev_is_whitespace = false → doc_tokens ≠ []) ∧
  length char_to_word_offset = length pre ∧
  (∀ w, list.last char_to_word_offset = Some w → w = len doc_tokens - 1) ∧
  (∀ c, pre !! 0%nat = Some c →
        char_to_word_offset !! 0%nat
        = Some (if _is_whitespace c then -1 else 0)) ∧
  (∀ (i : nat) c c' w,
     pre !! i = Some c → pre !! S i = Some c' →
     char_to_word_offset !! i = Some w →
     char_to_word_offset !! S i = Some (w + word_start c c')).

Lemma split_shape_init : split_shape [] ([], [], true).
Proof.
  unfold split_shape. split_and!; done.
Qed.

Lemma lookup_snoc_last {A : Type} (l : list A) (x y : A) (i : nat) :
  (l ++ [x]) !! i = Some y → length l = S i ∨ (i < length l)%nat ∨ length l = i.
Proof. intros H. apply lookup_lt_Some in H. rewrite length_app in H. simpl in H. lia. Qed.

Lemma last_lookup_length {A : Type} (l : list A) (i : nat) (x : A) :
  length l = S i → l !! i = Some x → list.last l = Some x.
Proof. intros Hl Hx. rewrite last_lookup, Hl. done. Qed.

(** The entries for the characters already read stay, and the new entry
    follows the recurrence. *)
Lemma split_shape_offsets (pre : list N) (cwo : list Z) (c : N) (v v0 : Z)
  (prev : bool) :
  length cwo = length pre →
  prev = match list.last pre with None => true | Some c0 => _is_whitespace c0 end →
  (∀ w, list.last cwo = Some w → w = v0) →
  (pre = [] → v = if _is_whitespace c then -1 else 0) →
  (pre ≠ [] → v = v0 + if prev && negb (_is_whitespace c) then 1 else 0) →
  (∀ c0, pre !! 0%nat = Some c0 →
         cwo !! 0%nat = Some (if _is_whitespace c0 then -1 else 0)) →
  (∀ (i : nat) c0 c' w,
     pre !! i = Some c0 → pre !! S i = Some c' → cwo !! i = Some w →
     cwo !! S i = Some (w + word_start c0 c')) →
  (∀ c0, (pre ++ [c]) !! 0%nat = Some c0 →
         (cwo ++ [v]) !! 0%nat = Some (if _is_whitespace c0 then -1 else 0)) ∧
  (∀ (i : nat) c0 c' w,
     (pre ++ [c]) !! i = Some c0 → (pre ++ [c]) !! S i = Some c' →
     (cwo ++ [v]) !! i = Some w →
     (cwo ++ [v]) !! S i = Some (w + word_start c0 c')).
Proof.
  intros Hlen Hprev Hlast Hnil Hcons Hhead Hrec. split.
  - intros c0 Hc0. destruct pre as [|p pre].
    + destruct cwo; [|done]. simpl in *. injection Hc0 as <-. by rewrite Hnil.
    + destruct cwo as [|w cwo]; [done|]. simpl in *. injection Hc0 as <-.
      by apply (Hhead p).
  - intros i c0 c' w Hi HSi Hw.
    apply lookup_app_Some in HSi as [HSi|[Hge HSi]].
    + assert (i < length pre)%nat by (apply lookup_lt_Some in HSi; lia).
      rewrite lookup_app_l in Hi by lia. rewrite lookup_app_l in Hw by lia.
      rewrite lookup_app_l by (apply lookup_lt_Some in HSi; lia).
      by apply (Hrec i c0 c' w).
    + apply list_lookup_singleton_Some in HSi as [Hi' <-].
      assert (length pre = S i) as Hl by lia.
      rewrite lookup_app_l in Hi by lia. rewrite lookup_app_l in Hw by lia.
      assert (S i = length cwo) as -> by lia.
      rewrite list_lookup_middle by done. f_equal.
      rewrite (last_lookup_length pre i c0 Hl Hi) in Hprev.
      rewrite (Hlast w) by (apply (last_lookup_length cwo i w); [lia|done]).
      rewrite Hcons by (by destruct pre). rewrite Hprev. done.
Qed.

Lemma split_step_shape (pre : list N) (st st' : split_state) (c : N) :
  split_shape pre st → split_step st c = Ok st' → split_shape (pre ++ [c]) st'.
Proof.
  destruct st as [[dt cwo] prev].
  intros (Hcat & Htok & Hprev & Hne & Hlen & Hlast & Hhead & Hrec).
  unfold split_step. pose proof (len_nonneg dt) as Hdt.
  assert (pre = [] → cwo = [] ∧ prev = true) as Hstart.
  { intros ->. destruct cwo; [|done]. by rewrite Hprev. }
  assert (pre ≠ [] → ∃ w, list.last cwo = Some w) as Hsome.
  { intros Hp. destruct cwo as [|w cwo _] using rev_ind.
    - by destruct pre.
    - exists w. by rewrite last_snoc. }
  destruct (_is_whitespace c) eqn:Hws; simpl.
  - intros [= <-]. unfold split_shape.
    destruct (split_shape_offsets pre cwo c (len dt - 1) (len dt - 1) prev)
      as [Hh Hr]; try done.
    { intros Hp. rewrite Hws. destruct (Hstart Hp) as [_ ->].
      destruct dt as [|tok dt]; [done|]. exfalso.
      subst pre. simpl in Hcat. apply list.Forall_cons in Htok as [[Ht _] _].
      destruct tok; [done|]. simpl in Hcat. discriminate Hcat. }
    { intros _. rewrite Hws, andb_false_r. lia. }
    split_and!; try done.
    + rewrite list.filter_app, filter_cons_False, filter_nil, app_nil_r by
        (unfold non_separator; congruence). done.
    + by rewrite last_snoc.
    + rewrite !length_app. simpl. lia.
    + intros w. rewrite last_snoc. by intros [= <-].
  - destruct prev; simpl.
    + intros [= <-]. unfold split_shape.
      destruct (split_shape_offsets pre cwo c (len (dt ++ [[c]]) - 1)
                  (len dt - 1) true) as [Hh Hr]; try done.
      { intros Hp. rewrite Hws. rewrite len_app. change (len [[c]]) with 1.
        destruct dt as [|tok dt]; [done|]. exfalso.
        subst pre. simpl in Hcat. apply list.Forall_cons in Htok as [[Ht _] _].
        destruct tok; [done|]. simpl in Hcat. discriminate Hcat. }
      { intros _. rewrite Hws. rewrite len_app. change (len [[c]]) with 1.
        simpl. lia. }
      split_and!; try done.
      * rewrite concat_app, list.filter_app, Hcat. simpl.
        by rewrite filter_cons_True, filter_nil by done.
      * apply Forall_app. split; [done|]. constructor; [|constructor].
        split; [done|]. by constructor.
      * by rewrite last_snoc.
      * intros _. by destruct dt.
      * rewrite !length_app. simpl. lia.
      * intros w. rewrite last_snoc. by intros [= <-].
    + destruct (exists_last (Hne eq_refl)) as (dt0 & tok0 & ->).
      rewrite py_index_last. simpl. rewrite py_setitem_last. simpl.
      intros [= <-]. unfold split_shape.
      assert (len (dt0 ++ [tok0 ++ [c]]) = len (dt0 ++ [tok0])) as Hsame
        by (rewrite !len_app; done).
      destruct (split_shape_offsets pre cwo c (len (dt0 ++ [tok0 ++ [c]]) - 1)
                  (len (dt0 ++ [tok0]) - 1) false) as [Hh Hr]; try done.
      { intros Hp. by destruct (Hstart Hp) as [_ ?]. }
      { intros _. rewrite Hsame. simpl. lia. }
      apply Forall_app in Htok as [Htok0 Htok1].
      apply Forall_singleton in Htok1 as [_ Htok1].
      split_and!; try done.
      * rewrite concat_app in Hcat |- *. simpl in *.
        rewrite app_nil_r in Hcat |- *.
        rewrite list.filter_app, filter_cons_True, filter_nil by done.
        rewrite <- Hcat. by rewrite <- !app_assoc.
      * apply Forall_app. split; [done|]. constructor; [|constructor].
        split; [by destruct tok0|]. apply Forall_app. split; [done|].
        by constructor.
      * by rewrite last_snoc.
      * intros _. by destruct dt0.
      * rewrite !length_app. simpl. lia.
      * intros w. rewrite last_snoc. by intros [= <-].
Qed.

Lemma split_loop_shape (rest pre : list N) (st st' : split_state) :
  split_shape pre st → for_loop split_step rest st = Ok st' →
  split_shape (pre ++ rest) st'.
Proof.
  revert pre st. induction rest as [|c rest IH]; intros pre st Hinv; simpl.
  - intros [= <-]. by rewrite app_nil_r.
  - intros H. apply bind_Ok in H as (st1 & Hstep & H).
    pose proof (split_step_shape pre st st1 c Hinv Hstep) as Hinv1.
    specialize (IH _ _ Hinv1 H). by rewrite <- app_assoc in IH.
Qed.

Lemma init_shape qas_id question_text context_text answer_text
  start_position_character title is_impossible ex :
  SquadExample_init qas_id question_text context_text answer_text
    start_position_character title is_impossible = Ok ex →
  split_shape context_text
    (doc_tokens ex, char_to_word_offset ex,
     match list.last context_text with None => true | Some c => _is_whitespace c end).
Proof.
  unfold SquadExample_init. intros H.
  apply bind_Ok in H as ([[dt cwo] prev] & Hloop & H).
  apply bind_Ok in H as ([s e] & _ & [= <-]). simpl.
  pose proof (split_loop_shape context_text [] _ _ split_shape_init Hloop) as Hs.
  simpl in Hs. destruct Hs as (? & ? & Hprev & ?). by rewrite <- Hprev.
Qed.

(** X1. The tokens of a constructed example are non-empty, free of
    separator characters, and their concatenation is the context with
    its separator characters removed. *)
Theorem X1_doc_tokens_partition_non_separators
  (qas_id question_text context_text : list N) (answer_text : option (list N))
  (start_position_character : option Z) (title : list N) (is_impossible : bool)
  (ex : SquadExample) :
  SquadExample_init qas_id question_text context_text answer_text
    start_position_character title is_impossible = Ok ex →
  concat (doc_tokens ex) = filter non_separator context_text ∧
  Forall (λ tok, tok ≠ [] ∧ Forall non_separator tok) (doc_tokens ex).
Proof. intros H. by destruct (init_shape _ _ _ _ _ _ _ _ H) as (? & ? & _). Qed.

Lemma demo_example_init :
  SquadExample_init (str "q1") (str "q r") demo_context (Some (str "d e"))
    (Some 6) (str "T") false = Ok demo_example.
Proof. reflexivity. Qed.

Lemma X1_witness :
  concat (doc_tokens demo_example) = filter non_separator demo_context ∧
  Forall (λ tok, tok ≠ [] ∧ Forall non_separator tok) (doc_tokens demo_example).
Proof.
  exact (X1_doc_tokens_partition_non_separators _ _ _ _ _ _ _ _
           demo_example_init).
Defined.

(** X2. [char_to_word_offset] follows the words of the context: its first
    entry is -1 for a separator and 0 otherwise, each next entry is the
    previous one, plus one exactly when a non-separator follows a
    separator, and its last entry is the index of the last token. *)
Theorem X2_char_to_word_offset_recurrence
  (qas_id question_text context_text : list N) (answer_text : option (list N))
  (start_position_character : option Z) (title : list N) (is_impossible : bool)
  (ex : SquadExample) :
  SquadExample_init qas_id question_text context_text answer_text
    start_position_character title is_impossible = Ok ex →
  (∀ c, context_text !! 0%nat = Some c →
        char_to_word_offset ex !! 0%nat
        = Some (if _is_whitespace c then -1 else 0)) ∧
  (∀ (i : nat) c c' w,
     context_text !! i = Some c → context_text !! S i = Some c' →
     char_to_word_offset ex !! i = Some w →
     char_to_word_offset ex !! S i = Some (w + word_start c c')) ∧
  (∀ w, list.last (char_to_word_offset ex) = Some w →
        w = len (doc_tokens ex) - 1).
Proof.
  intros H.
  by destruct (init_shape _ _ _ _ _ _ _ _ H) as (_ & _ & _ & _ & _ & ? & ? & ?).
Qed.

Lemma X2_witness :
  (∀ c, demo_context !! 0%nat = Some c →
        char_to_word_offset demo_example !! 0%nat
        = Some (if _is_whitespace c then -1 else 0)) ∧
  (∀ (i : nat) c c' w,
     demo_context !! i = Some c → demo_context !! S i = Some c' →
     char_to_word_offset demo_example !! i = Some w →
     char_to_word_offset demo_example !! S i = Some (w + word_start c c')) ∧
  (∀ w, list.last (char_to_word_offset demo_example) = Some w →
        w = len (doc_tokens demo_example) - 1).
Proof.
  exact (X2_char_to_word_offset_recurrence _ _ _ _ _ _ _ _ demo_example_init).
Defined.

Lemma word_start_range (c c' : N) : 0 ≤ word_start c c' ≤ 1.
Proof. unfold word_start. destruct (_ && _); lia. Qed.

(** Offsets that follow the recurrence never decrease and start at -1 or
    above. *)
Lemma offsets_monotone (context_text : list N) (cwo : list Z) :
  length cwo = length context_text →
  (∀ c, context_text !! 0%nat = Some c →
        cwo !! 0%nat = Some (if _is_whitespace c then -1 else 0)) →
  (∀ (i : nat) c c' w,
     context_text !! i = Some c → context_text !! S i = Some c' →
     cwo !! i = Some w → cwo !! S i = Some (w + word_start c c')) →
  ∀ (i j : nat) w w',
    (i ≤ j)%nat → cwo !! i = Some w → cwo !! j = Some w' → -1 ≤ w ∧ w ≤ w'.
Proof.
  intros Hlen Hhead Hrec.
  assert (∀ (j : nat) w', cwo !! j = Some w' → -1 ≤ w' ∧
            ∀ (i : nat) w, (i ≤ j)%nat → cwo !! i = Some w → w ≤ w') as Hall.
  { induction j as [|j IH]; intros w' Hj.
    - destruct (lookup_lt_is_Some_2 context_text 0) as [c Hc].
      { rewrite <- Hlen. by eapply lookup_lt_Some. }
      rewrite (Hhead c Hc) in Hj. injection Hj as <-. split.
      + destruct (_is_whitespace c); lia.
      + intros i w Hi Hw. assert (i = 0%nat) as -> by lia.
        rewrite (Hhead c Hc) in Hw. injection Hw as <-. lia.
    - destruct (lookup_lt_is_Some_2 context_text (S j)) as [c' Hc'].
      { rewrite <- Hlen. by eapply lookup_lt_Some. }
      destruct (lookup_lt_is_Some_2 context_text j) as [c Hc].
      { apply lookup_lt_Some in Hc'. lia. }
      destruct (lookup_lt_is_Some_2 cwo j) as [w0 Hw0].
      { apply lookup_lt_Some in Hj. lia. }
      rewrite (Hrec j c c' w0 Hc Hc' Hw0) in Hj. injection Hj as <-.
      destruct (IH w0 Hw0) as [Hlo Hmon]. pose proof (word_start_range c c').
      split; [lia|]. intros i w Hi Hw.
      destruct (decide (i = S j)) as [->|Hne].
      + rewrite (Hrec j c c' w0 Hc Hc' Hw0) in Hw. injection Hw as <-. lia.
      + assert (w ≤ w0) by (apply (Hmon i); [lia|done]). lia. }
  intros i j w w' Hij Hi Hj. destruct (Hall j w' Hj) as [_ Hmon].
  split; [by destruct (Hall i w Hi)|by eapply Hmon].
Qed.

(** X3. When the start character offset is non-negative and the answer
    text is not empty, the word span of a constructed answerable example
    is ordered and lies between -1 and the index of the last token. *)
Theorem X3_answer_word_span_ordered
  (qas_id question_text context_text answer : list N) (spc : Z)
  (title : list N) (ex : SquadExample) :
  0 ≤ spc → 1 ≤ len answer →
  SquadExample_init qas_id question_text context_text (Some answer) (Some spc)
    title false = Ok ex →
  -1 ≤ start_position ex ∧ start_position ex ≤ end_position ex ∧
  end_position ex < len (doc_tokens ex).
Proof.
  intros Hspc Hans Hinit.
  destruct (init_shape _ _ _ _ _ _ _ _ Hinit)
    as (_ & _ & _ & _ & Hlen & Hlast & Hhead & Hrec).
  revert Hinit. unfold SquadExample_init. intros H.
  apply bind_Ok in H as ([[dt cwo] prev] & _ & H).
  apply bind_Ok in H as ([s e] & Hse & [= <-]). simpl in *.
  apply bind_Ok in Hse as (s' & Hs & Hse).
  apply bind_Ok in Hse as (e' & He & [= -> ->]).
  apply py_index_Ok in Hs as [_ Hs]. apply py_index_Ok in He as [_ He].
  rewrite (proj2 (Z.ltb_ge _ _)) in Hs by lia.
  rewrite (proj2 (Z.ltb_ge _ _)) in He by lia.
  pose proof (offsets_monotone context_text cwo Hlen Hhead Hrec) as Hmon.
  destruct (Hmon (Z.to_nat spc) (Z.to_nat (spc + len answer - 1)) s e)
    as [Hlo Hle]; [lia|done|done|].
  split_and!; [done|done|].
  destruct (list.last cwo) as [w|] eqn:Hw.
  - rewrite last_lookup in Hw. specialize (Hlast w eq_refl).
    destruct (Hmon (Z.to_nat (spc + len answer - 1)) (pred (length cwo)) e w)
      as [_ Hle']; [|done|done|lia].
    apply lookup_lt_Some in He. lia.
  - apply last_None in Hw. subst cwo. by rewrite lookup_nil in He.
Qed.

Lemma X3_witness :
  -1 ≤ start_position demo_example ∧
  start_position demo_example ≤ end_position demo_example ∧
  end_position demo_example < len (doc_tokens demo_example).
Proof.
  apply (X3_answer_word_span_ordered (str "q1") (str "q r") demo_context
           (str "d e") 6 (str "T") demo_example).
  - lia.
  - by vm_compute.
  - exact demo_example_init.
Defined.

(** ** What the reader builds from each question *)

Lemma init_fields (qid qtext ctx : list N) (ans : option (list N))
  (offset : option Z) (ttl : list N) (imp : bool) (ex : SquadExample) :
  SquadExample_init qid qtext ctx ans offset ttl imp = Ok ex →
  qas_id ex = qid ∧ question_text ex = qtext ∧ context_text ex = ctx ∧
  answer_text ex = ans ∧ title ex = ttl ∧ is_impossible ex = imp ∧
  match offset with
  | Some spc =>
      if imp then start_position ex = 0 ∧ end_position ex = 0
      else ∃ a, ans = Some a ∧
                py_index (char_to_word_offset ex) spc = Ok (start_position ex) ∧
                py_index (char_to_word_offset ex) (spc + len a - 1)
                = Ok (end_position ex)
  | None => start_position ex = 0 ∧ end_position ex = 0
  end.
Proof.
  unfold SquadExample_init. intros H.
  apply bind_Ok in H as ([[dt cwo] prev] & _ & H).
  apply bind_Ok in H as ([s e] & Hse & [= <-]). simpl.
  split_and!; try done.
  destruct offset as [spc|]; [|by injection Hse as <- <-].
  destruct imp; simpl in Hse; [by injection Hse as <- <-|].
  apply bind_Ok in Hse as (s' & Hs & Hse).
  apply bind_Ok in Hse as (n & Hn & Hse).
  apply bind_Ok in Hse as (e' & He & [= -> ->]).
  destruct ans as [a|]; [|done]. injection Hn as <-. eauto.
Qed.

(** The impossibility flag of a question, false when the key is absent. *)
Definition question_is_impossible (qa : Json.qa) : bool :=
  match Json.is_impossible qa with
  | Some b => b
  | None => false
  end.

(** What an example built from the question [q] holds. *)
Definition example_of_question (is_training : bool)
  (q : list N * list N * Json.qa) (e : SquadExample) : Prop :=
  qas_id e = Json.id q.2 ∧ question_text e = Json.question q.2 ∧
  title e = q.1.1 ∧ context_text e = q.1.2 ∧
  is_impossible e = question_is_impossible q.2 ∧
  if is_training && negb (question_is_impossible q.2) then
    ∃ a, Json.answers q.2 = [a] ∧ answer_text e = Some (Json.text a) ∧
         py_index (char_to_word_offset e) (Json.answer_start a)
         = Ok (start_position e) ∧
         py_index (char_to_word_offset e)
           (Json.answer_start a + len (Json.text a) - 1)
         = Ok (end_position e)
  else answer_text e = None ∧ start_position e = 0 ∧ end_position e = 0.

Lemma question_example_fields (is_training : bool)
  (q : list N * list N * Json.qa) (e : SquadExample) :
  question_example is_training q = Ok e → example_of_question is_training q e.
Proof.
  destruct q as [[t c] qa]. unfold question_example, qa_example.
  fold (question_is_impossible qa). unfold example_of_question. simpl.
  destruct (negb (question_is_impossible qa) && is_training) eqn:Hb; simpl.
  - apply andb_true_iff in Hb as [Himp ->]. apply negb_true_iff in Himp.
    rewrite Himp. simpl.
    destruct (Z.eqb_spec (len (Json.answers qa)) 1) as [H1|H1]; [|done]. simpl.
    apply len_one_iff in H1.
    destruct (Json.answers qa) as [|a [|]]; try done. simpl. intros H.
    apply init_fields in H
      as (-> & -> & -> & Ha & -> & Hi & (a' & [= <-] & Hs & He)).
    split_and!; try done. exists a. by rewrite Ha.
  - intros H. apply init_fields in H as (-> & -> & -> & -> & -> & -> & -> & ->).
    split_and!; try done.
    destruct is_training, (question_is_impossible qa); done.
Qed.

(** The examples a run of the loop appends are those of the first
    questions, in order. *)
Lemma loop_ok_prefix (is_training : bool) (only_first : option Z)
  (qs : list (list N * list N * Json.qa)) (examples : list SquadExample)
  (c : ctl (list SquadExample) (list SquadExample)) :
  for_ctl (question_step is_training only_first) qs examples = Ok c →
  ∃ new,
    (c = Next (examples ++ new) ∧ length new = length qs
     ∨ c = Return (examples ++ new)) ∧
    Forall2 (λ q e, question_example is_training q = Ok e)
      (take (length new) qs) new.
Proof.
  revert examples. induction qs as [|q qs IH]; intros examples.
  - intros [= <-]. exists []. rewrite app_nil_r. split; [by left|constructor].
  - rewrite for_ctl_step_cons.
    destruct (question_example is_training q) as [e| |] eqn:Hq; [|done..].
    destruct (over_limit only_first (examples ++ [e])).
    + intros [= <-]. exists [e]. split; [by right|]. simpl. rewrite take_0.
      by repeat constructor.
    + intros H. apply IH in H as (new & Hc & Hb).
      exists (e :: new). rewrite <- app_assoc in Hc. split.
      * destruct Hc as [[-> Hl]| ->]; [left|right]; simpl; by rewrite ?Hl.
      * simpl. by constructor.
Qed.

(** X4. Without a limit, a reader that returns has built exactly one
    example per question of the corpus. *)
Theorem X4_unlimited_reader_reads_every_question
  (input_data : list Json.entry) (set_type : string)
  (examples : list SquadExample) :
  _create_examples input_data set_type None = Ok examples →
  length examples = length (questions input_data).
Proof.
  rewrite create_examples_flat. intros H.
  apply bind_Ok in H as (c & Hloop & Hc).
  apply loop_unlimited_inv in Hloop as (new & -> & Hb).
  injection Hc as <-. simpl. symmetry. apply (Forall2_length Hb).
Qed.

Definition demo_dev_examples : list SquadExample :=
  Eval vm_compute in
    match _create_examples demo_corpus "dev" None with
    | Ok examples => examples
    | _ => []
    end.

Lemma demo_dev_run : _create_examples demo_corpus "dev" None = Ok demo_dev_examples.
Proof. vm_compute. reflexivity. Qed.

Lemma X4_witness : length demo_dev_examples = length (questions demo_corpus).
Proof.
  exact (X4_unlimited_reader_reads_every_question demo_corpus "dev"
           demo_dev_examples demo_dev_run).
Defined.

(** X5. The [k]-th example a reader returns is built from the [k]-th
    question of the corpus: it has the question's id and text, the
    paragraph's context, the entry's title and the question's
    impossibility flag (false when absent). A training example of an
    answerable question carries the text of the single answer and the word
    positions looked up at its first and last character; every other
    example carries no answer text and the positions 0. *)
Theorem X5_examples_follow_questions (input_data : list Json.entry)
  (set_type : string) (only_first : option Z) (examples : list SquadExample)
  (k : nat) (e : SquadExample) :
  _create_examples input_data set_type only_first = Ok examples →
  examples !! k = Some e →
  ∃ q, questions input_data !! k = Some q ∧
       example_of_question (String.eqb set_type "train") q e.
Proof.
  rewrite create_examples_flat. intros H Hk.
  apply bind_Ok in H as (c & Hloop & Hc).
  apply loop_ok_prefix in Hloop as (new & Hnew & Hb). simpl in Hnew.
  assert (examples = new) as -> by (by destruct Hnew as [[-> _]| ->]; injection Hc).
  destruct (Forall2_lookup_r _ _ _ _ _ Hb Hk) as (q & Hq & Hbuilt).
  exists q. split; [|by apply question_example_fields].
  by apply lookup_take_Some in Hq as [? _].
Qed.

Lemma X5_witness :
  ∃ q, questions demo_corpus !! 1%nat = Some q ∧
       example_of_question (String.eqb "dev" "train") q
         (mkSquadExample (str "q2") (str "q r") demo_context None (str "T")
            false 0 0 (doc_tokens demo_example)
            (char_to_word_offset demo_example)).
Proof.
  exact (X5_examples_follow_questions demo_corpus "dev" (Some 1) demo_limited
           1 _ demo_limited_run eq_refl).
Defined.

(** ** The max-context window of a position *)

(** The passage range of the window holds the position. *)
Definition covers (span : Span.t) (position : Z) : Prop :=
  Span.start span ≤ position ≤ Span.start span + Span.length span - 1.

(** The loop of [_new_check_is_max_context], from the state
    [(best_score, best_span_index)]. *)
Definition max_context_loop (position : Z) (items : list (Z * Span.t))
  (st : option float * option Z) : result (option float * option Z) :=
  for_loop (λ '(best_score, best_span_index) '(span_index, doc_span),
    let end_ := Span.start doc_span + Span.length doc_span - 1 in
    if position <? Span.start doc_span then Ok (best_score, best_span_index)
    else if position >? end_ then Ok (best_score, best_span_index)
    else
      let num_left_context := position - Span.start doc_span in
      let num_right_context := end_ - position in
      score ← context_score num_left_context num_right_context
                (Span.length doc_span);
      if improves best_score score then Ok (Some score, Some span_index)
      else Ok (best_score, best_span_index))
    items st.

Lemma new_check_unfold (spans : list Span.t) (cur_span_index position : Z) :
  _new_check_is_max_context spans cur_span_index position =
  max_context_loop position (enumerate spans) (None, None) ≫= λ '(_, best),
    Ok (bool_decide (Some cur_span_index = best)).
Proof. reflexivity. Qed.

Lemma max_context_loop_spec (position : Z) (l : list Span.t) (k : Z)
  (bs bs' : option float) (bi bi' : option Z) :
  max_context_loop position ((λ '(i, x), (k + i, x)) <$> enumerate l) (bs, bi)
    = Ok (bs', bi') →
  (bs = None ↔ bi = None) →
  (bs' = None ↔ bi' = None) ∧
  (bi' = bi ∨ ∃ (j : nat) span,
       l !! j = Some span ∧ covers span position ∧ bi' = Some (k + Z.of_nat j)) ∧
  (bi ≠ None ∨ (∃ span, span ∈ l ∧ covers span position) → bi' ≠ None).
Proof.
  unfold max_context_loop. revert k bs bi.
  induction l as [|span l IH]; intros k bs bi.
  - simpl. intros [= <- <-] Hnone. split_and!; [done|by left|].
    intros [?|(span & Hin & _)]; [done|]. by apply elem_of_nil in Hin.
  - rewrite enumerate_cons, fmap_cons, for_loop_cons. intros H Hnone.
    apply bind_Ok in H as ([bs1 bi1] & Hstep & H).
    rewrite <- list_fmap_compose in H.
    rewrite (list_fmap_ext _ (λ '(i, x), (k + 1 + i, x))) in H
      by (intros ? [? ?] _; simpl; f_equal; lia).
    assert ((bs1 = None ↔ bi1 = None) ∧
            (covers span position → bi1 ≠ None) ∧
            (bi ≠ None → bi1 ≠ None) ∧
            (bi1 = bi ∨ covers span position ∧ bi1 = Some (k + 0))) as Hs.
    { revert Hstep. unfold covers.
      destruct (Z.ltb_spec position (Span.start span)).
      { intros [= <- <-]. split_and!; [done|lia|done|by left]. }
      destruct (Z.gtb_spec position (Span.start span + Span.length span - 1)).
      { intros [= <- <-]. split_and!; [done|lia|done|by left]. }
      intros Hstep. apply bind_Ok in Hstep as (score & _ & Hstep).
      destruct (improves bs score) eqn:Himp.
      - injection Hstep as <- <-. split_and!; [done|done|done|]. right. split; [lia|done].
      - injection Hstep as <- <-. split_and!; [done| |done|by left].
        intros _ Hbi. apply Hnone in Hbi. by rewrite Hbi in Himp. }
    destruct Hs as (Hnone1 & Hcov & Hkeep & Hbi1).
    destruct (IH _ _ _ H Hnone1) as (Hnone' & Hidx & Hsome).
    split_and!; [done| |].
    + destruct Hidx as [->|(j & sp & Hj & Hc & ->)].
      * destruct Hbi1 as [->|[Hc ->]]; [by left|]. right.
        exists 0%nat, span. split_and!; [done|done|f_equal; lia].
      * right. exists (S j), sp. split_and!; [done|done|f_equal; lia].
    + intros [Hbi|(sp & Hin & Hc)]; apply Hsome.
      * left. by apply Hkeep.
      * apply elem_of_cons in Hin as [->|Hin]; [left; by apply Hcov|].
        right. by exists sp.
Qed.

(** The loop result does not depend on the span index asked about. *)
Lemma new_check_best (spans : list Span.t) (i position : Z) (b : bool) :
  _new_check_is_max_context spans i position = Ok b →
  ∃ best : option Z,
    (∀ j, _new_check_is_max_context spans j position
          = Ok (bool_decide (Some j = best))) ∧
    (best = None ∨ ∃ (j : nat) span,
        spans !! j = Some span ∧ covers span position ∧
        best = Some (Z.of_nat j)) ∧
    ((∃ span, span ∈ spans ∧ covers span position) → best ≠ None).
Proof.
  rewrite new_check_unfold. intros H.
  apply bind_Ok in H as ([bs best] & Hloop & _).
  exists best. split.
  { intros j. by rewrite new_check_unfold, Hloop. }
  rewrite <- (list_fmap_id (enumerate spans)) in Hloop.
  rewrite (list_fmap_ext _ (λ '(i, x), (0 + i, x))) in Hloop
    by (by intros ? [? ?] _).
  destruct (max_context_loop_spec _ _ _ _ _ _ _ Hloop) as (_ & Hidx & Hsome);
    [done|].
  split; [|intros Hc; apply Hsome; by right].
  destruct Hidx as [->|(j & span & Hj & Hc & ->)]; [by left|right]. eauto.
Qed.

(** X6. A window flagged max-context for a position covers that position,
    and no other window is flagged for it. *)
Theorem X6_max_context_window_covers_and_is_unique
  (spans : list Span.t) (i position : Z) :
  _new_check_is_max_context spans i position = Ok true →
  (∃ span, 0 ≤ i ∧ spans !! Z.to_nat i = Some span ∧ covers span position) ∧
  ∀ j, _new_check_is_max_context spans j position = Ok true → j = i.
Proof.
  intros H. destruct (new_check_best _ _ _ _ H) as (best & Hall & Hidx & _).
  rewrite Hall in H. injection H as H. apply bool_decide_eq_true in H.
  subst best. split.
  - destruct Hidx as [?|(k & span & Hk & Hc & [= ->])]; [done|].
    exists span. by rewrite Nat2Z.id; split_and!; [lia|..].
  - intros j Hj. rewrite Hall in Hj. injection Hj as Hj.
    apply bool_decide_eq_true in Hj. congruence.
Qed.

Lemma X6_witness :
  (∃ span, 0 ≤ 1 ∧ demo_spans !! Z.to_nat 1 = Some span ∧ covers span 4) ∧
  ∀ j, _new_check_is_max_context demo_spans j 4 = Ok true → j = 1.
Proof.
  apply (X6_max_context_window_covers_and_is_unique demo_spans 1 4).
  by vm_compute.
Defined.

(** X7. When the scores can be computed, a position has a max-context
    window exactly when some window covers it. *)
Theorem X7_max_context_window_exists_iff_covered
  (spans : list Span.t) (i position : Z) (b : bool) :
  _new_check_is_max_context spans i position = Ok b →
  ((∃ j, _new_check_is_max_context spans j position = Ok true)
   ↔ ∃ span, span ∈ spans ∧ covers span position).
Proof.
  intros H. destruct (new_check_best _ _ _ _ H) as (best & Hall & Hidx & Hsome).
  split.
  - intros (j & Hj). rewrite Hall in Hj. injection Hj as Hj.
    apply bool_decide_eq_true in Hj. subst best.
    destruct Hidx as [?|(k & span & Hk & Hc & _)]; [done|].
    exists span. split; [by eapply list_elem_of_lookup_2|done].
  - intros Hc. destruct best as [j|] eqn:Hb; [|by destruct (Hsome Hc)].
    exists j. rewrite Hall. by rewrite bool_decide_eq_true_2.
Qed.

Lemma X7_witness :
  (∃ j, _new_check_is_max_context demo_spans j 6 = Ok true)
  ↔ ∃ span, span ∈ demo_spans ∧ covers span 6.
Proof.
  apply (X7_max_context_window_exists_iff_covered demo_spans 0 6 false).
  by vm_compute.
Defined.

(** ** Sub-tokenization and its alignment tables *)

Lemma foldl_sub_tokens (i : Z) (subs : list (list N)) (t2o : list Z)
  (all : list (list N)) :
  foldl (λ '(tok_to_orig_index, all_doc_tokens) sub_token,
           (tok_to_orig_index ++ [i], all_doc_tokens ++ [sub_token]))
    (t2o, all) subs
  = (t2o ++ replicate (length subs) i, all ++ subs).
Proof.
  revert t2o all. induction subs as [|s subs IH]; intros t2o all; simpl.
  - by rewrite !app_nil_r.
  - rewrite IH. by rewrite <- !app_assoc.
Qed.

(** The blocks of original-word indices, one per word, numbered from
    [k]. *)
Definition index_blocks (k : Z) (subs : list (list (list N))) : list (list Z) :=
  imap (λ j sub, replicate (length sub) (k + Z.of_nat j)) subs.

(** The position of the first sub-token of each word, after [n0]
    sub-tokens. *)
Definition block_starts (n0 : Z) (subs : list (list (list N))) : list Z :=
  imap (λ j _, n0 + len (concat (take j subs))) subs.

Lemma index_blocks_cons k sub subs :
  index_blocks k (sub :: subs)
  = replicate (length sub) k :: index_blocks (k + 1) subs.
Proof.
  unfold index_blocks. simpl. rewrite Z.add_0_r. f_equal.
  apply imap_ext. intros j x _. simpl. f_equal. lia.
Qed.

Lemma block_starts_cons n0 (sub : list (list N)) subs :
  block_starts n0 (sub :: subs) = n0 :: block_starts (n0 + len sub) subs.
Proof.
  unfold block_starts. simpl. f_equal.
  - unfold len. simpl. lia.
  - apply imap_ext. intros j x _. simpl. rewrite len_app. lia.
Qed.

Lemma sub_tokenize_loop (tokenizer : Tokenizer) (rest : list (list N)) (k : Z)
  (t2o o2t t2o' o2t' : list Z) (all all' : list (list N)) :
  for_loop (λ '(tok_to_orig_index, orig_to_tok_index, all_doc_tokens) '(i, token),
    let orig_to_tok_index := orig_to_tok_index ++ [len all_doc_tokens] in
    sub_tokens ← tokenize tokenizer token;
    let '(tok_to_orig_index, all_doc_tokens) :=
      foldl (λ '(tok_to_orig_index, all_doc_tokens) sub_token,
               (tok_to_orig_index ++ [i], all_doc_tokens ++ [sub_token]))
        (tok_to_orig_index, all_doc_tokens) sub_tokens in
    Ok (tok_to_orig_index, orig_to_tok_index, all_doc_tokens))
    ((λ '(i, x), (k + i, x)) <$> enumerate rest) (t2o, o2t, all)
  = Ok (t2o', o2t', all') →
  ∃ subs,
    Forall2 (λ tok sub, tokenize tokenizer tok = Ok sub) rest subs ∧
    all' = all ++ concat subs ∧
    t2o' = t2o ++ concat (index_blocks k subs) ∧
    o2t' = o2t ++ block_starts (len all) subs.
Proof.
  revert k t2o o2t all. induction rest as [|tok rest IH]; intros k t2o o2t all.
  - simpl. intros [= <- <- <-]. exists []. by rewrite !app_nil_r.
  - rewrite enumerate_cons, fmap_cons, for_loop_cons. intros H.
    apply bind_Ok in H as ([[t1 o1] a1] & Hstep & H).
    rewrite <- list_fmap_compose in H.
    rewrite (list_fmap_ext _ (λ '(i, x), (k + 1 + i, x))) in H
      by (intros ? [? ?] _; simpl; f_equal; lia).
    cbv zeta in Hstep. apply bind_Ok in Hstep as (sub & Hsub & Hstep).
    rewrite foldl_sub_tokens in Hstep. injection Hstep as <- <- <-.
    apply IH in H as (subs & Hsubs & -> & -> & ->).
    exists (sub :: subs). split_and!.
    + by constructor.
    + simpl. by rewrite <- app_assoc.
    + rewrite index_blocks_cons. simpl. rewrite Z.add_0_r.
      by rewrite <- app_assoc.
    + rewrite block_starts_cons, len_app. by rewrite <- app_assoc.
Qed.

Lemma concat_lookup_block {A : Type} (xss : list (list A)) (i j : nat)
  (xs : list A) :
  xss !! i = Some xs → (j < length xs)%nat →
  concat xss !! (length (concat (take i xss)) + j)%nat = xs !! j.
Proof.
  intros Hi Hj.
  assert (concat xss = concat (take i xss) ++ xs ++ concat (drop (S i) xss))
    as Heq.
  { rewrite <- (take_drop_middle xss i xs Hi) at 1. by rewrite concat_app. }
  rewrite Heq at 1. rewrite lookup_app_r by lia.
  replace (length (concat (take i xss)) + j - length (concat (take i xss)))%nat
    with j by lia.
  by rewrite lookup_app_l.
Qed.

Lemma index_blocks_lengths (k : Z) (subs : list (list (list N))) (i : nat) :
  length (concat (take i (index_blocks k subs)))
  = length (concat (take i subs)).
Proof.
  revert k i. induction subs as [|sub subs IH]; intros k i.
  - by destruct i.
  - rewrite index_blocks_cons. destruct i as [|i]; [done|]. simpl.
    by rewrite !length_app, length_replicate, IH.
Qed.

Lemma index_blocks_length (k : Z) (subs : list (list (list N))) :
  length (concat (index_blocks k subs)) = length (concat subs).
Proof.
  pose proof (index_blocks_lengths k subs (length subs)) as H.
  rewrite !firstn_all2 in H; [done|lia|].
  unfold index_blocks. by rewrite length_imap.
Qed.

(** X8. Sub-tokenization lays the sub-tokens of the words out in word
    order: [orig_to_tok_index[i]] is the position of the first sub-token of
    word [i], the sub-tokens of word [i] follow from there in
    [all_doc_tokens], and [tok_to_orig_index] maps each of their positions
    back to [i]. The two token tables have the same length, and
    [orig_to_tok_index] has one entry per word. *)
Theorem X8_sub_tokenize_alignment (tokenizer : Tokenizer)
  (doc_tokens : list (list N)) (tok_to_orig_index orig_to_tok_index : list Z)
  (all_doc_tokens : list (list N)) :
  sub_tokenize tokenizer doc_tokens
    = Ok (tok_to_orig_index, orig_to_tok_index, all_doc_tokens) →
  ∃ subs,
    Forall2 (λ tok sub, tokenize tokenizer tok = Ok sub) doc_tokens subs ∧
    all_doc_tokens = concat subs ∧
    length tok_to_orig_index = length all_doc_tokens ∧
    length orig_to_tok_index = length doc_tokens ∧
    ∀ (i : nat) sub, subs !! i = Some sub →
      orig_to_tok_index !! i = Some (len (concat (take i subs))) ∧
      ∀ (j : nat) sub_token, sub !! j = Some sub_token →
        all_doc_tokens !! (length (concat (take i subs)) + j)%nat
          = Some sub_token ∧
        tok_to_orig_index !! (length (concat (take i subs)) + j)%nat
          = Some (Z.of_nat i).
Proof.
  unfold sub_tokenize. intros H.
  rewrite <- (list_fmap_id (enumerate doc_tokens)) in H.
  rewrite (list_fmap_ext _ (λ '(i, x), (0 + i, x))) in H by (by intros ? [? ?] _).
  apply sub_tokenize_loop in H as (subs & Hsubs & -> & -> & ->).
  exists subs. simpl. split_and!; [done|done| | |].
  - apply index_blocks_length.
  - unfold block_starts. rewrite length_imap. symmetry. apply (Forall2_length Hsubs).
  - intros i sub Hi. split.
    + unfold block_starts. rewrite list_lookup_imap, Hi. simpl. f_equal.
    + intros j s Hj. pose proof (lookup_lt_Some _ _ _ Hj) as Hlt. split.
      * by rewrite (concat_lookup_block subs i j sub).
      * rewrite <- (index_blocks_lengths 0 subs i).
        rewrite (concat_lookup_block (index_blocks 0 subs) i j
                   (replicate (length sub) (Z.of_nat i))).
        -- by apply lookup_replicate_2.
        -- unfold index_blocks. rewrite list_lookup_imap, Hi. simpl.
           by rewrite Z.add_0_l.
        -- by rewrite length_replicate.
Qed.

Lemma X8_witness :
  ∃ subs,
    Forall2 (λ tok sub, tokenize bert_like tok = Ok sub)
      [str "a"; str "b c"; str ""; str "d"] subs ∧
    [str "a"; str "b"; str "c"; str "d"] = concat subs ∧
    length [0; 1; 1; 3] = length [str "a"; str "b"; str "c"; str "d"] ∧
    length [0; 1; 3; 3] = length [str "a"; str "b c"; str ""; str "d"] ∧
    ∀ (i : nat) sub, subs !! i = Some sub →
      [0; 1; 3; 3] !! i = Some (len (concat (take i subs))) ∧
      ∀ (j : nat) sub_token, sub !! j = Some sub_token →
        [str "a"; str "b"; str "c"; str "d"]
          !! (length (concat (take i subs)) + j)%nat = Some sub_token ∧
        [0; 1; 1; 3] !! (length (concat (take i subs)) + j)%nat
          = Some (Z.of_nat i).
Proof.
  exact (X8_sub_tokenize_alignment bert_like
           [str "a"; str "b c"; str ""; str "d"] _ _ _ eq_refl).
Defined.

(** ** The windows of the sliding-window loop *)

Section WindowProperties.

Variable tokenizer : Tokenizer.
Variables max_seq_length doc_stride : Z.
Variable sequence_a_is_doc : bool.

(** The in-window position of the [i]-th passage sub-token of a window. *)
Definition window_index (truncated_query : list Z) (i : Z) : Z :=
  if negb sequence_a_is_doc
  then len truncated_query + sequence_added_tokens tokenizer + i
  else i.

Lemma window_index_inj (truncated_query : list Z) (i j : Z) :
  window_index truncated_query i = window_index truncated_query j → i = j.
Proof. unfold window_index. destruct (negb sequence_a_is_doc); lia. Qed.

(** The loop that fills [token_to_orig_map]. *)
Definition token_map_loop (tok_to_orig_index truncated_query : list Z)
  (start : Z) (l : list Z) (m : gmap Z Z) : result (gmap Z Z) :=
  for_loop (λ (token_to_orig_map : gmap Z Z) i,
    let index := if negb sequence_a_is_doc
                 then len truncated_query + sequence_added_tokens tokenizer + i
                 else i in
    orig ← py_index tok_to_orig_index (start + i);
    Ok (<[index := orig]> token_to_orig_map))
    l m.

Lemma token_map_loop_other (t2o tq : list Z) (start : Z) (l : list Z)
  (m m' : gmap Z Z) (key : Z) :
  token_map_loop t2o tq start l m = Ok m' →
  (∀ i, i ∈ l → window_index tq i ≠ key) →
  m' !! key = m !! key.
Proof.
  unfold token_map_loop. revert m.
  induction l as [|i l IH]; intros m; simpl.
  - by intros [= <-].
  - intros H Hkey. apply bind_Ok in H as (m1 & Hstep & H).
    apply bind_Ok in Hstep as (orig & _ & [= <-]).
    rewrite (IH _ H) by (intros j Hj; apply Hkey; by apply elem_of_cons; right).
    apply lookup_insert_ne. apply (Hkey i). by apply elem_of_cons; left.
Qed.

Lemma token_map_loop_lookup (t2o tq : list Z) (start : Z) (l : list Z)
  (m m' : gmap Z Z) (i : Z) :
  token_map_loop t2o tq start l m = Ok m' → NoDup l → i ∈ l →
  ∃ orig, py_index t2o (start + i) = Ok orig ∧
          m' !! window_index tq i = Some orig.
Proof.
  unfold token_map_loop. revert m.
  induction l as [|i0 l IH]; intros m; simpl.
  - intros _ _ Hi. by apply elem_of_nil in Hi.
  - intros H Hnd Hi. apply bind_Ok in H as (m1 & Hstep & H).
    apply bind_Ok in Hstep as (orig & Horig & [= <-]).
    apply list.NoDup_cons in Hnd as [Hnotin Hnd].
    apply elem_of_cons in Hi as [->|Hi]; [|by apply (IH _ H)].
    exists orig. split; [done|].
    rewrite (token_map_loop_other t2o tq start l _ m' _ H).
    + apply lookup_insert_eq.
    + intros j Hj Heq. apply window_index_inj in Heq. by subst j.
Qed.

(** What the loop records for the window number [k]. *)
Definition window_shape (all_doc_tokens : list (list N))
  (tok_to_orig_index truncated_query : list Z) (k : Z) (span : Span.t) : Prop :=
  k * doc_stride < len all_doc_tokens ∧
  Span.start span = k * doc_stride ∧
  Span.length span
    = Z.min (len all_doc_tokens - k * doc_stride)
            (max_seq_length - len truncated_query
             - sequence_pair_added_tokens tokenizer) ∧
  Span.paragraph_len span = Span.length span ∧
  Span.truncated_query_with_special_tokens_length span
    = len truncated_query + sequence_added_tokens tokenizer ∧
  Span.token_is_max_context span = ∅ ∧
  (∃ non_padded_ids,
     non_padded tokenizer (Span.input_ids span) = Ok non_padded_ids ∧
     convert_ids_to_tokens tokenizer non_padded_ids = Ok (Span.tokens span)) ∧
  (∀ i, 0 ≤ i < Span.paragraph_len span →
     ∃ orig, py_index tok_to_orig_index (Span.start span + i) = Ok orig ∧
             Span.token_to_orig_map span !! window_index truncated_query i
             = Some orig) ∧
  (∀ key orig, Span.token_to_orig_map span !! key = Some orig →
     ∃ i, 0 ≤ i < Span.paragraph_len span ∧
          key = window_index truncated_query i).

Lemma build_spans_shape (fuel : nat) (all_doc_tokens : list (list N))
  (tok_to_orig_index truncated_query : list Z) (spans spans' : list Span.t)
  (span_doc_tokens : token_seq) :
  build_spans tokenizer max_seq_length doc_stride sequence_a_is_doc fuel
    all_doc_tokens tok_to_orig_index truncated_query spans span_doc_tokens
  = Ok spans' →
  ∃ new, spans' = spans ++ new ∧
    ∀ (j : nat) span, new !! j = Some span →
      window_shape all_doc_tokens tok_to_orig_index truncated_query
        (len spans + Z.of_nat j) span.
Proof.
  revert spans span_doc_tokens.
  induction fuel as [|fuel IH]; intros spans sdt; simpl.
  - destruct (Z.ltb_spec (len spans * doc_stride) (len all_doc_tokens)); [done|].
    intros [= <-]. exists []. rewrite app_nil_r. split; [done|].
    intros j span Hj. by rewrite lookup_nil in Hj.
  - destruct (Z.ltb_spec (len spans * doc_stride) (len all_doc_tokens))
      as [Hcond|Hcond].
    2:{ intros [= <-]. exists []. rewrite app_nil_r. split; [done|].
        intros j span Hj. by rewrite lookup_nil in Hj. }
    intros H. apply bind_Ok in H as (enc & _ & H).
    apply bind_Ok in H as (ids & Hids & H).
    apply bind_Ok in H as (toks & Htoks & H).
    apply bind_Ok in H as (m & Hm & H).
    fold (token_map_loop tok_to_orig_index truncated_query
            (len spans * doc_stride)
            (range 0 (Z.min (len all_doc_tokens - len spans * doc_stride)
                        (max_seq_length - len truncated_query
                         - sequence_pair_added_tokens tokenizer))) ∅) in Hm.
    set (plen := Z.min (len all_doc_tokens - len spans * doc_stride)
                   (max_seq_length - len truncated_query
                    - sequence_pair_added_tokens tokenizer)) in *.
    match type of H with
    | match _ with Some _ => build_spans _ _ _ _ _ _ _ _ (_ ++ [?s]) _ | None => _ end = _ =>
        set (span := s) in *
    end.
    assert (window_shape all_doc_tokens tok_to_orig_index truncated_query
              (len spans) span) as Hshape.
    { unfold window_shape, span. simpl. split_and!; try done.
      - by exists ids.
      - intros i Hi.
        apply (token_map_loop_lookup _ _ _ _ _ _ i Hm).
        + unfold range. apply NoDup_seqZ.
        + apply elem_of_range. lia.
      - intros key orig Hkey.
        destruct (decide (key ∈ window_index truncated_query <$> range 0 plen))
          as [Hin|Hno].
        + apply list_elem_of_fmap in Hin as (i & -> & Hi).
          exists i. split; [|done]. apply elem_of_range in Hi. lia.
        + rewrite (token_map_loop_other _ _ _ _ _ _ key Hm) in Hkey; [done|].
          intros i Hi Heq. apply Hno. apply list_elem_of_fmap. by exists i. }
    assert (∃ new, spans ++ [span] = spans ++ new ∧
              ∀ (j : nat) sp, new !! j = Some sp →
                window_shape all_doc_tokens tok_to_orig_index truncated_query
                  (len spans + Z.of_nat j) sp) as Hone.
    { exists [span]. split; [done|]. intros [|j] sp Hj; [|done].
      injection Hj as <-. by rewrite Z.add_0_r. }
    destruct (Encoded.overflowing_tokens enc) as [overflow|].
    + apply IH in H as (new & -> & Hnew).
      exists (span :: new). split; [by rewrite <- app_assoc|].
      intros [|j] sp Hj.
      * injection Hj as <-. by rewrite Z.add_0_r.
      * specialize (Hnew j sp Hj). rewrite len_app in Hnew.
        change (len [span]) with 1 in Hnew.
        by replace (len spans + Z.of_nat (S j))
             with (len spans + 1 + Z.of_nat j) by lia.
    + by injection H as <-.
Qed.

(** X9. The [k]-th window of the sliding-window loop starts at sub-token
    [k * doc_stride], which lies inside the passage, and its length is the
    smaller of the number of sub-tokens left from there and the room a
    sequence leaves beside the question:
    [max_seq_length - len(truncated_query) - sequence_pair_added_tokens]. *)
Theorem X9_window_start_and_length (fuel : nat) (all_doc_tokens : list (list N))
  (tok_to_orig_index truncated_query : list Z) (spans : list Span.t)
  (span_doc_tokens : token_seq) (k : nat) (span : Span.t) :
  build_spans tokenizer max_seq_length doc_stride sequence_a_is_doc fuel
    all_doc_tokens tok_to_orig_index truncated_query [] span_doc_tokens
  = Ok spans →
  spans !! k = Some span →
  Span.start span = Z.of_nat k * doc_stride ∧
  Span.start span < len all_doc_tokens ∧
  Span.length span
    = Z.min (len all_doc_tokens - Span.start span)
            (max_seq_length - len truncated_query
             - sequence_pair_added_tokens tokenizer) ∧
  Span.paragraph_len span = Span.length span.
Proof.
  intros H Hk. apply build_spans_shape in H as (new & -> & Hnew).
  destruct (Hnew k span Hk) as (Hlt & Hs & Hl & Hp & _).
  change (len [] + Z.of_nat k) with (Z.of_nat k) in *.
  rewrite Hs. split_and!; done.
Qed.

(** X10. [token_to_orig_map] of a window holds exactly one entry per
    passage sub-token of the window: the in-window position of the [i]-th
    one (after the question and its special tokens, unless the passage
    comes first) is mapped to [tok_to_orig_index[start + i]]. *)
Theorem X10_token_to_orig_map_entries (fuel : nat)
  (all_doc_tokens : list (list N))
  (tok_to_orig_index truncated_query : list Z) (spans : list Span.t)
  (span_doc_tokens : token_seq) (k : nat) (span : Span.t) :
  build_spans tokenizer max_seq_length doc_stride sequence_a_is_doc fuel
    all_doc_tokens tok_to_orig_index truncated_query [] span_doc_tokens
  = Ok spans →
  spans !! k = Some span →
  (∀ i, 0 ≤ i < Span.paragraph_len span →
     ∃ orig, py_index tok_to_orig_index (Span.start span + i) = Ok orig ∧
             Span.token_to_orig_map span !! window_index truncated_query i
             = Some orig) ∧
  (∀ key orig, Span.token_to_orig_map span !! key = Some orig →
     ∃ i, 0 ≤ i < Span.paragraph_len span ∧
          key = window_index truncated_query i).
Proof.
  intros H Hk. apply build_spans_shape in H as (new & -> & Hnew).
  by destruct (Hnew k span Hk) as (_ & _ & _ & _ & _ & _ & _ & ? & ?).
Qed.

End WindowProperties.

(** ** The max-context marks *)

Section MarkProperties.

Variable doc_stride : Z.
Variable sequence_a_is_doc : bool.

(** The key under which the mark of the [j]-th passage sub-token of a
    window is stored. *)
Definition mark_index (span : Span.t) (j : Z) : Z :=
  if sequence_a_is_doc then j
  else Span.truncated_query_with_special_tokens_length span + j.

(** [span'] is [span] but for its marks. *)
Definition remarked (span span' : Span.t) : Prop :=
  span' = Span.set_token_is_max_context span (Span.token_is_max_context span').

Lemma remarked_refl (span : Span.t) : remarked span span.
Proof. by destruct span. Qed.

Lemma remarked_trans (s1 s2 s3 : Span.t) :
  remarked s1 s2 → remarked s2 s3 → remarked s1 s3.
Proof. unfold remarked. intros -> ->. by destruct s1. Qed.

Lemma remarked_set (span : Span.t) (m : gmap Z bool) :
  remarked span (Span.set_token_is_max_context span m).
Proof. by destruct span. Qed.

Lemma mark_index_remarked (s s' : Span.t) (j : Z) :
  remarked s s' → mark_index s' j = mark_index s j.
Proof. unfold remarked. intros ->. by destruct s. Qed.

Lemma mark_index_inj (s : Span.t) (i j : Z) :
  mark_index s i = mark_index s j → i = j.
Proof. unfold mark_index. destruct sequence_a_is_doc; lia. Qed.

Lemma Forall2_remarked_refl (spans : list Span.t) : Forall2 remarked spans spans.
Proof. induction spans; constructor; auto using remarked_refl. Qed.

Lemma Forall2_remarked_trans (l1 l2 l3 : list Span.t) :
  Forall2 remarked l1 l2 → Forall2 remarked l2 l3 → Forall2 remarked l1 l3.
Proof.
  intros H. revert l3. induction H as [|x y l l' Hxy _ IH]; intros l3 H3.
  - by apply Forall2_nil_inv_l in H3 as ->.
  - apply Forall2_cons_inv_l in H3 as (z & l3' & Hyz & H3 & ->).
    constructor; [by eapply remarked_trans|by apply IH].
Qed.

Lemma new_check_remarked (spans spans' : list Span.t) (cur_span_index position : Z) :
  Forall2 remarked spans spans' →
  _new_check_is_max_context spans' cur_span_index position
  = _new_check_is_max_context spans cur_span_index position.
Proof.
  intros H. rewrite <- !check_is_max_context_doc_span_of. f_equal.
  induction H as [|s s' l l' Hs _ IH]; [done|].
  rewrite !fmap_cons, IH. f_equal. unfold remarked in Hs. rewrite Hs.
  by destruct s.
Qed.

(** The inner loop, over the positions of one window. *)
Definition mark_window (doc_span_index : Z) (l : list Z) (spans : list Span.t)
  : result (list Span.t) :=
  for_loop (λ spans j,
    is_max_context ← _new_check_is_max_context spans doc_span_index
                       (doc_span_index * doc_stride + j);
    span ← py_index spans doc_span_index;
    let index :=
      if sequence_a_is_doc then j
      else Span.truncated_query_with_special_tokens_length span + j in
    py_setitem spans doc_span_index
      (Span.set_token_is_max_context span
         (<[index := is_max_context]> (Span.token_is_max_context span))))
    l spans.

(** The outer loop, over the windows. *)
Definition mark_windows (l : list Z) (spans : list Span.t) : result (list Span.t) :=
  for_loop (λ spans doc_span_index,
    span ← py_index spans doc_span_index;
    mark_window doc_span_index (range 0 (Span.paragraph_len span)) spans)
    l spans.

Lemma mark_max_context_unfold (spans : list Span.t) :
  mark_max_context doc_stride sequence_a_is_doc spans
  = mark_windows (range 0 (len spans)) spans.
Proof. reflexivity. Qed.

Lemma mark_window_spec (d : Z) (l : list Z) (spans spans' : list Span.t) :
  0 ≤ d →
  mark_window d l spans = Ok spans' →
  Forall2 remarked spans spans' ∧
  (∀ k, k ≠ Z.to_nat d → spans' !! k = spans !! k) ∧
  (∀ s s', spans !! Z.to_nat d = Some s → spans' !! Z.to_nat d = Some s' →
     (∀ key, key ∉ mark_index s <$> l →
        Span.token_is_max_context s' !! key = Span.token_is_max_context s !! key) ∧
     (NoDup l → ∀ j, j ∈ l →
        ∃ b, _new_check_is_max_context spans d (d * doc_stride + j) = Ok b ∧
             Span.token_is_max_context s' !! mark_index s j = Some b)).
Proof.
  intros Hd. unfold mark_window. revert spans.
  induction l as [|j0 l IH]; intros spans; simpl.
  - intros [= <-]. split_and!; [apply Forall2_remarked_refl|done|].
    intros s s' Hs Hs'. rewrite Hs in Hs'. injection Hs' as <-.
    split; [done|]. intros _ j Hj. by apply elem_of_nil in Hj.
  - intros H. apply bind_Ok in H as (spans1 & Hstep & H).
    apply bind_Ok in Hstep as (b0 & Hb0 & Hstep).
    apply bind_Ok in Hstep as (span & Hspan & Hstep).
    apply py_index_Ok in Hspan as [_ Hspan].
    apply py_setitem_Ok in Hstep as [_ ->].
    rewrite (proj2 (Z.ltb_ge d 0)) in * by lia.
    fold (mark_index span j0) in *.
    set (span1 := Span.set_token_is_max_context span
                    (<[mark_index span j0 := b0]> (Span.token_is_max_context span))) in *.
    assert (Forall2 remarked spans (<[Z.to_nat d := span1]> spans)) as Hrem.
    { rewrite <- (list_insert_id spans (Z.to_nat d) span) at 1 by done.
      apply Forall2_insert; [apply Forall2_remarked_refl|apply remarked_set]. }
    destruct (IH _ H) as (Hrem' & Hother & Hd').
    split_and!.
    + by eapply Forall2_remarked_trans.
    + intros k Hk. rewrite (Hother k Hk). by apply list_lookup_insert_ne.
    + intros s s' Hs Hs'. rewrite Hspan in Hs. injection Hs as <-.
      assert ((<[Z.to_nat d := span1]> spans) !! Z.to_nat d = Some span1) as Hs1.
      { apply list_lookup_insert_eq. by eapply lookup_lt_Some. }
      destruct (Hd' span1 s' Hs1 Hs') as [Hkeep Hset].
      assert (∀ j, mark_index span1 j = mark_index span j) as Hmi.
      { intros j. apply mark_index_remarked, remarked_set. }
      assert (∀ key, key ∉ mark_index span <$> l →
                Span.token_is_max_context s' !! key
                = (<[mark_index span j0 := b0]> (Span.token_is_max_context span)) !! key)
        as Hkeep1.
      { intros key Hkey. rewrite Hkeep.
        - unfold span1. by destruct span.
        - intros Hin. apply Hkey. apply list_elem_of_fmap in Hin as (j & -> & Hj).
          apply list_elem_of_fmap. exists j. by rewrite Hmi. }
      split.
      * intros key Hkey.
        apply not_elem_of_cons in Hkey as [Hne Hkey].
        rewrite (Hkeep1 key Hkey). by apply lookup_insert_ne.
      * intros Hnd j Hj. apply list.NoDup_cons in Hnd as [Hnotin Hnd].
        apply elem_of_cons in Hj as [->|Hj].
        -- exists b0. split; [done|]. rewrite Hkeep1; [apply lookup_insert_eq|].
           intros Hin. apply list_elem_of_fmap in Hin as (j & Heq & Hj).
           apply mark_index_inj in Heq. by subst j.
        -- destruct (Hset Hnd j Hj) as (b & Hb & Hm). exists b.
           rewrite (new_check_remarked _ _ _ _ Hrem) in Hb. by rewrite <- Hmi.
Qed.

Lemma mark_windows_spec (l : list Z) (spans spans' : list Span.t) :
  Forall (λ d, 0 ≤ d) l →
  mark_windows l spans = Ok spans' →
  Forall2 remarked spans spans' ∧
  (∀ k, Z.of_nat k ∉ l → spans' !! k = spans !! k) ∧
  (NoDup l → ∀ d, d ∈ l →
     ∀ s s', spans !! Z.to_nat d = Some s → spans' !! Z.to_nat d = Some s' →
       (∀ key, key ∉ mark_index s <$> range 0 (Span.paragraph_len s) →
          Span.token_is_max_context s' !! key = Span.token_is_max_context s !! key) ∧
       (∀ j, 0 ≤ j < Span.paragraph_len s →
          ∃ b, _new_check_is_max_context spans d (d * doc_stride + j) = Ok b ∧
               Span.token_is_max_context s' !! mark_index s j = Some b)).
Proof.
  unfold mark_windows. revert spans.
  induction l as [|d0 l IH]; intros spans Hpos; simpl.
  - intros [= <-]. split_and!; [apply Forall2_remarked_refl|done|].
    intros _ d Hd. by apply elem_of_nil in Hd.
  - intros H. apply list.Forall_cons in Hpos as [Hd0 Hpos].
    apply bind_Ok in H as (spans1 & Hstep & H).
    apply bind_Ok in Hstep as (span & Hspan & Hstep).
    apply py_index_Ok in Hspan as [_ Hspan].
    rewrite (proj2 (Z.ltb_ge d0 0)) in Hspan by lia.
    destruct (mark_window_spec _ _ _ _ Hd0 Hstep) as (Hrem1 & Hother1 & Hd1).
    destruct (IH _ Hpos H) as (Hrem & Hother & Hin).
    split_and!.
    + by eapply Forall2_remarked_trans.
    + intros k Hk. apply not_elem_of_cons in Hk as [Hne Hk].
      rewrite (Hother k Hk). apply Hother1. lia.
    + intros Hnd d Hd s s' Hs Hs'.
      apply list.NoDup_cons in Hnd as [Hnotin Hnd].
      apply elem_of_cons in Hd as [->|Hd].
      * rewrite Hspan in Hs. injection Hs as <-.
        rewrite Hother in Hs' by (by rewrite Z2Nat.id).
        destruct (Hd1 span s' Hspan Hs') as [Hkeep Hset]. split; [done|].
        intros j Hj. apply Hset; [apply NoDup_seqZ|]. apply elem_of_range. lia.
      * assert (0 ≤ d) as Hd'.
        { eapply (proj1 (list.Forall_forall _ _) Hpos). done. }
        assert (d ≠ d0) as Hne by (by intros ->).
        rewrite <- (Hother1 (Z.to_nat d)) in Hs by lia.
        destruct (Hin Hnd d Hd s s' Hs Hs') as [Hkeep Hset]. split; [done|].
        intros j Hj. destruct (Hset j Hj) as (b & Hb & Hm). exists b.
        by rewrite (new_check_remarked _ _ _ _ Hrem1) in Hb.
Qed.

Lemma mark_max_context_spec (spans spans' : list Span.t) :
  mark_max_context doc_stride sequence_a_is_doc spans = Ok spans' →
  Forall2 remarked spans spans' ∧
  ∀ (k : nat) s s', spans !! k = Some s → spans' !! k = Some s' →
    (∀ key, key ∉ mark_index s <$> range 0 (Span.paragraph_len s) →
       Span.token_is_max_context s' !! key = Span.token_is_max_context s !! key) ∧
    (∀ j, 0 ≤ j < Span.paragraph_len s →
       ∃ b, _new_check_is_max_context spans (Z.of_nat k)
              (Z.of_nat k * doc_stride + j) = Ok b ∧
            Span.token_is_max_context s' !! mark_index s j = Some b).
Proof.
  rewrite mark_max_context_unfold. intros H.
  apply mark_windows_spec in H as (Hrem & _ & Hin).
  2:{ apply list.Forall_forall. intros d Hd. apply elem_of_range in Hd. lia. }
  split; [done|]. intros k s s' Hs Hs'.
  apply (Hin (NoDup_seqZ _ _) (Z.of_nat k)).
  - apply elem_of_range. apply lookup_lt_Some in Hs. unfold len. lia.
  - by rewrite Nat2Z.id.
  - by rewrite Nat2Z.id.
Qed.

(** X11. The marking loop changes nothing of a window but its
    [token_is_max_context] dictionary: the windows stay as many, and each
    keeps its ids, masks, tokens, map, start and length. *)
Theorem X11_marking_keeps_the_windows (spans spans' : list Span.t) :
  mark_max_context doc_stride sequence_a_is_doc spans = Ok spans' →
  Forall2 (λ span span',
             span' = Span.set_token_is_max_context span
                       (Span.token_is_max_context span'))
    spans spans'.
Proof. intros H. by apply mark_max_context_spec in H as [H _]. Qed.

(** X12. After the marking loop, window [k] holds a mark for each of its
    [paragraph_len] passage positions: position [j] is marked with the
    answer of [_new_check_is_max_context] for window [k] and the passage
    position [k * doc_stride + j], and no other key of the dictionary
    changes. *)
Theorem X12_marks_are_the_max_context_checks (spans spans' : list Span.t)
  (k : nat) (span span' : Span.t) :
  mark_max_context doc_stride sequence_a_is_doc spans = Ok spans' →
  spans !! k = Some span →
  spans' !! k = Some span' →
  (∀ j, 0 ≤ j < Span.paragraph_len span →
     ∃ is_max_context,
       _new_check_is_max_context spans (Z.of_nat k)
         (Z.of_nat k * doc_stride + j) = Ok is_max_context ∧
       Span.token_is_max_context span' !! mark_index span j
       = Some is_max_context) ∧
  (∀ key, (∀ j, 0 ≤ j < Span.paragraph_len span → key ≠ mark_index span j) →
     Span.token_is_max_context span' !! key
     = Span.token_is_max_context span !! key).
Proof.
  intros H Hs Hs'. apply mark_max_context_spec in H as [_ H].
  destruct (H k span span' Hs Hs') as [Hkeep Hset]. split; [done|].
  intros key Hkey. apply Hkeep. intros Hin.
  apply list_elem_of_fmap in Hin as (j & -> & Hj). apply elem_of_range in Hj.
  apply (Hkey j); [lia|done].
Qed.

End MarkProperties.

(** ** A sample run of the window loops *)

Definition demo_tokens : list pystr := split_whitespace demo_context.
Definition demo_query : list Z := [1119; 1120].

Abbreviation demo_build :=
  (build_spans bert_like 10 2 false 20 demo_tokens (range 0 8) demo_query []
     (Tokens demo_tokens)).

Definition demo_built : list Span.t :=
  Eval vm_compute in
    match demo_build with
    | Ok spans => spans
    | _ => []
    end.

Lemma demo_build_run : demo_build = Ok demo_built.
Proof. vm_compute. reflexivity. Qed.

Lemma X9_witness :
  ∃ span, demo_built !! 1%nat = Some span ∧
    (Span.start span = Z.of_nat 1 * 2 ∧
     Span.start span < len demo_tokens ∧
     Span.length span
       = Z.min (len demo_tokens - Span.start span)
               (10 - len demo_query - sequence_pair_added_tokens bert_like) ∧
     Span.paragraph_len span = Span.length span).
Proof.
  eexists. split; [reflexivity|].
  apply (X9_window_start_and_length bert_like 10 2 false 20 demo_tokens
           (range 0 8) demo_query demo_built (Tokens demo_tokens) 1 _
           demo_build_run).
  reflexivity.
Defined.

Lemma X10_witness :
  ∃ span, demo_built !! 1%nat = Some span ∧
    ((∀ i, 0 ≤ i < Span.paragraph_len span →
        ∃ orig, py_index (range 0 8) (Span.start span + i) = Ok orig ∧
                Span.token_to_orig_map span !! window_index bert_like false demo_query i
                = Some orig) ∧
     (∀ key orig, Span.token_to_orig_map span !! key = Some orig →
        ∃ i, 0 ≤ i < Span.paragraph_len span ∧
             key = window_index bert_like false demo_query i)).
Proof.
  eexists. split; [reflexivity|].
  apply (X10_token_to_orig_map_entries bert_like 10 2 false 20 demo_tokens
           (range 0 8) demo_query demo_built (Tokens demo_tokens) 1 _
           demo_build_run).
  reflexivity.
Defined.

Abbreviation demo_mark := (mark_max_context 2 false demo_built).

Definition demo_marked : list Span.t :=
  Eval vm_compute in
    match demo_mark with
    | Ok spans => spans
    | _ => []
    end.

Lemma demo_mark_run : demo_mark = Ok demo_marked.
Proof. vm_compute. reflexivity. Qed.

Lemma X11_witness :
  Forall2 (λ span span',
             span' = Span.set_token_is_max_context span
                       (Span.token_is_max_context span'))
    demo_built demo_marked.
Proof. exact (X11_marking_keeps_the_windows 2 false _ _ demo_mark_run). Defined.

Lemma X12_witness :
  ∃ span span', demo_built !! 1%nat = Some span ∧
    demo_marked !! 1%nat = Some span' ∧
    ((∀ j, 0 ≤ j < Span.paragraph_len span →
        ∃ is_max_context,
          _new_check_is_max_context demo_built (Z.of_nat 1) (Z.of_nat 1 * 2 + j)
            = Ok is_max_context ∧
          Span.token_is_max_context span' !! mark_index false span j
          = Some is_max_context) ∧
     (∀ key, (∀ j, 0 ≤ j < Span.paragraph_len span →
                key ≠ mark_index false span j) →
        Span.token_is_max_context span' !! key
        = Span.token_is_max_context span !! key)).
Proof.
  eexists _, _. split; [reflexivity|]. split; [reflexivity|].
  apply (X12_marks_are_the_max_context_checks 2 false demo_built demo_marked 1 _ _
           demo_mark_run); reflexivity.
Defined.

(** ** The feature records of a conversion *)

Section FeatureProperties.

Variable whitespace_tokenize : list N → list (list N).
Variable tokenizer : Tokenizer.
Variables max_seq_length doc_stride max_query_length : Z.
Variables is_training sequence_a_is_doc : bool.

Local Abbreviation training_filter :=
  (training_filter whitespace_tokenize is_training).
Local Abbreviation make_p_mask := (make_p_mask tokenizer sequence_a_is_doc).
Local Abbreviation answer_positions :=
  (answer_positions tokenizer is_training sequence_a_is_doc).
Local Abbreviation span_features :=
  (span_features tokenizer is_training sequence_a_is_doc).
Local Abbreviation example_spans :=
  (example_spans tokenizer max_seq_length doc_stride max_query_length
     is_training sequence_a_is_doc).
Local Abbreviation squad_convert_examples_to_features :=
  (squad_convert_examples_to_features whitespace_tokenize tokenizer
     max_seq_length doc_stride max_query_length is_training sequence_a_is_doc).
Local Abbreviation emitted :=
  (emitted whitespace_tokenize tokenizer max_seq_length doc_stride
     max_query_length is_training sequence_a_is_doc).
Local Abbreviation window_index := (window_index tokenizer sequence_a_is_doc).

(** The fields a record copies from its window. *)
Lemma span_features_window (example_index : Z) (example : SquadExample)
  (tok_span : option (Z * Z)) (truncated_query : list Z) (unique_id : Z)
  (span : Span.t) (f : SquadFeatures.t) :
  span_features example_index example tok_span truncated_query unique_id span
    = Ok f →
  SquadFeatures.attention_mask f = Span.attention_mask span ∧
  SquadFeatures.token_type_ids f = Span.token_type_ids span ∧
  SquadFeatures.paragraph_len f = Span.paragraph_len span ∧
  SquadFeatures.token_is_max_context f = Span.token_is_max_context span ∧
  SquadFeatures.tokens f = Span.tokens span ∧
  SquadFeatures.token_to_orig_map f = Span.token_to_orig_map span.
Proof.
  unfold span_features. intros H.
  apply bind_Ok in H as (cls_index & _ & H).
  apply bind_Ok in H as (p_mask & _ & H).
  apply bind_Ok in H as ([[start_position end_position] imp] & _ & H).
  by injection H as <-.
Qed.

(** The stages of [example_spans]. *)
Lemma example_spans_stages (fuel : nat) (example : SquadExample)
  (tok_span : option (Z * Z)) (truncated_query : list Z) (spans : list Span.t) :
  example_spans fuel example = Ok (tok_span, truncated_query, spans) →
  ∃ tok_to_orig_index orig_to_tok_index all_doc_tokens built,
    sub_tokenize tokenizer (doc_tokens example)
      = Ok (tok_to_orig_index, orig_to_tok_index, all_doc_tokens) ∧
    encode tokenizer (question_text example) max_query_length
      = Ok truncated_query ∧
    build_spans tokenizer max_seq_length doc_stride sequence_a_is_doc fuel
      all_doc_tokens tok_to_orig_index truncated_query []
      (Tokens all_doc_tokens) = Ok built ∧
    mark_max_context doc_stride sequence_a_is_doc built = Ok spans.
Proof.
  unfold example_spans. intros H.
  apply bind_Ok in H as ([[t2o o2t] all] & Hsub & H).
  apply bind_Ok in H as (ts & _ & H).
  apply bind_Ok in H as (tq & Htq & H).
  apply bind_Ok in H as (built & Hbuilt & H).
  apply bind_Ok in H as (marked & Hmarked & H).
  injection H as <- <- <-. by exists t2o, o2t, all, built.
Qed.

(** Where a record of the result comes from. *)
Lemma feature_origin (fuel : nat) (examples : list SquadExample)
  (features : list SquadFeatures.t) (f : SquadFeatures.t) :
  squad_convert_examples_to_features fuel examples = Ok features →
  f ∈ features →
  ∃ example tok_span truncated_query spans span unique_id,
    (SquadFeatures.example_index f, example) ∈ enumerate examples ∧
    training_filter example = Ok false ∧
    example_spans fuel example = Ok (tok_span, truncated_query, spans) ∧
    span ∈ spans ∧
    span_features (SquadFeatures.example_index f) example tok_span
      truncated_query unique_id span = Ok f.
Proof.
  intros H Hf. apply squad_convert_spec in H.
  destruct (emitted_origin _ _ _ _ _ _ _ _ _ _ _ f H Hf)
    as (i & ex & ts & tq & spans & span & uid & Hi & Hfilter & Hspans & Hspan & Hfeat).
  pose proof (span_features_fields _ _ _ _ _ _ _ _ _ _ Hfeat) as (_ & Hidx & _).
  rewrite Hidx. by exists ex, ts, tq, spans, span, uid.
Qed.

(** X13. In every record of a conversion, [token_to_orig_map] and
    [token_is_max_context] have the same keys: the in-window positions of
    the [paragraph_len] passage sub-tokens of the window, which follow the
    truncated question and its special tokens unless the passage comes
    first. *)
Theorem X13_record_dictionaries_share_their_keys (fuel : nat)
  (examples : list SquadExample) (features : list SquadFeatures.t)
  (f : SquadFeatures.t) :
  squad_convert_examples_to_features fuel examples = Ok features →
  f ∈ features →
  ∃ example truncated_query,
    (SquadFeatures.example_index f, example) ∈ enumerate examples ∧
    encode tokenizer (question_text example) max_query_length
      = Ok truncated_query ∧
    ∀ key,
      (is_Some (SquadFeatures.token_to_orig_map f !! key) ↔
       ∃ i, 0 ≤ i < SquadFeatures.paragraph_len f ∧
            key = window_index truncated_query i) ∧
      (is_Some (SquadFeatures.token_is_max_context f !! key) ↔
       ∃ i, 0 ≤ i < SquadFeatures.paragraph_len f ∧
            key = window_index truncated_query i).
Proof.
  intros H Hf.
  destruct (feature_origin _ _ _ _ H Hf)
    as (ex & ts & tq & spans & span & uid & Hex & _ & Hspans & Hspan & Hfeat).
  apply example_spans_stages in Hspans
    as (t2o & o2t & all & built & _ & Htq & Hbuilt & Hmark).
  exists ex, tq. split_and!; [done..|].
  apply span_features_window in Hfeat as (_ & _ & -> & -> & _ & ->).
  apply list_elem_of_lookup in Hspan as [k Hk].
  apply mark_max_context_spec in Hmark as [Hrem Hmarks].
  destruct (Forall2_lookup_r _ _ _ _ _ Hrem Hk) as (span0 & Hk0 & Hrem0).
  apply build_spans_shape in Hbuilt as (new & Heq & Hshape).
  rewrite app_nil_l in Heq. subst new.
  destruct (Hshape k span0 Hk0)
    as (_ & _ & _ & _ & Htqs & Hempty & _ & Hmap & Hkeys).
  destruct (Hmarks k span0 span Hk0 Hk) as [Hkeep Hset].
  assert (Span.paragraph_len span = Span.paragraph_len span0
          ∧ Span.token_to_orig_map span = Span.token_to_orig_map span0)
    as [-> ->] by (rewrite Hrem0; by destruct span0).
  assert (∀ j, mark_index sequence_a_is_doc span0 j = window_index tq j) as Hmi.
  { intros j. unfold mark_index, window_index. rewrite Htqs.
    by destruct sequence_a_is_doc. }
  intros key. split; split.
  - intros [orig Horig]. by apply Hkeys in Horig.
  - intros (i & Hi & ->). destruct (Hmap i Hi) as (orig & _ & Horig). by exists orig.
  - intros [b Hb].
    destruct (decide (key ∈ mark_index sequence_a_is_doc span0
                              <$> range 0 (Span.paragraph_len span0)))
      as [Hin|Hout].
    + apply list_elem_of_fmap in Hin as (i & -> & Hi). apply elem_of_range in Hi.
      exists i. split; [lia|apply Hmi].
    + rewrite (Hkeep key Hout), Hempty in Hb. by rewrite lookup_empty in Hb.
  - intros (i & Hi & ->). destruct (Hset i Hi) as (b & _ & Hb).
    exists b. by rewrite <- Hmi.
Qed.

(** X14. Outside training, and for an example flagged impossible, the
    records of the example carry the answer positions 0 and 0. *)
Theorem X14_no_answer_positions_without_training (fuel : nat)
  (examples : list SquadExample) (features : list SquadFeatures.t)
  (f : SquadFeatures.t) (example : SquadExample) :
  squad_convert_examples_to_features fuel examples = Ok features →
  f ∈ features →
  py_index examples (SquadFeatures.example_index f) = Ok example →
  is_training && negb (is_impossible example) = false →
  SquadFeatures.start_position f = 0 ∧ SquadFeatures.end_position f = 0.
Proof.
  intros H Hf Hex Hcond.
  destruct (feature_origin _ _ _ _ H Hf)
    as (ex & ts & tq & spans & span & uid & Hin & _ & _ & _ & Hfeat).
  apply elem_of_enumerate in Hin as [Hpos Hin].
  apply py_index_Ok in Hex as [_ Hex].
  rewrite (proj2 (Z.ltb_ge _ 0)) in Hex by lia.
  rewrite Hin in Hex. injection Hex as ->.
  apply span_features_fields in Hfeat as (_ & _ & _ & _ & _ & imp & Hpositions).
  unfold answer_positions in Hpositions. rewrite Hcond in Hpositions.
  by injection Hpositions as <- <- _.
Qed.

Lemma np_put_other (idx : list Z) (a a' : list Z) (v : Z) (i : nat) :
  np_put a idx v = Ok a' → Forall (λ j, 0 ≤ j) idx → Z.of_nat i ∉ idx →
  a' !! i = a !! i.
Proof.
  unfold np_put. revert a.
  induction idx as [|j idx IH]; intros a; simpl.
  - by intros [= <-].
  - intros H Hpos Hi. apply bind_Ok in H as (a1 & Hstep & H).
    apply list.Forall_cons in Hpos as [Hj Hpos].
    apply not_elem_of_cons in Hi as [Hne Hi].
    rewrite (IH _ H Hpos Hi).
    apply py_setitem_Ok in Hstep as [_ ->].
    rewrite (proj2 (Z.ltb_ge j 0)) by lia.
    apply list_lookup_insert_ne. lia.
Qed.

Lemma int64_wrap_bit (x : Z) : 0 ≤ x ≤ 1 → int64_wrap x = x.
Proof. intros H. assert (x = 0 ∨ x = 1) as [->| ->] by lia; reflexivity. Qed.

(** The mask away from the separators and the classification index. *)
Lemma make_p_mask_elsewhere (span : Span.t) (cls_index : Z) (p_mask : list Z)
  (i : nat) (t : Z) :
  0 ≤ cls_index →
  make_p_mask span cls_index = Ok p_mask →
  Span.token_type_ids span !! i = Some t → 0 ≤ t →
  Span.input_ids span !! i ≠ Some (sep_token_id tokenizer) →
  Z.of_nat i ≠ cls_index →
  p_mask !! i = Some (if sequence_a_is_doc then Z.min t 1 else 1 - Z.min t 1).
Proof.
  intros Hcls H Ht Hpos Hsep Hne. unfold make_p_mask in H.
  apply bind_Ok in H as (p3 & Hput & Hset).
  apply py_setitem_Ok in Hset as [_ ->].
  rewrite (proj2 (Z.ltb_ge cls_index 0)) by lia.
  rewrite list_lookup_insert_ne by lia.
  rewrite (np_put_other _ _ _ _ i Hput).
  - unfold np_one_minus, np_minimum_1.
    destruct sequence_a_is_doc; simpl.
    + by rewrite list_lookup_fmap, Ht.
    + rewrite !list_lookup_fmap, Ht. simpl. f_equal.
      destruct (forallb _ _); [|done]. apply int64_wrap_bit. lia.
  - apply list.Forall_forall. intros j Hj.
    by apply elem_of_np_where_eq in Hj as [? _].
  - intros Hin. apply elem_of_np_where_eq in Hin as [_ Hin].
    by rewrite Nat2Z.id in Hin.
Qed.

(** X15. Away from the separators and the classification index, the mask
    of a record follows the token types: a position of type [t >= 0] holds
    [1 - min(t, 1)] when the question comes first, so 0 on the second
    sequence and 1 on the first, and [min(t, 1)] when the passage comes
    first. *)
Theorem X15_p_mask_follows_token_types (fuel : nat)
  (examples : list SquadExample) (features : list SquadFeatures.t)
  (f : SquadFeatures.t) (i : nat) (t : Z) :
  squad_convert_examples_to_features fuel examples = Ok features →
  f ∈ features →
  SquadFeatures.token_type_ids f !! i = Some t →
  0 ≤ t →
  SquadFeatures.input_ids f !! i ≠ Some (sep_token_id tokenizer) →
  Z.of_nat i ≠ SquadFeatures.cls_index f →
  SquadFeatures.p_mask f !! i
  = Some (if sequence_a_is_doc then Z.min t 1 else 1 - Z.min t 1).
Proof.
  intros H Hf Ht Hpos Hsep Hne.
  destruct (feature_origin _ _ _ _ H Hf)
    as (ex & ts & tq & spans & span & uid & _ & _ & _ & _ & Hfeat).
  pose proof (span_features_window _ _ _ _ _ _ _ Hfeat) as (_ & Htt & _).
  apply span_features_fields in Hfeat as (_ & _ & Hids & Hcls & Hmask & _).
  apply list_index_Ok in Hcls as [Hcls _].
  rewrite Htt in Ht. rewrite Hids in Hsep.
  by apply (make_p_mask_elsewhere span (SquadFeatures.cls_index f) _ i t).
Qed.

(** The records of a run of the loop follow the order of the examples. *)
Lemma emitted_ordered (fuel : nat) (items : list (Z * SquadExample)) (base : Z)
  (new : list SquadFeatures.t) :
  emitted fuel items base new →
  (∀ (a b : nat) x y, items !! a = Some x → items !! b = Some y →
     (a ≤ b)%nat → x.1 ≤ y.1) →
  ∀ (a b : nat) fa fb, new !! a = Some fa → new !! b = Some fb → (a ≤ b)%nat →
    SquadFeatures.example_index fa ≤ SquadFeatures.example_index fb.
Proof.
  induction 1 as [base|i ex items base new Hskip Hrest IH
                 |i ex items base chunk new Hkeep Hchunk Hrest IH];
    intros Hsorted a b fa fb Ha Hb Hab.
  - by rewrite lookup_nil in Ha.
  - apply (IH (λ a b x y Hx Hy Hle,
                 Hsorted (S a) (S b) x y Hx Hy (le_n_S _ _ Hle)) a b); done.
  - assert (∀ k f, chunk !! k = Some f → SquadFeatures.example_index f = i)
      as Hin_chunk.
    { intros k f Hk. destruct Hchunk as (ts & tq & spans & _ & Hlen & Hall).
      destruct (lookup_lt_is_Some_2 spans k) as [span Hspan];
        [rewrite <- Hlen; by eapply lookup_lt_Some|].
      destruct (Hall k span Hspan) as (f' & Hf' & Hfeat).
      rewrite Hk in Hf'. injection Hf' as <-.
      by apply span_features_fields in Hfeat as (_ & ? & _). }
    assert (∀ k f, new !! k = Some f → i ≤ SquadFeatures.example_index f)
      as Hin_new.
    { intros k f Hk.
      destruct (emitted_origin _ _ _ _ _ _ _ _ _ _ _ f Hrest
                  (list_elem_of_lookup_2 _ _ _ Hk))
        as (j & ex' & ts & tq & spans & span & uid & Hj & _ & _ & _ & Hfeat).
      apply span_features_fields in Hfeat as (_ & -> & _).
      apply list_elem_of_lookup in Hj as [n Hn].
      apply (Hsorted 0%nat (S n) (i, ex) (j, ex')); [done|done|lia]. }
    destruct (decide (a < length chunk)%nat) as [Hla|Hla];
      destruct (decide (b < length chunk)%nat) as [Hlb|Hlb]; try lia.
    + rewrite lookup_app_l in Ha, Hb by done.
      rewrite (Hin_chunk _ _ Ha), (Hin_chunk _ _ Hb). lia.
    + rewrite lookup_app_l in Ha by done. rewrite lookup_app_r in Hb by lia.
      rewrite (Hin_chunk _ _ Ha). by eapply Hin_new.
    + rewrite lookup_app_r in Ha, Hb by lia.
      apply (IH (λ a b x y Hx Hy Hle,
                   Hsorted (S a) (S b) x y Hx Hy (le_n_S _ _ Hle))
               (a - length chunk)%nat (b - length chunk)%nat); [done|done|lia].
Qed.

(** X16. The records of a conversion follow the order of the examples:
    along the result, [example_index] never decreases. *)
Theorem X16_records_follow_example_order (fuel : nat)
  (examples : list SquadExample) (features : list SquadFeatures.t)
  (a b : nat) (fa fb : SquadFeatures.t) :
  squad_convert_examples_to_features fuel examples = Ok features →
  features !! a = Some fa →
  features !! b = Some fb →
  (a ≤ b)%nat →
  SquadFeatures.example_index fa ≤ SquadFeatures.example_index fb.
Proof.
  intros H. apply squad_convert_spec in H.
  apply (emitted_ordered _ _ _ _ H).
  intros a' b' [ia xa] [ib xb] Ha Hb Hab. unfold enumerate in Ha, Hb.
  rewrite list_lookup_imap in Ha, Hb.
  destruct (examples !! a'); [|done]. destruct (examples !! b'); [|done].
  injection Ha as <- _. injection Hb as <- _. simpl. lia.
Qed.

End FeatureProperties.

(** ** The conversion on the sample data *)

Lemma X13_witness :
  Forall (λ f,
    ∃ example truncated_query,
      (SquadFeatures.example_index f, example) ∈ enumerate demo_examples ∧
      encode bert_like (question_text example) 5 = Ok truncated_query ∧
      ∀ key,
        (is_Some (SquadFeatures.token_to_orig_map f !! key) ↔
         ∃ i, 0 ≤ i < SquadFeatures.paragraph_len f ∧
              key = window_index bert_like false truncated_query i) ∧
        (is_Some (SquadFeatures.token_is_max_context f !! key) ↔
         ∃ i, 0 ≤ i < SquadFeatures.paragraph_len f ∧
              key = window_index bert_like false truncated_query i))
    demo_features.
Proof.
  apply Forall_forall. intros f Hf. apply list_elem_of_In in Hf.
  exact (X13_record_dictionaries_share_their_keys split_whitespace bert_like
           10 2 5 true false 20 demo_examples demo_features f demo_run_bert Hf).
Defined.

(** The sample example converted for prediction. *)
Abbreviation demo_predict :=
  (squad_convert_examples_to_features split_whitespace bert_like 10 2 5 false
     false 20 [demo_example]).

Definition demo_predict_features : list SquadFeatures.t :=
  Eval vm_compute in
    match demo_predict with
    | Ok features => features
    | _ => []
    end.

Lemma demo_predict_run : demo_predict = Ok demo_predict_features.
Proof. vm_compute. reflexivity. Qed.

Lemma X14_witness :
  ∃ f, demo_predict_features !! 1%nat = Some f ∧
       (SquadFeatures.start_position f = 0 ∧ SquadFeatures.end_position f = 0).
Proof.
  eexists. split; [reflexivity|].
  apply (X14_no_answer_positions_without_training split_whitespace bert_like
           10 2 5 false false 20 [demo_example] demo_predict_features _
           demo_example demo_predict_run).
  - apply (list_elem_of_lookup_2 _ 1%nat). reflexivity.
  - reflexivity.
  - reflexivity.
Defined.

Lemma X15_witness :
  ∃ f, demo_features !! 0%nat = Some f ∧
       SquadFeatures.p_mask f !! 4%nat
       = Some (if false then Z.min 1 1 else 1 - Z.min 1 1).
Proof.
  eexists. split; [reflexivity|].
  apply (X15_p_mask_follows_token_types split_whitespace bert_like 10 2 5 true
           false 20 demo_examples demo_features _ 4 1 demo_run_bert).
  - apply (list_elem_of_lookup_2 _ 0%nat). reflexivity.
  - reflexivity.
  - lia.
  - discriminate.
  - discriminate.
Defined.

Lemma X16_witness :
  ∃ fa fb, demo_features !! 0%nat = Some fa ∧ demo_features !! 3%nat = Some fb ∧
           SquadFeatures.example_index fa ≤ SquadFeatures.example_index fb.
Proof.
  eexists _, _. split; [reflexivity|]. split; [reflexivity|].
  apply (X16_records_follow_example_order split_whitespace bert_like 10 2 5 true
           false 20 demo_examples demo_features 0 3 _ _ demo_run_bert);
    [reflexivity|reflexivity|lia].
Defined.

(** ** Reading without training *)

Lemma dev_loop_runs (only_first : option Z)
  (qs : list (list N * list N * Json.qa)) (examples : list SquadExample) :
  ∃ c, for_ctl (question_step false only_first) qs examples = Ok c.
Proof.
  revert examples. induction qs as [|q qs IH]; intros examples.
  - by exists (Next examples).
  - rewrite for_ctl_step_cons. destruct (question_example_dev q) as [e ->].
    destruct (over_limit only_first (examples ++ [e])); [|apply IH].
    by eexists.
Qed.

(** X17. Reading a corpus for any set type but "train" raises nothing:
    no answer is read, and the constructor only splits the context. *)
Theorem X17_reader_outside_training_never_raises (input_data : list Json.entry)
  (set_type : string) (only_first : option Z) :
  String.eqb set_type "train" = false →
  ∃ examples, _create_examples input_data set_type only_first = Ok examples.
Proof.
  intros Hdev. rewrite create_examples_flat, Hdev.
  destruct (dev_loop_runs only_first (questions input_data) []) as [c ->].
  destruct c; by eexists.
Qed.

Lemma X17_witness :
  ∃ examples, _create_examples demo_corpus "dev" (Some 1) = Ok examples.
Proof.
  apply (X17_reader_outside_training_never_raises demo_corpus "dev" (Some 1)).
  reflexivity.
Defined.

(** ** Termination of the window loop *)

(** The call comes back, with a value or an exception. *)
Definition halts {A : Type} (r : result A) : Prop :=
  match r with
  | OutOfFuel => False
  | _ => True
  end.

Lemma halts_bind {A B : Type} (m : result A) (f : A → result B) :
  halts m → (∀ a, m = Ok a → halts (f a)) → halts (m ≫= f).
Proof. destruct m; simpl; auto. Qed.

Lemma for_loop_halts {A S : Type} (body : S → A → result S) (l : list A) (s : S) :
  (∀ s x, halts (body s x)) → halts (for_loop body l s).
Proof.
  intros Hbody. revert s. induction l as [|x l IH]; intros s; simpl; [done|].
  apply halts_bind; auto.
Qed.

Lemma py_index_halts {A : Type} (l : list A) (i : Z) : halts (py_index l i).
Proof.
  unfold py_index. cbv zeta. destruct (_ && _); [|done]. by destruct (l !! _).
Qed.

Lemma list_index_halts (l : list Z) (x : Z) : halts (list_index l x).
Proof.
  unfold list_index. generalize 0. induction l as [|y l IH]; intros k; simpl; [done|].
  destruct (y =? x); [done|apply IH].
Qed.

Lemma non_padded_halts (tokenizer : Tokenizer) (ids : list Z) :
  halts (non_padded tokenizer ids).
Proof.
  unfold non_padded. destruct (bool_decide _); [|done].
  apply halts_bind; [apply list_index_halts|done].
Qed.

(** X18. With a positive stride the window loop is left after at most
    [len(all_doc_tokens)] rounds, provided the tokenizer's calls come
    back: the loop comes back with the windows or with an exception. *)
Theorem X18_window_loop_terminates (tokenizer : Tokenizer)
  (max_seq_length doc_stride : Z) (sequence_a_is_doc : bool) (fuel : nat)
  (all_doc_tokens : list (list N)) (tok_to_orig_index truncated_query : list Z)
  (spans : list Span.t) (span_doc_tokens : token_seq) :
  0 < doc_stride →
  len all_doc_tokens ≤ Z.of_nat fuel + len spans →
  (∀ a b max_length stride strategy,
     halts (encode_plus tokenizer a b max_length stride strategy)) →
  (∀ ids, halts (convert_ids_to_tokens tokenizer ids)) →
  halts (build_spans tokenizer max_seq_length doc_stride sequence_a_is_doc fuel
           all_doc_tokens tok_to_orig_index truncated_query spans
           span_doc_tokens).
Proof.
  intros Hstride Hfuel Hencode Hconvert. revert spans span_doc_tokens Hfuel.
  induction fuel as [|fuel IH]; intros spans sdt Hfuel; simpl.
  - pose proof (len_nonneg spans).
    destruct (Z.ltb_spec (len spans * doc_stride) (len all_doc_tokens)); [nia|done].
  - destruct (Z.ltb_spec (len spans * doc_stride) (len all_doc_tokens)); [|done].
    apply halts_bind; [apply Hencode|]. intros enc _.
    apply halts_bind; [apply non_padded_halts|]. intros ids _.
    apply halts_bind; [apply Hconvert|]. intros toks _.
    apply halts_bind.
    { apply for_loop_halts. intros m i.
      apply halts_bind; [apply py_index_halts|done]. }
    intros m _. destruct (Encoded.overflowing_tokens enc); [|done].
    apply IH. rewrite len_app. change (len [_]) with 1. lia.
Qed.

Lemma toy_encode_plus_halts (bos sep pad : Z) (a b : token_seq)
  (max_length stride : Z) (strategy : truncation_strategy) :
  halts (toy_encode_plus bos sep pad a b max_length stride strategy).
Proof.
  unfold toy_encode_plus. cbv zeta.
  destruct (_ <=? 0); [done|]. by destruct strategy.
Qed.

Lemma X18_witness :
  halts (build_spans bert_like 10 2 false 20 demo_tokens (range 0 8) demo_query
           [] (Tokens demo_tokens)).
Proof.
  apply (X18_window_loop_terminates bert_like 10 2 false 20 demo_tokens
           (range 0 8) demo_query [] (Tokens demo_tokens)).
  - lia.
  - vm_compute. discriminate.
  - intros. apply toy_encode_plus_halts.
  - intros. exact I.
Defined.

(** ** The tokens of a record *)

Lemma index_from_first (l : list Z) (x k i : Z) :
  index_from l x k = Ok i → x ∉ take (Z.to_nat (i - k)) l.
Proof.
  revert k. induction l as [|y l IH]; intros k; simpl; [done|].
  destruct (Z.eqb_spec y x) as [->|Hne].
  - intros [= <-]. rewrite Z.sub_diag. simpl. apply not_elem_of_nil.
  - intros H. pose proof (index_from_Ok _ _ _ _ H) as [Hk _].
    apply IH in H.
    replace (Z.to_nat (i - k)) with (S (Z.to_nat (i - (k + 1)))) by lia.
    simpl. apply not_elem_of_cons. split; [congruence|done].
Qed.

(** [non_padded] cuts the ids before the first padding id. *)
Lemma non_padded_spec (tokenizer : Tokenizer) (ids non_padded_ids : list Z) :
  non_padded tokenizer ids = Ok non_padded_ids →
  (pad_token_id tokenizer ∉ non_padded_ids) ∧
  ∃ rest, ids = non_padded_ids ++ rest ∧
          (rest = [] ∨ head rest = Some (pad_token_id tokenizer)).
Proof.
  unfold non_padded. destruct (bool_decide_reflect (pad_token_id tokenizer ∈ ids))
    as [Hin|Hout].
  - intros H. apply bind_Ok in H as (i & Hi & [= <-]).
    pose proof (index_from_first _ _ _ _ Hi) as Hfirst.
    apply list_index_Ok in Hi as [Hpos Hi].
    rewrite Z.sub_0_r in Hfirst.
    pose proof (lookup_lt_Some _ _ _ Hi) as Hlt.
    assert (py_slice ids 0 i = take (Z.to_nat i) ids) as ->.
    { unfold py_slice, slice_bound, len. cbv zeta.
      rewrite (proj2 (Z.ltb_ge 0 0)), (proj2 (Z.ltb_ge i 0)) by lia.
      rewrite Z.min_l, Z.min_l by lia. by rewrite Z.sub_0_r. }
    split; [done|]. exists (drop (Z.to_nat i) ids).
    split; [by rewrite take_drop|]. right.
    rewrite <- (take_drop_middle _ _ _ Hi) at 1.
    rewrite drop_app_length'; [done|]. rewrite length_take. lia.
  - intros [= <-]. split; [done|]. exists []. split; [by rewrite app_nil_r|by left].
Qed.

Section TokenProperties.

Variable whitespace_tokenize : list N → list (list N).
Variable tokenizer : Tokenizer.
Variables max_seq_length doc_stride max_query_length : Z.
Variables is_training sequence_a_is_doc : bool.

(** X19. The [tokens] of a record are the tokens of its [input_ids] up to
    the first padding id, or of all of them when none is the padding id. *)
Theorem X19_tokens_stop_at_first_padding (fuel : nat)
  (examples : list SquadExample) (features : list SquadFeatures.t)
  (f : SquadFeatures.t) :
  squad_convert_examples_to_features whitespace_tokenize tokenizer
    max_seq_length doc_stride max_query_length is_training sequence_a_is_doc
    fuel examples = Ok features →
  f ∈ features →
  ∃ non_padded_ids rest,
    SquadFeatures.input_ids f = non_padded_ids ++ rest ∧
    (pad_token_id tokenizer ∉ non_padded_ids) ∧
    (rest = [] ∨ head rest = Some (pad_token_id tokenizer)) ∧
    convert_ids_to_tokens tokenizer non_padded_ids = Ok (SquadFeatures.tokens f).
Proof.
  intros H Hf.
  destruct (feature_origin _ _ _ _ _ _ _ _ _ _ _ H Hf)
    as (ex & ts & tq & spans & span & uid & _ & _ & Hspans & Hspan & Hfeat).
  apply example_spans_stages in Hspans
    as (t2o & o2t & all & built & _ & _ & Hbuilt & Hmark).
  pose proof (span_features_window _ _ _ _ _ _ _ _ _ _ Hfeat)
    as (_ & _ & _ & _ & -> & _).
  apply span_features_fields in Hfeat as (_ & _ & -> & _).
  apply list_elem_of_lookup in Hspan as [k Hk].
  apply mark_max_context_spec in Hmark as [Hrem _].
  destruct (Forall2_lookup_r _ _ _ _ _ Hrem Hk) as (span0 & Hk0 & Hrem0).
  apply build_spans_shape in Hbuilt as (new & Heq & Hshape).
  rewrite app_nil_l in Heq. subst new.
  destruct (Hshape k span0 Hk0)
    as (_ & _ & _ & _ & _ & _ & (ids & Hids & Htoks) & _).
  assert (Span.input_ids span = Span.input_ids span0
          ∧ Span.tokens span = Span.tokens span0)
    as [-> ->] by (rewrite Hrem0; by destruct span0).
  apply non_padded_spec in Hids as (Hpad & rest & Hrest & Hhead).
  by exists ids, rest.
Qed.

End TokenProperties.

Lemma X19_witness :
  Forall (λ f,
    ∃ non_padded_ids rest,
      SquadFeatures.input_ids f = non_padded_ids ++ rest ∧
      (pad_token_id bert_like ∉ non_padded_ids) ∧
      (rest = [] ∨ head rest = Some (pad_token_id bert_like)) ∧
      convert_ids_to_tokens bert_like non_padded_ids
      = Ok (SquadFeatures.tokens f))
    demo_features.
Proof.
  apply Forall_forall. intros f Hf. apply list_elem_of_In in Hf.
  exact (X19_tokens_stop_at_first_padding split_whitespace bert_like 10 2 5 true
           false 20 demo_examples demo_features f demo_run_bert Hf).
Defined.

(** ** Refining an answer span twice *)

Lemma for_ctl_return_inv {A S R : Type} (body : S → A → result (ctl S R))
  (l : list A) (s : S) (r : R) :
  for_ctl body l s = Ok (Return r) →
  ∃ x s', x ∈ l ∧ body s' x = Ok (Return r).
Proof.
  revert s. induction l as [|x l IH]; intros s; simpl; [done|].
  intros H. apply bind_Ok in H as (c & Hc & H). destruct c as [s'|r'].
  - apply IH in H as (y & s'' & Hy & H). exists y, s''.
    split; [by apply elem_of_cons; right|done].
  - injection H as ->. exists x, s. split; [by apply elem_of_cons; left|done].
Qed.

Lemma range_head (a b : Z) : a < b → ∃ l, range a b = a :: l.
Proof.
  intros H. unfold range. replace (b - a) with (Z.succ (b - a - 1)) by lia.
  rewrite seqZ_cons by lia. eauto.
Qed.

Lemma range_down_head (a b : Z) : b < a → ∃ l, range_down a b = a :: l.
Proof.
  intros H. unfold range_down. replace (a - b) with (Z.succ (a - b - 1)) by lia.
  rewrite seqZ_cons by lia. rewrite fmap_cons, Z.sub_0_r. eauto.
Qed.

(** X20. [_improve_answer_span] is idempotent: refining the span it
    returned, against the same answer, returns that span again. *)
Theorem X20_improve_answer_span_idempotent (doc_tokens : list (list N))
  (input_start input_end : Z) (tokenizer : Tokenizer)
  (orig_answer_text : list N) (new_start new_end : Z) :
  _improve_answer_span doc_tokens input_start input_end tokenizer
    orig_answer_text = Ok (new_start, new_end) →
  _improve_answer_span doc_tokens new_start new_end tokenizer orig_answer_text
  = Ok (new_start, new_end).
Proof.
  intros H. unfold _improve_answer_span in H |- *.
  apply bind_Ok in H as (toks & Htok & H). rewrite Htok. simpl.
  apply bind_Ok in H as (found & Hfound & H).
  destruct found as [[]|span].
  { injection H as -> ->. by rewrite Hfound. }
  injection H as ->.
  apply for_ctl_return_inv in Hfound as (s & [] & _ & Hinner).
  apply for_ctl_return_inv in Hinner as (e & [] & He & Hbody).
  apply elem_of_range_down in He.
  case_bool_decide as Hmatch; [|done]. injection Hbody as -> ->.
  destruct (range_head new_start (new_end + 1)) as [l ->]; [lia|]. simpl.
  destruct (range_down_head new_end (new_start - 1)) as [l' ->]; [lia|].
  simpl. by rewrite bool_decide_eq_true_2.
Qed.

Lemma X20_witness :
  _improve_answer_span [str "a"; str "b"; str "c"; str "b"] 1 1 bert_like
    (str " b ") = Ok (1, 1).
Proof.
  exact (X20_improve_answer_span_idempotent
           [str "a"; str "b"; str "c"; str "b"] 0 3 bert_like (str " b ") 1 1
           eq_refl).
Defined.

(** ** The sub-token span of an answer *)

Lemma sub_tokenize_blocks (tokenizer : Tokenizer) (doc_tokens : list (list N))
  (tok_to_orig_index orig_to_tok_index : list Z) (all_doc_tokens : list (list N)) :
  sub_tokenize tokenizer doc_tokens
    = Ok (tok_to_orig_index, orig_to_tok_index, all_doc_tokens) →
  ∃ subs,
    Forall2 (λ tok sub, tokenize tokenizer tok = Ok sub) doc_tokens subs ∧
    all_doc_tokens = concat subs ∧
    tok_to_orig_index = concat (index_blocks 0 subs) ∧
    orig_to_tok_index = block_starts 0 subs.
Proof.
  unfold sub_tokenize. intros H.
  rewrite <- (list_fmap_id (enumerate doc_tokens)) in H.
  rewrite (list_fmap_ext _ (λ '(i, x), (0 + i, x))) in H by (by intros ? [? ?] _).
  apply sub_tokenize_loop in H as (subs & Hsubs & -> & -> & ->). by exists subs.
Qed.

Lemma lookup_block_starts (subs : list (list (list N))) (i : nat) (x : Z) :
  block_starts 0 subs !! i = Some x →
  (i < length subs)%nat ∧ x = len (concat (take i subs)).
Proof.
  unfold block_starts. rewrite list_lookup_imap. intros H.
  destruct (subs !! i) as [sub|] eqn:Hi; [|done].
  injection H as <-. split; [by eapply lookup_lt_Some|lia].
Qed.

Lemma concat_take_mono {A : Type} (xss : list (list A)) (a m : nat) :
  (a ≤ m)%nat →
  (length (concat (take a xss)) ≤ length (concat (take m xss)))%nat.
Proof.
  intros H. replace m with (a + (m - a))%nat by lia.
  rewrite <- take_take_drop, concat_app, length_app. lia.
Qed.

(** The sub-tokens of the words [a], ..., [m - 1]. *)
Lemma concat_slice {A : Type} (xss : list (list A)) (a m : nat) :
  (a ≤ m ≤ length xss)%nat →
  concat (take (m - a) (drop a xss))
  = take (length (concat (take m xss)) - length (concat (take a xss)))
      (drop (length (concat (take a xss))) (concat xss)).
Proof.
  intros H.
  assert (take m xss = take a xss ++ take (m - a) (drop a xss)) as Hm.
  { rewrite take_take_drop. f_equal. lia. }
  assert (concat xss = concat (take a xss)
                       ++ concat (take (m - a) (drop a xss))
                       ++ concat (drop m xss)) as Hx.
  { rewrite <- (take_drop m xss) at 1.
    by rewrite Hm, !concat_app, <- app_assoc. }
  rewrite Hm, concat_app, length_app, Hx, drop_app_length.
  replace (length (concat (take a xss)) + length (concat (take (m - a) (drop a xss)))
           - length (concat (take a xss)))%nat
    with (length (concat (take (m - a) (drop a xss)))) by lia.
  by rewrite take_app_length.
Qed.

(** X21. Before its refinement, the sub-token span of an answer is the
    span of the sub-tokens of the words from [start_position] to
    [end_position]: [_improve_answer_span] is called on bounds between
    which [all_doc_tokens] holds exactly the sub-tokens of those words. *)
Theorem X21_answer_span_holds_the_words_sub_tokens (tokenizer : Tokenizer)
  (example : SquadExample) (tok_to_orig_index orig_to_tok_index : list Z)
  (all_doc_tokens : list (list N)) (new_start new_end : Z) :
  sub_tokenize tokenizer (doc_tokens example)
    = Ok (tok_to_orig_index, orig_to_tok_index, all_doc_tokens) →
  0 ≤ start_position example ≤ end_position example →
  answer_tok_span tokenizer example orig_to_tok_index all_doc_tokens
    = Ok (new_start, new_end) →
  ∃ subs tok_start_position tok_end_position answer,
    Forall2 (λ tok sub, tokenize tokenizer tok = Ok sub)
      (doc_tokens example) subs ∧
    answer_text example = Some answer ∧
    _improve_answer_span all_doc_tokens tok_start_position tok_end_position
      tokenizer answer = Ok (new_start, new_end) ∧
    py_slice all_doc_tokens tok_start_position (tok_end_position + 1)
    = concat (py_slice subs (start_position example)
                (end_position example + 1)).
Proof.
  intros Hsub Hpos H.
  apply sub_tokenize_blocks in Hsub as (subs & Hsubs & -> & _ & ->).
  pose proof (Forall2_length Hsubs) as Hlen.
  unfold answer_tok_span in H.
  apply bind_Ok in H as (ts & Hts & H).
  apply bind_Ok in H as (te & Hte & H).
  apply bind_Ok in H as (answer & Hanswer & H).
  destruct (answer_text example) as [a|] eqn:Ha; [|done].
  injection Hanswer as ->.
  exists subs, ts, te, answer. split_and!; [done..|].
  apply py_index_Ok in Hts as [_ Hts].
  rewrite (proj2 (Z.ltb_ge _ 0)) in Hts by lia.
  apply lookup_block_starts in Hts as [Hstart ->].
  set (a := Z.to_nat (start_position example)) in *.
  set (m := Z.to_nat (Z.min (end_position example + 1) (len subs))).
  assert (te + 1 = len (concat (take m subs))) as Hte'.
  { unfold len in *.
    destruct (Z.ltb_spec (end_position example)
                (Z.of_nat (length (doc_tokens example)) - 1)).
    - apply bind_Ok in Hte as (next & Hnext & [= <-]).
      apply py_index_Ok in Hnext as [_ Hnext].
      rewrite (proj2 (Z.ltb_ge _ 0)) in Hnext by lia.
      apply lookup_block_starts in Hnext as [_ ->].
      unfold m. rewrite Z.min_l by lia. unfold len. lia.
    - injection Hte as <-. unfold m. rewrite Z.min_r by lia.
      rewrite Nat2Z.id, firstn_all. lia. }
  assert (a ≤ m ≤ length subs)%nat as Ham by (unfold a, m, len; lia).
  pose proof (concat_slice subs a m Ham) as Hslice.
  assert (length (concat (take a subs)) ≤ length (concat (take m subs))
          ≤ length (concat subs))%nat as Hmono.
  { split; [apply concat_take_mono; lia|].
    rewrite <- (take_ge subs (length subs)) at 2 by done.
    apply concat_take_mono. lia. }
  unfold py_slice, slice_bound. cbv zeta. rewrite Hte'. unfold len in *.
  rewrite !(proj2 (Z.ltb_ge _ 0)) by lia.
  rewrite (Z.min_l (Z.of_nat (length (concat (take a subs))))) by lia.
  rewrite (Z.min_l (Z.of_nat (length (concat (take m subs))))) by lia.
  rewrite (Z.min_l (start_position example)) by lia.
  replace (Z.to_nat (Z.min (end_position example + 1) (Z.of_nat (length subs))
                     - start_position example))
    with (m - a)%nat by (unfold m, a, len; lia).
  fold a. rewrite Hslice. f_equal; [lia|]. f_equal. lia.
Qed.

Definition demo_alignment : list Z * list Z * list pystr :=
  Eval vm_compute in
    match sub_tokenize bert_like (doc_tokens demo_example) with
    | Ok r => r
    | _ => ([], [], [])
    end.

Lemma X21_witness :
  ∃ subs tok_start_position tok_end_position answer,
    Forall2 (λ tok sub, tokenize bert_like tok = Ok sub)
      (doc_tokens demo_example) subs ∧
    answer_text demo_example = Some answer ∧
    _improve_answer_span demo_alignment.2 tok_start_position tok_end_position
      bert_like answer = Ok (3, 4) ∧
    py_slice demo_alignment.2 tok_start_position (tok_end_position + 1)
    = concat (py_slice subs (start_position demo_example)
                (end_position demo_example + 1)).
Proof.
  apply (X21_answer_span_holds_the_words_sub_tokens bert_like demo_example
           demo_alignment.1.1 demo_alignment.1.2 demo_alignment.2 3 4).
  - reflexivity.
  - vm_compute. split; discriminate.
  - reflexivity.
Defined.
